(** * The conversation-graph store of Mutec (chat store, zustand)

    A shallow embedding of the state manager: the node/edge arrays, the
    path resolver, the graph mutators, the message ledger, the document
    inheritance scan and the legacy session save.

    Conventions of the embedding.
    - A JavaScript string is a [string] that holds its UTF-8 bytes, a lone
      surrogate in its three-byte form; [length] and [substring] count
      UTF-16 code units as JavaScript does (module [JS]).
    - A JavaScript array is a [list]; [map], [filter], [find], [some] and
      spreading are the list functions of the same name.
    - A JavaScript [Set<string>] iterates in insertion order and the store
      spreads and iterates its sets, so a set is the list of its members in
      insertion order (module [JSSet]).
    - The [Map<string,string>] of the path resolver is a [gmap string string].
    - A [while] loop whose termination depends on the shape of the graph
      takes a fuel argument and returns [None] when the fuel runs out.
    - Calls to collaborators (thread manager, storage trigger, title
      generator) are recorded as a list of [Effect]s next to the new state;
      logging is left out.
    - Functions of third-party libraries ([nanoid], [addEdge],
      [applyNodeChanges], [JSON.stringify], [sessionStorage.setItem]) are
      parameters of the sections that use them. *)

From Stdlib Require Import ZArith Lia Ascii.
From stdpp Require Import base option list gmap strings relations.


(** ** Data model *)

Record AttachmentData := mkAttachment {
  att_name : string;
  att_type : string;
  att_data : string;        (* base64 *)
  att_previewUrl : string;
}.

Inductive Role := user | model.

Record ChatMessage := mkMessage {
  msg_role : Role;
  msg_content : string;
  msg_attachments : option (list AttachmentData);   (* attachments?: ... *)
  msg_modelId : option string;                      (* modelId?: string *)
}.

Record CustomNodeData := mkData {
  label : string;
  chatHistory : list ChatMessage;
}.

(** Positions are layout only; the store adds integer offsets to them. *)
Record Position := mkPosition { pos_x : Z; pos_y : Z }.

Record Node := mkNode {
  node_id : string;
  node_type : string;
  node_data : CustomNodeData;
  node_position : Position;
}.

Record Edge := mkEdge {
  edge_id : string;
  edge_source : string;
  edge_target : string;
  edge_markerEnd : option string;
}.

Record ActivePath := mkActivePath {
  nodeIds : list string;
  edgeIds : list string;
}.

(** [chatManager] only records whether the collaborator is present
    ([state.chatManager] is tested for null before every call). *)
Record ChatState := mkState {
  nodes : list Node;
  edges : list Edge;
  chatManager : bool;
  activeNodeId : option string;
  activePath : ActivePath;
}.

Inductive Effect :=
| DeleteThread (nodeId : string)
| CreateBranchThread (sourceId newId : string) (pathToSource : list ChatMessage)
| GenerateTitle (nodeId : string) (recentMessages : list ChatMessage)
| SaveToStorage.

#[global] Instance Role_eq_dec : EqDecision Role.
Proof. solve_decision. Defined.
#[global] Instance AttachmentData_eq_dec : EqDecision AttachmentData.
Proof. solve_decision. Defined.
#[global] Instance ChatMessage_eq_dec : EqDecision ChatMessage.
Proof. solve_decision. Defined.

Definition ROOT_NODE : Node :=
  {| node_id := "root";
     node_type := "chatNode";
     node_data := {| label := "Start your conversation"; chatHistory := [] |};
     node_position := {| pos_x := 250; pos_y := 50 |} |}.

Definition initial_state : ChatState :=
  {| nodes := [ROOT_NODE];
     edges := [];
     chatManager := false;
     activeNodeId := Some "root";
     activePath := {| nodeIds := ["root"]; edgeIds := [] |} |}.

(** Record updates in the style of [{ ...node, data: { ...node.data, f: v } }]. *)
Definition set_content (msg : ChatMessage) (content : string) : ChatMessage :=
  {| msg_role := msg_role msg;
     msg_content := content;
     msg_attachments := msg_attachments msg;
     msg_modelId := msg_modelId msg |}.

Definition set_chatHistory (node : Node) (h : list ChatMessage) : Node :=
  {| node_id := node_id node;
     node_type := node_type node;
     node_data := {| label := label (node_data node); chatHistory := h |};
     node_position := node_position node |}.

Definition set_label (node : Node) (l : string) : Node :=
  {| node_id := node_id node;
     node_type := node_type node;
     node_data := {| label := l; chatHistory := chatHistory (node_data node) |};
     node_position := node_position node |}.

(** zustand's [set] merges the returned partial state into the store. *)
Definition set_nodes (st : ChatState) (ns : list Node) : ChatState :=
  {| nodes := ns;
     edges := edges st;
     chatManager := chatManager st;
     activeNodeId := activeNodeId st;
     activePath := activePath st |}.

Definition set_nodes_edges (st : ChatState) (ns : list Node) (es : list Edge)
  : ChatState :=
  {| nodes := ns;
     edges := es;
     chatManager := chatManager st;
     activeNodeId := activeNodeId st;
     activePath := activePath st |}.

(** JavaScript truthiness of a [string | undefined] value. *)
Definition truthy (s : option string) : bool :=
  match s with
  | None => false
  | Some s => negb (String.eqb s "")
  end.

(** ** JavaScript strings *)

Module JS.

(** The UTF-16 code units that one byte of the UTF-8 form accounts for:
    one for an ASCII byte and for the first byte of a two- or three-byte
    sequence, two for the first byte of a four-byte sequence (a surrogate
    pair), none for a continuation byte. *)
Definition units (b : ascii) : nat :=
  let n := N_of_ascii b in
  if (n <? 128)%N then 1
  else if (n <? 192)%N then 0
  else if (n <? 240)%N then 1
  else 2.

(** [s.length]. *)
Fixpoint length (s : string) : nat :=
  match s with
  | EmptyString => 0
  | String b rest => units b + length rest
  end.

(** The six payload bits of the first byte of [s]. *)
Definition payload (s : string) : N :=
  match s with
  | String b _ => (N_of_ascii b mod 64)%N
  | EmptyString => 0%N
  end.

Definition tail (s : string) : string :=
  match s with
  | String _ rest => rest
  | EmptyString => EmptyString
  end.

(** The high surrogate of the pair that a four-byte sequence stands for,
    in its three-byte form: [lead] is the first byte of the sequence and
    [rest] what follows it. *)
Definition highSurrogate (lead : ascii) (rest : string) : string :=
  let top := (N_of_ascii lead mod 8 * 256 + payload rest * 4
              + payload (tail rest) / 16)%N in
  let h := ((top - 64) mod 1024)%N in
  String (ascii_of_N 237)
    (String (ascii_of_N (160 + h / 64))
       (String (ascii_of_N (128 + h mod 64)) EmptyString)).

(** [s.substring(0, n)]: the first [n] code units; a cut between the two
    halves of a surrogate pair leaves the high surrogate. *)
Fixpoint substringTo (n : nat) (s : string) : string :=
  match s with
  | EmptyString => EmptyString
  | String b rest =>
      if Nat.leb (units b) n then String b (substringTo (n - units b) rest)
      else if Nat.eqb n 1 then highSurrogate b rest
      else EmptyString
  end.

End JS.

(** ** Message ledger *)

Module Ledger.

(** [node.data.chatHistory[node.data.chatHistory.length - 1]]. *)
Definition lastMessage (h : list ChatMessage) : option ChatMessage :=
  h !! (length h - 1).

(** [lastMessage?.role === message.role]. *)
Definition isSameRole (h : list ChatMessage) (message : ChatMessage) : bool :=
  match lastMessage h with
  | Some l => bool_decide (msg_role l = msg_role message)
  | None => false
  end.

Definition updatedChatHistory (h : list ChatMessage) (message : ChatMessage)
    (isPartial : bool) : list ChatMessage :=
  if isPartial && isSameRole h message
  then imap (fun idx msg =>
               if Nat.eqb idx (length h - 1)
               then set_content msg (msg_content message)
               else msg) h
  else h ++ [message].

(** [updatedChatHistory.slice(-4)]. *)
Definition slice_last4 (h : list ChatMessage) : list ChatMessage :=
  drop (length h - 4) h.

Definition wantsTitle (st : ChatState) (message : ChatMessage)
    (isPartial : bool) : bool :=
  bool_decide (msg_role message = model) && negb isPartial && chatManager st.

(** The callback of [state.nodes.map] in [addMessageToNode]. *)
Definition addMessage_node (st : ChatState) (nodeId : string)
    (message : ChatMessage) (isPartial : bool) (node : Node)
  : Node * list Effect :=
  if String.eqb (node_id node) nodeId then
    let updated := updatedChatHistory (chatHistory (node_data node)) message isPartial in
    (set_chatHistory node updated,
     if wantsTitle st message isPartial
     then [GenerateTitle nodeId (slice_last4 updated)]
     else [])
  else (node, []).

Definition addMessageToNode (st : ChatState) (nodeId : string)
    (message : ChatMessage) (isPartial : bool) : ChatState * list Effect :=
  let results := map (addMessage_node st nodeId message isPartial) (nodes st) in
  (set_nodes st (map fst results),
   concat (map snd results) ++ (if isPartial then [] else [SaveToStorage])).

(** The two ways the title request of [addMessageToNode] ends: the
    generated title, or the first 30 characters of the message content
    followed by an ellipsis when there are more; either one becomes the
    label and triggers a save. *)
Definition fallbackTitle (content : string) : string :=
  JS.substringTo 30 content
  +:+ (if Nat.ltb 30 (JS.length content) then "..." else "").

Definition setNodeTitle (st : ChatState) (nodeId newTitle : string)
  : ChatState * list Effect :=
  (set_nodes st
     (map (fun n => if String.eqb (node_id n) nodeId
                    then set_label n newTitle else n) (nodes st)),
   [SaveToStorage]).

(** [node.data.chatHistory.slice(0, -1)]. *)
Definition removeLastMessageFromNode (st : ChatState) (nodeId : string)
  : ChatState * list Effect :=
  (set_nodes st
     (map (fun node =>
             if String.eqb (node_id node) nodeId
             then set_chatHistory node
                    (take (length (chatHistory (node_data node)) - 1)
                          (chatHistory (node_data node)))
             else node) (nodes st)),
   [SaveToStorage]).

(** The guard of [updateLastMessageInNode]:
    [lastMessage.role === 'model' && (!modelId || lastMessage.modelId === modelId)]. *)
Definition mayUpdate (lastMsg : ChatMessage) (modelId : option string) : bool :=
  bool_decide (msg_role lastMsg = model)
  && (negb (truthy modelId) || bool_decide (msg_modelId lastMsg = modelId)).

Definition updateLast_node (nodeId content : string) (modelId : option string)
    (node : Node) : Node :=
  let h := chatHistory (node_data node) in
  if String.eqb (node_id node) nodeId && Nat.ltb 0 (length h) then
    match lastMessage h with
    | Some lastMsg =>
        if mayUpdate lastMsg modelId
        then set_chatHistory node (<[length h - 1 := set_content lastMsg content]> h)
        else node
    | None => node
    end
  else node.

Definition updateLastMessageInNode (st : ChatState) (nodeId content : string)
    (modelId : option string) : ChatState :=
  set_nodes st (map (updateLast_node nodeId content modelId) (nodes st)).

End Ledger.

(** ** Insertion-ordered sets of node ids *)

Module JSSet.

Abbreviation t := (list string).

Definition empty : t := [].

Definition has (s : t) (x : string) : bool := bool_decide (x ∈ s).

(** [s.add(x)]: a new member goes last, a present one keeps its place. *)
Definition add (s : t) (x : string) : t := if has s x then s else s ++ [x].

Definition size (s : t) : nat := length s.

End JSSet.

(** ** Path resolver *)

Module PathResolver.

(** [edges.forEach(edge => incoming.set(edge.target, edge.source))]. *)
Definition incomingMap (es : list Edge) : gmap string string :=
  foldl (fun m e => <[edge_target e := edge_source e]> m) ∅ es.

(** The loop
    [while (currentId) { path.unshift(currentId);
                         currentId = incoming.get(currentId);
                         if (!currentId) break; }]. *)
Fixpoint walkUp (fuel : nat) (incoming : gmap string string)
    (currentId : option string) (path : list string) : option (list string) :=
  if truthy currentId then
    match fuel, currentId with
    | S fuel', Some c => walkUp fuel' incoming (incoming !! c) (c :: path)
    | _, _ => None
    end
  else Some path.

Definition getPathNodeIds (fuel : nat) (st : ChatState) (targetNodeId : string)
  : option (list string) :=
  walkUp fuel (incomingMap (edges st)) (Some targetNodeId) [].

(** [edges.find(e => e.source === sourceId && e.target === targetId)]. *)
Definition findEdge (es : list Edge) (sourceId targetId : string) : option Edge :=
  List.find (fun e => String.eqb (edge_source e) sourceId
                      && String.eqb (edge_target e) targetId) es.

(** The [for] loop over consecutive pairs of the node path. *)
Fixpoint connectingEdgeIds (es : list Edge) (path : list string) : list string :=
  match path with
  | sourceId :: ((targetId :: _) as rest) =>
      match findEdge es sourceId targetId with
      | Some e => edge_id e :: connectingEdgeIds es rest
      | None => connectingEdgeIds es rest
      end
  | _ => []
  end.

Definition getPathEdgeIds (fuel : nat) (st : ChatState) (targetNodeId : string)
  : option (list string) :=
  match getPathNodeIds fuel st targetNodeId with
  | Some path => Some (connectingEdgeIds (edges st) path)
  | None => None
  end.

(** [nodes.find(n => n.id === id)]. *)
Definition findNode (ns : list Node) (nodeId : string) : option Node :=
  List.find (fun n => String.eqb (node_id n) nodeId) ns.

(** The message pushed for [msg]:
    [{ role: msg.role, content: msg.content, attachments: msg.attachments || [] }]. *)
Definition pathMessage (msg : ChatMessage) : ChatMessage :=
  {| msg_role := msg_role msg;
     msg_content := msg_content msg;
     msg_attachments := Some (default [] (msg_attachments msg));
     msg_modelId := None |}.

Definition nodeMessages (ns : list Node) (nodeId : string) : list ChatMessage :=
  match findNode ns nodeId with
  | Some node => map pathMessage (chatHistory (node_data node))
  | None => []
  end.

Definition getPathToNode (fuel : nat) (st : ChatState) (targetNodeId : string)
  : option (list ChatMessage) :=
  match getPathNodeIds fuel st targetNodeId with
  | Some path => Some (concat (map (nodeMessages (nodes st)) path))
  | None => None
  end.

(** [setActiveNodeId]; a falsy id clears the active node. *)
Definition setActiveNodeId (fuel : nat) (st : ChatState) (nodeId : option string)
  : option (ChatState * list Effect) :=
  if truthy nodeId then
    match nodeId with
    | Some n =>
        match getPathNodeIds fuel st n with
        | Some ns =>
            Some ({| nodes := nodes st; edges := edges st;
                     chatManager := chatManager st;
                     activeNodeId := Some n;
                     activePath := {| nodeIds := ns;
                                      edgeIds := connectingEdgeIds (edges st) ns |} |},
                  [SaveToStorage])
        | None => None
        end
    | None => None
    end
  else
    Some ({| nodes := nodes st; edges := edges st;
             chatManager := chatManager st;
             activeNodeId := None;
             activePath := {| nodeIds := []; edgeIds := [] |} |},
          [SaveToStorage]).

End PathResolver.

(** ** Document inheritance *)

Module Documents.

(** [s.includes(needle)]. *)
Fixpoint includes (needle s : string) : bool :=
  String.prefix needle s
  || match s with
     | EmptyString => false
     | String _ s' => includes needle s'
     end.

Definition isDocument (att : AttachmentData) : bool :=
  String.eqb (att_type att) "application/pdf"
  || String.prefix "text/" (att_type att)
  || includes "javascript" (att_type att)
  || includes "python" (att_type att).

(** The template string [`${att.name}:${att.type}`]. *)
Definition docKey (att : AttachmentData) : string :=
  att_name att +:+ ":" +:+ att_type att.

(** [docs.some(doc => `${doc.name}:${doc.type}` === docKey)]. *)
Definition alreadyExists (docs : list AttachmentData) (att : AttachmentData) : bool :=
  existsb (fun doc => String.eqb (docKey doc) (docKey att)) docs.

(** The callback of [msg.attachments.forEach]. *)
Definition inheritAttachment (docs : list AttachmentData) (att : AttachmentData)
  : list AttachmentData :=
  if isDocument att then
    if alreadyExists docs att then docs
    else docs ++ [ {| att_name := att_name att; att_type := att_type att;
                      att_data := att_data att;
                      att_previewUrl := att_previewUrl att |} ]
  else docs.

(** The callback of [pathToSource.reduce]. *)
Definition inheritMessage (docs : list AttachmentData) (msg : ChatMessage)
  : list AttachmentData :=
  match msg_attachments msg with
  | Some atts => foldl inheritAttachment docs atts
  | None => docs
  end.

Definition inheritedDocuments (pathToSource : list ChatMessage)
  : list AttachmentData :=
  foldl inheritMessage [] pathToSource.

End Documents.

(** ** Graph mutator *)

(** The change records of the rendering library, by their [type] tag. *)
Inductive NodeChange :=
| NodeDimensionChange (id : string)
| NodePositionChange (id : string) (position : option Position)
| NodeSelectionChange (id : string) (selected : bool)
| NodeRemoveChange (id : string)
| NodeAddChange (item : Node)
| NodeReplaceChange (id : string) (item : Node).

Inductive NodeKind := response | branch.

Module Mutator.

(** The three descendant searches share one loop shape,
    [while (queue.length > 0) {
       const currentId = queue.shift()!;
       state.edges.forEach((edge) => visit) }],
    and differ in the callback [visit], which updates the set and the
    queue. *)
Fixpoint drainQueue
    (visit : string -> JSSet.t * list string -> Edge -> JSSet.t * list string)
    (fuel : nat) (es : list Edge) (queue : list string) (seen : JSSet.t)
  : option JSSet.t :=
  match queue with
  | [] => Some seen
  | currentId :: rest =>
      match fuel with
      | O => None
      | S fuel' =>
          let acc := foldl (visit currentId) (seen, rest) es in
          drainQueue visit fuel' es acc.2 acc.1
      end
  end.

(** The callback in [onNodesChange] and [deleteNodeAndDescendants]:
    [if (edge.source === currentId) {
       if (!set.has(edge.target)) { set.add(edge.target); queue.push(edge.target); } }]. *)
Definition visitGuarded (currentId : string) (acc : JSSet.t * list string)
    (edge : Edge) : JSSet.t * list string :=
  if String.eqb (edge_source edge) currentId then
    if JSSet.has acc.1 (edge_target edge) then acc
    else (JSSet.add acc.1 (edge_target edge), acc.2 ++ [edge_target edge])
  else acc.

(** The callback in [resetNode], which pushes without a membership test:
    [if (edge.source === currentId) {
       nodesToRemove.add(edge.target); queue.push(edge.target); }]. *)
Definition visitAll (currentId : string) (acc : JSSet.t * list string)
    (edge : Edge) : JSSet.t * list string :=
  if String.eqb (edge_source edge) currentId
  then (JSSet.add acc.1 (edge_target edge), acc.2 ++ [edge_target edge])
  else acc.

Definition collectGuarded := drainQueue visitGuarded.
Definition collectAll := drainQueue visitAll.

(** [nodesToRemove.forEach(id => state.chatManager?.deleteThread(id))]. *)
Definition deleteThreads (st : ChatState) (ids : JSSet.t) : list Effect :=
  if chatManager st then map DeleteThread ids else [].

Definition keepNode (nodesToRemove : JSSet.t) (node : Node) : bool :=
  negb (JSSet.has nodesToRemove (node_id node)).

Definition keepEdge (nodesToRemove : JSSet.t) (edge : Edge) : bool :=
  negb (JSSet.has nodesToRemove (edge_source edge))
  && negb (JSSet.has nodesToRemove (edge_target edge)).

Definition hasRoot (ns : list Node) : bool :=
  existsb (fun node => String.eqb (node_id node) "root") ns.

(** The first loop of [onNodesChange]: remove requests, except for root. *)
Definition markRemoval (nodesToRemove : JSSet.t) (change : NodeChange) : JSSet.t :=
  match change with
  | NodeRemoveChange id =>
      if String.eqb id "root" then nodesToRemove else JSSet.add nodesToRemove id
  | _ => nodesToRemove
  end.

Section WithRenderingLibrary.

(** [applyNodeChanges] and [addEdge] of the rendering library, and the
    value returned by the one call of [nanoid()]. *)
Variable applyNodeChanges : list NodeChange -> list Node -> list Node.
Variable addEdge : Edge -> list Edge -> list Edge.
Variable nanoid : string.

Definition onNodesChange (fuel : nat) (st : ChatState) (changes : list NodeChange)
  : option (ChatState * list Effect) :=
  let requested := foldl markRemoval JSSet.empty changes in
  let collected :=
    if Nat.ltb 0 (JSSet.size requested) then
      match collectGuarded fuel (edges st) requested JSSet.empty with
      | Some descendants =>
          let nodesToRemove := foldl JSSet.add requested descendants in
          Some (nodesToRemove, deleteThreads st nodesToRemove)
      | None => None
      end
    else Some (requested, [])
  in
  match collected with
  | Some (nodesToRemove, effects) =>
      let remainingNodes := List.filter (keepNode nodesToRemove) (nodes st) in
      let appliedChanges := applyNodeChanges changes remainingNodes in
      let appliedChanges :=
        if hasRoot appliedChanges then appliedChanges
        else appliedChanges ++ [ROOT_NODE] in
      Some (set_nodes_edges st appliedChanges
              (List.filter (keepEdge nodesToRemove) (edges st)),
            effects)
  | None => None
  end.

(** [{ ...node, data: { ...node.data, chatHistory: [], label: 'New Chat' } }]. *)
Definition clearedNode (node : Node) : Node :=
  {| node_id := node_id node;
     node_type := node_type node;
     node_data := {| label := "New Chat"; chatHistory := [] |};
     node_position := node_position node |}.

Definition resetNode (fuel : nat) (st : ChatState) (nodeId : string)
  : option (ChatState * list Effect) :=
  match collectAll fuel (edges st) [nodeId] JSSet.empty with
  | Some nodesToRemove =>
      Some (set_nodes_edges st
              (List.filter (keepNode nodesToRemove)
                 (map (fun node =>
                         if String.eqb (node_id node) nodeId
                         then clearedNode node
                         else node) (nodes st)))
              (List.filter
                 (fun edge => negb (JSSet.has nodesToRemove (edge_target edge))
                              && negb (JSSet.has nodesToRemove (edge_source edge)))
                 (edges st)),
            [SaveToStorage])
  | None => None
  end.

Definition deleteNodeAndDescendants (fuel : nat) (st : ChatState) (nodeId : string)
  : option (ChatState * list Effect) :=
  if String.eqb nodeId "root" then Some (st, [SaveToStorage])
  else
    match collectGuarded fuel (edges st) [nodeId] [nodeId] with
    | Some nodesToRemove =>
        Some (set_nodes_edges st
                (List.filter (keepNode nodesToRemove) (nodes st))
                (List.filter (keepEdge nodesToRemove) (edges st)),
              deleteThreads st nodesToRemove ++ [SaveToStorage])
    | None => None
    end.

Definition newNode (sourceNode : Node) (label : string) (kind : NodeKind) : Node :=
  {| node_id := nanoid;
     node_type := "chatNode";
     node_data := {| label := label; chatHistory := [] |};
     node_position :=
       {| pos_x := (pos_x (node_position sourceNode)
                    + match kind with branch => 350 | response => 0 end)%Z;
          pos_y := (pos_y (node_position sourceNode) + 250)%Z |} |}.

Definition newEdge (sourceNodeId : string) : Edge :=
  {| edge_id := "e-" +:+ sourceNodeId +:+ "-" +:+ nanoid;
     edge_source := sourceNodeId;
     edge_target := nanoid;
     edge_markerEnd := Some "arrowclosed" |}.

(** Returns the id handed back to the caller next to the new state. The
    documents inherited from [pathToSource]
    ([Documents.inheritedDocuments]) are computed for the log only; the
    branch thread is seeded with the whole path. *)
Definition createNodeAndEdge (fuel : nat) (st : ChatState)
    (sourceNodeId label : string) (kind : NodeKind)
  : option (string * ChatState * list Effect) :=
  match PathResolver.findNode (nodes st) sourceNodeId with
  | None => Some ("", st, [])
  | Some sourceNode =>
      match PathResolver.getPathToNode fuel st sourceNodeId with
      | Some pathToSource =>
          Some (nanoid,
                set_nodes_edges st
                  (nodes st ++ [newNode sourceNode label kind])
                  (addEdge (newEdge sourceNodeId) (edges st)),
                (match kind with
                 | branch =>
                     if chatManager st
                     then [CreateBranchThread sourceNodeId nanoid pathToSource]
                     else []
                 | response => []
                 end) ++ [SaveToStorage])
      | None => None
      end
  end.

End WithRenderingLibrary.

End Mutator.

(** ** Legacy session tier *)

Record SessionData := mkSession {
  sd_nodes : list Node;
  sd_edges : list Edge;
  sd_activeNodeId : option string;
  sd_timestamp : Z;
  sd_version : string;
}.

(** How [sessionStorage.setItem] ends: it returns, throws a
    [QuotaExceededError], or throws something else. *)
Inductive SetItemOutcome := Stored | QuotaExceeded | OtherError.

Module Session.

(** [4.5 * 1024 * 1024]. *)
Definition SIZE_LIMIT : Z := 4718592.

Definition tooLarge (serialized : string) : bool :=
  (SIZE_LIMIT <? Z.of_nat (JS.length serialized))%Z.

(** [msg.content.length > 10000
       ? msg.content.substring(0, 10000) + '...[truncated]' : msg.content]. *)
Definition truncateContent (content : string) : string :=
  if (10000 <? Z.of_nat (JS.length content))%Z
  then JS.substringTo (Z.to_nat 10000) content +:+ "...[truncated]"
  else content.

(** [msg.attachments?.filter(att => att.data.length < 100000) || []]. *)
Definition smallAttachments (atts : option (list AttachmentData))
  : list AttachmentData :=
  match atts with
  | Some l =>
      List.filter
        (fun att => (Z.of_nat (JS.length (att_data att)) <? 100000)%Z) l
  | None => []
  end.

Definition compressMessage (msg : ChatMessage) : ChatMessage :=
  {| msg_role := msg_role msg;
     msg_content := truncateContent (msg_content msg);
     msg_attachments := Some (smallAttachments (msg_attachments msg));
     msg_modelId := msg_modelId msg |}.

Definition compressNode (node : Node) : Node :=
  {| node_id := node_id node;
     node_type := node_type node;
     node_data :=
       {| label := label (node_data node);
          chatHistory := map compressMessage (chatHistory (node_data node)) |};
     node_position := node_position node |}.

Definition compressedData (data : SessionData) : SessionData :=
  {| sd_nodes := map compressNode (sd_nodes data);
     sd_edges := sd_edges data;
     sd_activeNodeId := sd_activeNodeId data;
     sd_timestamp := sd_timestamp data;
     sd_version := sd_version data |}.

Section WithBrowser.

(** [JSON.stringify] on a snapshot, and the way [sessionStorage.setItem]
    ends for a given current entry and new value. *)
Variable stringify : SessionData -> string.
Variable setItem : option string -> string -> SetItemOutcome.

(** The [catch] block: on a quota error the prior entry is removed and the
    uncompressed snapshot is tried once more. *)
Definition onSaveError (outcome : SetItemOutcome) (data : SessionData)
    (entry : option string) : bool * option string :=
  match outcome with
  | QuotaExceeded =>
      let retryData := stringify data in
      if tooLarge retryData then (false, None)
      else
        match setItem None retryData with
        | Stored => (true, Some retryData)
        | _ => (false, None)
        end
  | _ => (false, entry)
  end.

Definition trySetItem (data : SessionData) (entry : option string)
    (value : string) : bool * option string :=
  match setItem entry value with
  | Stored => (true, Some value)
  | outcome => onSaveError outcome data entry
  end.

(** Result and the entry under the session key afterwards. *)
Definition saveSessionData (data : SessionData) (entry : option string)
  : bool * option string :=
  let serialized := stringify data in
  if tooLarge serialized then
    let compressedSerialized := stringify (compressedData data) in
    if tooLarge compressedSerialized then (false, entry)
    else trySetItem data entry compressedSerialized
  else trySetItem data entry serialized.

End WithBrowser.

End Session.


(** ** Sending a message *)

(** The calls that [sendMessageToNode] makes on the chat manager. *)
Inductive ChatCall :=
| GetThread (nodeId : string) (pathMessages : list ChatMessage)
| SendMessage (nodeId message : string)
    (attachments : option (list AttachmentData)).

(** How [chatManager.sendMessage] ends: with the response, or with a
    thrown value that is an [Error] with a message, or something else. *)
Inductive SendOutcome :=
| Responded (reply : string)
| ThrewError (message : string)
| ThrewOther.

Module Conversation.

(** [(lastMessage?.role === 'user' && lastMessage.attachments)
       ? lastMessage.attachments : undefined], where an array, empty or
    not, is truthy. *)
Definition attachmentsToSend (pathMessages : list ChatMessage)
  : option (list AttachmentData) :=
  match Ledger.lastMessage pathMessages with
  | Some lastMessage =>
      match msg_role lastMessage, msg_attachments lastMessage with
      | user, Some attachments => Some attachments
      | _, _ => None
      end
  | None => None
  end.

(** The part of [sendMessageToNode] before the [await]: [inl] is the
    thrown "Chat manager not initialized". *)
Definition sendMessageToNode (fuel : nat) (st : ChatState)
    (nodeId message : string) : option (unit + list ChatCall) :=
  if chatManager st then
    match PathResolver.getPathToNode fuel st nodeId with
    | Some pathMessages =>
        Some (inr [GetThread nodeId pathMessages;
                   SendMessage nodeId message (attachmentsToSend pathMessages)])
    | None => None
    end
  else Some (inl tt).

(** The message recorded once [chatManager.sendMessage] has ended. *)
Definition replyMessage (outcome : SendOutcome) : ChatMessage :=
  match outcome with
  | Responded reply =>
      {| msg_role := model; msg_content := reply;
         msg_attachments := None; msg_modelId := Some "chatManager" |}
  | ThrewError message =>
      {| msg_role := model; msg_content := "Error: " +:+ message;
         msg_attachments := None; msg_modelId := Some "error" |}
  | ThrewOther =>
      {| msg_role := model;
         msg_content := "Error: " +:+ "An unexpected error occurred";
         msg_attachments := None; msg_modelId := Some "error" |}
  end.

(** The part after the [await], run on the state of that moment: the
    reply is added, and a response is followed by one more save. *)
Definition sendMessageDone (st : ChatState) (nodeId : string)
    (outcome : SendOutcome) : ChatState * list Effect :=
  let added := Ledger.addMessageToNode st nodeId (replyMessage outcome) false in
  (added.1,
   added.2 ++ match outcome with
              | Responded _ => [SaveToStorage]
              | _ => []
              end).

End Conversation.

(** ** Workspaces and restoring *)

(** The [metadata] of a workspace snapshot. *)
Record SnapshotMetadata := mkMetadata {
  md_totalMessages : nat;
  md_totalAttachments : nat;
  md_createdAt : Z;
  md_lastModified : Z;
  md_dataSize : Z;
}.

(** A workspace snapshot; one read back from the manager may lack its
    [metadata]. *)
Record WorkspaceData := mkWorkspaceData {
  wd_name : string;
  wd_nodes : list Node;
  wd_edges : list Edge;
  wd_activeNodeId : option string;
  wd_timestamp : Z;
  wd_version : string;
  wd_metadata : option SnapshotMetadata;
}.

(** The calls that [switchWorkspace] makes on the workspace manager. *)
Inductive ManagerCall :=
| SaveWorkspaceData (workspaceId : string) (data : WorkspaceData)
| SetActiveWorkspace (workspaceId : string).

(** The value that [JSON.parse] gives for a stored session, as far as
    [loadSessionData] looks at it: [None] for [nodes] or [edges] that are
    missing, falsy or not arrays, and for a [timestamp] that is not a
    valid time value. *)
Record StoredSession := mkStored {
  ss_nodes : option (list Node);
  ss_edges : option (list Edge);
  ss_activeNodeId : option string;
  ss_timestamp : option Z;
  ss_version : string;
}.

Module Workspace.

(** [state.nodes.reduce((sum, node) =>
       sum + (node.data?.chatHistory?.length || 0), 0)]. *)
Definition totalMessages (ns : list Node) : nat :=
  foldl (fun sum node => sum + length (chatHistory (node_data node))) 0 ns.

(** The inner [reduce] over the messages of one node. *)
Definition nodeAttachments (node : Node) : nat :=
  foldl (fun msgSum msg => msgSum + length (default [] (msg_attachments msg)))
        0 (chatHistory (node_data node)).

Definition totalAttachments (ns : list Node) : nat :=
  foldl (fun sum node => sum + nodeAttachments node) 0 ns.

(** The snapshot built by [saveToStorage] and by [switchWorkspace]:
    [name] is the name of the active workspace, if there is one, and the
    three numbers are what was used for [timestamp], [createdAt] and
    [lastModified]. *)
Definition workspaceData (STORAGE_VERSION : string) (st : ChatState)
    (name : option string) (timestamp createdAt lastModified : Z)
  : WorkspaceData :=
  {| wd_name := if truthy name then default "" name else "Current Workspace";
     wd_nodes := nodes st;
     wd_edges := edges st;
     wd_activeNodeId := activeNodeId st;
     wd_timestamp := timestamp;
     wd_version := STORAGE_VERSION;
     wd_metadata :=
       Some {| md_totalMessages := totalMessages (nodes st);
               md_totalAttachments := totalAttachments (nodes st);
               md_createdAt := createdAt;
               md_lastModified := lastModified;
               md_dataSize := 0 |} |}.

(** [if (!hasRoot) data.nodes.unshift(ROOT_NODE)]. *)
Definition withRoot (ns : list Node) : list Node :=
  if Mutator.hasRoot ns then ns else ROOT_NODE :: ns.

(** The two closures of the loaders, which climb the stored edges. *)
Definition storedPathNodeIds (fuel : nat) (es : list Edge) (targetNodeId : string)
  : option (list string) :=
  PathResolver.walkUp fuel (PathResolver.incomingMap es) (Some targetNodeId) [].

Definition storedPathEdgeIds (fuel : nat) (es : list Edge) (targetNodeId : string)
  : option (list string) :=
  match storedPathNodeIds fuel es targetNodeId with
  | Some nodeIds => Some (PathResolver.connectingEdgeIds es nodeIds)
  | None => None
  end.

(** The [set] callback that [loadFromStorage] and [loadFromSession]
    share word for word. *)
Definition restoredState (fuel : nat) (st : ChatState) (ns : list Node)
    (es : list Edge) (active : option string) : option ChatState :=
  if truthy active then
    match active with
    | Some a =>
        match storedPathNodeIds fuel es a, storedPathEdgeIds fuel es a with
        | Some nodeIds, Some edgeIds =>
            Some {| nodes := ns; edges := es;
                    chatManager := chatManager st;
                    activeNodeId := active;
                    activePath := {| nodeIds := nodeIds; edgeIds := edgeIds |} |}
        | _, _ => None
        end
    | None => None
    end
  else
    Some {| nodes := ns; edges := es;
            chatManager := chatManager st;
            activeNodeId := active;
            activePath := {| nodeIds := []; edgeIds := [] |} |}.

(** [loadFromStorage], given what [getWorkspaceData] returned. The log
    line after the update reads [workspaceData.metadata.totalMessages];
    without [metadata] that throws, and the function returns false after
    the state has been replaced. *)
Definition loadFromStorage (fuel : nat) (st : ChatState)
    (workspaceData : option WorkspaceData) : option (bool * ChatState) :=
  match workspaceData with
  | None => Some (false, st)
  | Some data =>
      match restoredState fuel st (withRoot (wd_nodes data)) (wd_edges data)
              (wd_activeNodeId data) with
      | Some st' =>
          Some (match wd_metadata data with Some _ => true | None => false end,
                st')
      | None => None
      end
  end.

Definition clearStorage (st : ChatState) : ChatState :=
  {| nodes := [ROOT_NODE]; edges := [];
     chatManager := chatManager st;
     activeNodeId := None;
     activePath := {| nodeIds := []; edgeIds := [] |} |}.

(** [loadFromSession], given what [loadSessionData] returned. *)
Definition loadFromSession (fuel : nat) (st : ChatState)
    (sessionData : option SessionData) : option (bool * ChatState) :=
  match sessionData with
  | None => Some (false, st)
  | Some data =>
      match restoredState fuel st (withRoot (sd_nodes data)) (sd_edges data)
              (sd_activeNodeId data) with
      | Some st' => Some (true, st')
      | None => None
      end
  end.

(** The snapshot that [saveToSession] hands to [saveSessionData]. *)
Definition sessionData (st : ChatState) (now : Z) : SessionData :=
  {| sd_nodes := nodes st;
     sd_edges := edges st;
     sd_activeNodeId := activeNodeId st;
     sd_timestamp := now;
     sd_version := "1.0.0" |}.

Section WithBrowser.

Variable stringify : SessionData -> string.
Variable setItem : option string -> string -> SetItemOutcome.
(** [JSON.parse]; [None] when it throws. *)
Variable parse : string -> option StoredSession.

(** The entry under the session key after [saveToSession]. *)
Definition saveToSession (st : ChatState) (now : Z) (entry : option string)
  : option string :=
  (Session.saveSessionData stringify setItem (sessionData st now) entry).2.

(** [loadSessionData], given the entry under the session key. A version
    other than the current one is logged and loaded all the same; the
    final log line formats the timestamp, which throws for a value that
    is not a time. *)
Definition loadSessionData (entry : option string) : option SessionData :=
  if truthy entry then
    match entry with
    | Some stored =>
        match parse stored with
        | Some data =>
            match ss_nodes data, ss_edges data, ss_timestamp data with
            | Some ns, Some es, Some timestamp =>
                Some {| sd_nodes := ns; sd_edges := es;
                        sd_activeNodeId := ss_activeNodeId data;
                        sd_timestamp := timestamp;
                        sd_version := ss_version data |}
            | _, _, _ => None
            end
        | None => None
        end
    | None => None
    end
  else None.

End WithBrowser.

(** [switchWorkspace], given the id of the active workspace, its name,
    the clock readings and what [getWorkspaceData] returns for the new
    workspace. The object handed to [set] is built before [set] runs, so
    [get().getPathNodeIds] and [get().getPathEdgeIds] climb the edges of
    the workspace that is being left; the manager does not write to the
    store. *)
Definition switchWorkspace (STORAGE_VERSION : string) (fuel : nat)
    (st : ChatState) (currentWorkspaceId workspaceId : string)
    (name : option string) (timestamp createdAt lastModified : Z)
    (newWorkspaceData : option WorkspaceData)
  : option (bool * ChatState * list ManagerCall) :=
  if String.eqb currentWorkspaceId workspaceId then Some (true, st, [])
  else
    let calls :=
      [SaveWorkspaceData currentWorkspaceId
         (workspaceData STORAGE_VERSION st name timestamp createdAt lastModified);
       SetActiveWorkspace workspaceId] in
    match newWorkspaceData with
    | Some data =>
        let ns := withRoot (wd_nodes data) in
        if truthy (wd_activeNodeId data) then
          match wd_activeNodeId data with
          | Some a =>
              match PathResolver.getPathNodeIds fuel st a,
                    PathResolver.getPathEdgeIds fuel st a with
              | Some nodeIds, Some edgeIds =>
                  Some (true,
                        {| nodes := ns; edges := wd_edges data;
                           chatManager := chatManager st;
                           activeNodeId := Some a;
                           activePath := {| nodeIds := nodeIds;
                                            edgeIds := edgeIds |} |},
                        calls)
              | _, _ => None
              end
          | None => None
          end
        else
          Some (true,
                {| nodes := ns; edges := wd_edges data;
                   chatManager := chatManager st;
                   activeNodeId := Some "root";
                   activePath := {| nodeIds := ["root"]; edgeIds := [] |} |},
                calls)
    | None =>
        Some (true,
              {| nodes := [ROOT_NODE]; edges := [];
                 chatManager := chatManager st;
                 activeNodeId := Some "root";
                 activePath := {| nodeIds := ["root"]; edgeIds := [] |} |},
              calls)
    end.

End Workspace.
(** ** Vocabulary of the statements *)

Module Graph.

(** [x] is the source and [y] the target of some edge. *)
Definition edgeRel (es : list Edge) (x y : string) : Prop :=
  ∃ e, e ∈ es ∧ edge_source e = x ∧ edge_target e = y.

(** The targets of the edges that leave [x], in edge order. *)
Definition children (es : list Edge) (x : string) : list string :=
  edge_target <$> filter (fun e => edge_source e = x) es.

(** [y] is a strict descendant of [x]. *)
Definition descendant (es : list Edge) : relation string := tc (edgeRel es).

Definition acyclic (es : list Edge) : Prop := ∀ x, ¬ descendant es x x.

Definition ids (ns : list Node) : list string := map node_id ns.

(** What a [visit] callback may do with one edge: nothing when the edge
    does not leave the current node; otherwise the target joins the set
    and, unless it was a member already, the queue. *)
Record visitSpec
    (visit : string -> JSSet.t * list string -> Edge -> JSSet.t * list string)
  : Prop := {
  vs_other : ∀ cur acc e, edge_source e ≠ cur -> visit cur acc e = acc;
  vs_seen : ∀ cur acc e y, edge_source e = cur ->
      y ∈ (visit cur acc e).1 <-> y ∈ acc.1 ∨ y = edge_target e;
  vs_queue : ∀ cur acc e, edge_source e = cur ->
      (visit cur acc e).2 = acc.2 ++ [edge_target e]
      ∨ ((visit cur acc e).2 = acc.2 ∧ edge_target e ∈ acc.1);
}.

(** The number of loop iterations that a queue costs the search of
    [resetNode]: one for each member plus the cost of its children. *)
Inductive cost (es : list Edge) : list string -> nat -> Prop :=
| cost_nil : cost es [] 0
| cost_cons x queue n m :
    cost es (children es x) n -> cost es queue m ->
    cost es (x :: queue) (S (n + m)).

(** Edges whose target the guarded searches have not met yet. *)
Definition unseenEdges (es : list Edge) (seen : list string) : nat :=
  length (filter (fun e => edge_target e ∉ seen) es).

(** Consecutive members of a path are joined by an edge. *)
Inductive linked (es : list Edge) : list string -> Prop :=
| linked_nil : linked es []
| linked_one x : linked es [x]
| linked_cons x y l :
    edgeRel es x y -> linked es (y :: l) -> linked es (x :: y :: l).

(** The nodes met when climbing from [c] along the incoming map, topmost
    first: the climb goes on while the current id and its recorded source
    are truthy. *)
Inductive ancestry (incoming : gmap string string) : string -> list string -> Prop :=
| ancestry_top c :
    truthy (Some c) = true -> truthy (incoming !! c) = false ->
    ancestry incoming c [c]
| ancestry_step c p l :
    truthy (Some c) = true -> incoming !! c = Some p -> truthy (Some p) = true ->
    ancestry incoming p l ->
    ancestry incoming c (l ++ [c]).

(** The tree invariant of the data model: ids are unique and non-empty,
    edges join existing nodes, root has no incoming edge, every other
    node has exactly one, and no node is its own descendant. *)
Record treeState (st : ChatState) : Prop := {
  ts_nodup : NoDup (ids (nodes st));
  ts_root : "root" ∈ ids (nodes st);
  ts_nonempty : "" ∉ ids (nodes st);
  ts_closed : ∀ e, e ∈ edges st ->
      edge_source e ∈ ids (nodes st) ∧ edge_target e ∈ ids (nodes st);
  ts_entry : ∀ e, e ∈ edges st -> edge_target e ≠ "root";
  ts_parent : ∀ n, n ∈ ids (nodes st) -> n ≠ "root" ->
      ∃ e, e ∈ edges st ∧ edge_target e = n;
  ts_one_parent : NoDup (edge_target <$> edges st);
  ts_acyclic : acyclic (edges st);
}.

(** The part of the contract of the library's [addEdge] that the store
    relies on: an edge with non-empty ends is appended unless an edge with
    the same source and target is already there. *)
Definition addEdgeContract (addEdge : Edge -> list Edge -> list Edge) : Prop :=
  ∀ e es,
    edge_source e ≠ "" -> edge_target e ≠ "" ->
    (∀ e', e' ∈ es ->
       ¬ (edge_source e' = edge_source e ∧ edge_target e' = edge_target e)) ->
    addEdge e es = es ++ [e].

(** What a message keeps on its way through the path resolver. *)
Definition messageView (msg : ChatMessage)
  : Role * string * list AttachmentData :=
  (msg_role msg, msg_content msg, default [] (msg_attachments msg)).

(** The history of the first node with the given id, empty if none. *)
Definition historyOf (ns : list Node) (nodeId : string) : list ChatMessage :=
  match PathResolver.findNode ns nodeId with
  | Some node => chatHistory (node_data node)
  | None => []
  end.

(** Keep the first element of every class of [key]. *)
Fixpoint keepFirstBy {A K} `{EqDecision K} (key : A -> K) (l : list A) : list A :=
  match l with
  | [] => []
  | a :: l' => a :: filter (fun b => key b ≠ key a) (keepFirstBy key l')
  end.

(** All attachments along a path of messages, in path order. *)
Definition attachmentsAlong (path : list ChatMessage) : list AttachmentData :=
  concat (map (fun msg => default [] (msg_attachments msg)) path).

Definition startsWith (s start : string) : Prop := ∃ rest, s = start +:+ rest.

Definition contains (s part : string) : Prop :=
  ∃ before after, s = before +:+ part +:+ after.

(** The types that the store takes for documents. *)
Definition documentType (type : string) : Prop :=
  type = "application/pdf" ∨ startsWith type "text/"
  ∨ contains type "javascript" ∨ contains type "python".

(** The document-like attachments along a path, in path order. *)
Definition documentsAlong (path : list ChatMessage) : list AttachmentData :=
  filter (fun att => Documents.isDocument att = true) (attachmentsAlong path).

Definition nameAndType (att : AttachmentData) : string * string :=
  (att_name att, att_type att).

Fixpoint hasColon (s : string) : bool :=
  match s with
  | EmptyString => false
  | String c s' => Ascii.eqb c ":"%char || hasColon s'
  end.

End Graph.


(** ** Vocabulary for stored snapshots *)

Module Stored.

(** What [JSON.parse] reads back from the serialization of a snapshot:
    every field present, the timestamp a time. *)
Definition readBack (data : SessionData) : StoredSession :=
  {| ss_nodes := Some (sd_nodes data);
     ss_edges := Some (sd_edges data);
     ss_activeNodeId := sd_activeNodeId data;
     ss_timestamp := Some (sd_timestamp data);
     ss_version := sd_version data |}.

(** The number of nodes with a given id. *)
Definition occurrences (ns : list Node) (nodeId : string) : nat :=
  length (filter (fun node => node_id node = nodeId) ns).

End Stored.

(** ** Example states *)

Module Examples.

Definition specPdf : AttachmentData :=
  {| att_name := "spec.pdf"; att_type := "application/pdf";
     att_data := "JVBERi0x"; att_previewUrl := "blob:1" |}.

Definition question : ChatMessage :=
  {| msg_role := user; msg_content := "Summarise the file";
     msg_attachments := Some [specPdf]; msg_modelId := None |}.

Definition partialAnswer : ChatMessage :=
  {| msg_role := model; msg_content := "The fi";
     msg_attachments := None; msg_modelId := Some "chatManager" |}.

Definition nextChunk : ChatMessage :=
  {| msg_role := model; msg_content := "The file describes";
     msg_attachments := None; msg_modelId := Some "chatManager" |}.

(** One root node in the middle of a streamed answer. *)
Definition streamingRoot : Node :=
  set_chatHistory ROOT_NODE [question; partialAnswer].

Definition streamingState : ChatState :=
  {| nodes := [streamingRoot];
     edges := [];
     chatManager := true;
     activeNodeId := Some "root";
     activePath := {| nodeIds := ["root"]; edgeIds := [] |} |}.

(** A small tree: root has the children A and C, and A has the child B. *)
Definition m1 : ChatMessage :=
  {| msg_role := user; msg_content := "first";
     msg_attachments := Some [specPdf]; msg_modelId := None |}.
Definition m2 : ChatMessage :=
  {| msg_role := model; msg_content := "second";
     msg_attachments := None; msg_modelId := Some "chatManager" |}.
Definition m3 : ChatMessage :=
  {| msg_role := user; msg_content := "third";
     msg_attachments := None; msg_modelId := None |}.
Definition m4 : ChatMessage :=
  {| msg_role := model; msg_content := "fourth";
     msg_attachments := Some []; msg_modelId := Some "error" |}.

Definition chatNode (nodeId title : string) (history : list ChatMessage)
    (x y : Z) : Node :=
  {| node_id := nodeId; node_type := "chatNode";
     node_data := {| label := title; chatHistory := history |};
     node_position := {| pos_x := x; pos_y := y |} |}.

Definition arrow (sourceId targetId : string) : Edge :=
  {| edge_id := "e-" +:+ sourceId +:+ "-" +:+ targetId;
     edge_source := sourceId; edge_target := targetId;
     edge_markerEnd := Some "arrowclosed" |}.

Definition rootNode : Node := chatNode "root" "Start your conversation" [m1] 250 50.
Definition nodeA : Node := chatNode "node-A" "Alpha" [m2; m3] 250 300.
Definition nodeB : Node := chatNode "node-B" "Beta" [m4] 250 550.
Definition nodeC : Node := chatNode "node-C" "Gamma" [] 600 300.

Definition treeExample : ChatState :=
  {| nodes := [rootNode; nodeA; nodeB; nodeC];
     edges := [arrow "root" "node-A"; arrow "node-A" "node-B";
               arrow "root" "node-C"];
     chatManager := true;
     activeNodeId := Some "node-B";
     activePath := {| nodeIds := ["root"; "node-A"; "node-B"];
                      edgeIds := ["e-root-node-A"; "e-node-A-node-B"] |} |}.

Definition treeRank (nodeId : string) : nat :=
  if String.eqb nodeId "root" then 0
  else if String.eqb nodeId "node-B" then 2 else 1.

(** Two nodes that point at each other: not a tree. *)
Definition cycleExample : ChatState :=
  {| nodes := [ROOT_NODE; nodeA; nodeB];
     edges := [arrow "node-A" "node-B"; arrow "node-B" "node-A"];
     chatManager := false;
     activeNodeId := None;
     activePath := {| nodeIds := []; edgeIds := [] |} |}.

(** A stand-in for the library's [applyNodeChanges] that honours the
    remove requests of a batch and nothing else. *)
Definition applyRemovals (changes : list NodeChange) (ns : list Node) : list Node :=
  List.filter
    (fun node =>
       negb (existsb (fun change =>
                        match change with
                        | NodeRemoveChange id => String.eqb id (node_id node)
                        | _ => false
                        end) changes)) ns.

(** Two attachments that differ in name and in type and still share the
    key [name:type]. *)
Definition scriptOne : AttachmentData :=
  {| att_name := "notes"; att_type := "x:python";
     att_data := "cHJpbnQoMSk="; att_previewUrl := "blob:2" |}.
Definition scriptTwo : AttachmentData :=
  {| att_name := "notes:x"; att_type := "python";
     att_data := "cHJpbnQoMik="; att_previewUrl := "blob:3" |}.
Definition withScripts : ChatMessage :=
  {| msg_role := user; msg_content := "two scripts";
     msg_attachments := Some [scriptOne; scriptTwo]; msg_modelId := None |}.

(** The same file attached twice along a path, and a picture. *)
Definition specPdfAgain : AttachmentData :=
  {| att_name := "spec.pdf"; att_type := "application/pdf";
     att_data := "JVBERi0y"; att_previewUrl := "blob:4" |}.
Definition photo : AttachmentData :=
  {| att_name := "photo.png"; att_type := "image/png";
     att_data := "iVBORw0K"; att_previewUrl := "blob:5" |}.
Definition withSpecAgain : ChatMessage :=
  {| msg_role := user; msg_content := "again";
     msg_attachments := Some [photo; specPdfAgain]; msg_modelId := None |}.

(** A session snapshot and stand-ins for the browser: a serializer that
    yields two characters for a snapshot without nodes and more than eight
    million otherwise, and a storage that accepts every write. *)
Definition sessionOf (st : ChatState) : SessionData :=
  {| sd_nodes := nodes st; sd_edges := edges st;
     sd_activeNodeId := activeNodeId st;
     sd_timestamp := 1790000000000; sd_version := "1.0.0" |}.

Definition emptySession : SessionData :=
  {| sd_nodes := []; sd_edges := []; sd_activeNodeId := None;
     sd_timestamp := 1790000000000; sd_version := "1.0.0" |}.

Fixpoint doubled (n : nat) (s : string) : string :=
  match n with
  | O => s
  | S n' => doubled n' (s +:+ s)
  end.

Definition coarseStringify (data : SessionData) : string :=
  match sd_nodes data with
  | [] => "{}"
  | _ :: _ => doubled 23 "x"
  end.

Definition roomyStorage (entry : option string) (value : string)
  : SetItemOutcome := Stored.

(** A stand-in for the library's [addEdge]: edges with an empty end and
    connections that exist already are dropped, others are appended. *)
Definition addEdgeOnce (e : Edge) (es : list Edge) : list Edge :=
  if String.eqb (edge_source e) "" || String.eqb (edge_target e) "" then es
  else if existsb (fun e' => String.eqb (edge_source e') (edge_source e)
                             && String.eqb (edge_target e') (edge_target e)) es
       then es
       else es ++ [e].

(** The chain root → A → B as the store builds it: two calls of
    [createNodeAndEdge] from the initial state, with the ids that the two
    calls of [nanoid] returned. *)
Definition idA : string := "V1StGXR8_Z5jdHi6B-myT".
Definition idB : string := "Uakgb_J5m9g-0JDMbcJqL".

Definition stateOf (result : option (string * ChatState * list Effect))
    (otherwise : ChatState) : ChatState :=
  match result with
  | Some (_, st, _) => st
  | None => otherwise
  end.

Definition builtA : ChatState :=
  stateOf (Mutator.createNodeAndEdge addEdgeOnce idA 1 initial_state
             "root" "A" response) initial_state.

Definition builtB : ChatState :=
  stateOf (Mutator.createNodeAndEdge addEdgeOnce idB 2 builtA
             idA "B" branch) builtA.

End Examples.

(** ** Readings of the specification that the store does not meet *)

Module Stated.

(** [replaceLast] as the specification words it: the content is replaced
    when the last message is a model message and no [modelId] was given or
    the given one equals the recorded one, and the node is left alone
    otherwise. *)
Definition replaceLast_iff : Prop :=
  ∀ (st : ChatState) (nodeId content : string) (modelId : option string)
    (i : nat) (node : Node),
    nodes st !! i = Some node ->
    node_id node = nodeId ->
    ∃ node',
      nodes (Ledger.updateLastMessageInNode st nodeId content modelId) !! i
      = Some node'
      ∧ (∀ lastMsg,
           last (chatHistory (node_data node)) = Some lastMsg ->
           msg_role lastMsg = model ->
           modelId = None ∨ modelId = msg_modelId lastMsg ->
           node' = set_chatHistory node
                     (take (length (chatHistory (node_data node)) - 1)
                           (chatHistory (node_data node))
                      ++ [set_content lastMsg content]))
      ∧ (last (chatHistory (node_data node)) = None
         ∨ (∃ lastMsg,
              last (chatHistory (node_data node)) = Some lastMsg
              ∧ (msg_role lastMsg ≠ model
                 ∨ (modelId ≠ None ∧ modelId ≠ msg_modelId lastMsg))) ->
         node' = node).

(** Cascade delete as the specification words it for every node of a
    tree state: exactly the node and its strict descendants go. *)
Definition delete_removes_subtree : Prop :=
  ∀ (st st' : ChatState) (nodeId : string) (fuel : nat) (effects : list Effect),
    Graph.treeState st ->
    nodeId ∈ Graph.ids (nodes st) ->
    Mutator.deleteNodeAndDescendants fuel st nodeId = Some (st', effects) ->
    ∀ node, node ∈ nodes st'
            <-> node ∈ nodes st
                ∧ node_id node ≠ nodeId
                ∧ ¬ Graph.descendant (edges st) nodeId (node_id node).

(** The id of [createNodeAndEdge] as the specification words it: for
    an existing source of a tree state, with [addEdge] keeping its
    contract and [nanoid] handing out a non-empty id, the id that is
    returned is not yet the id of any node. *)
Definition create_returns_fresh : Prop :=
  ∀ (addEdge : Edge -> list Edge -> list Edge) (nanoid : string)
    (st st' : ChatState) (sourceNodeId title newId : string) (kind : NodeKind)
    (fuel : nat) (effects : list Effect),
    Graph.treeState st ->
    Graph.addEdgeContract addEdge ->
    nanoid ≠ "" ->
    sourceNodeId ∈ Graph.ids (nodes st) ->
    Mutator.createNodeAndEdge addEdge nanoid fuel st sourceNodeId title kind
    = Some (newId, st', effects) ->
    newId ∉ Graph.ids (nodes st).

End Stated.

Module MoreExamples.
Import Examples.

(** The example tree with a second edge into B, from C. *)
Definition twoParents : ChatState :=
  set_nodes_edges treeExample (nodes treeExample)
    (edges treeExample ++ [arrow "node-C" "node-B"]).

(** A storage that is full until the entry has been removed. *)
Definition fullUntilCleared (entry : option string) (value : string)
  : SetItemOutcome :=
  match entry with
  | Some _ => QuotaExceeded
  | None => Stored
  end.

(** A snapshot with one message of 16 384 characters, and a stand-in for
    [JSON.stringify] that yields two characters unless some content has
    more than 12 000 characters, and more than eight million then. *)
Definition longMessage : ChatMessage :=
  {| msg_role := model; msg_content := doubled 14 "a";
     msg_attachments := Some [specPdf]; msg_modelId := Some "chatManager" |}.

Definition longSession : SessionData :=
  {| sd_nodes := [set_chatHistory ROOT_NODE [question; longMessage]];
     sd_edges := []; sd_activeNodeId := Some "root";
     sd_timestamp := 1790000000000; sd_version := "1.0.0" |}.

Definition hasLongContent (ns : list Node) : bool :=
  existsb (fun node =>
             existsb (fun msg => (12000 <? Z.of_nat (JS.length (msg_content msg)))%Z)
                     (chatHistory (node_data node))) ns.

Definition sizedStringify (data : SessionData) : string :=
  if hasLongContent (sd_nodes data) then doubled 23 "x" else "{}".

(** The example tree as a workspace snapshot, with and without its
    metadata, and a snapshot without a root node. *)
Definition storedTree : WorkspaceData :=
  Workspace.workspaceData "2.0.0" treeExample (Some "Research")
    1790000000000 1780000000000 1790000000000.

Definition storedTreeBare : WorkspaceData :=
  {| wd_name := "Research";
     wd_nodes := nodes treeExample;
     wd_edges := edges treeExample;
     wd_activeNodeId := Some "node-B";
     wd_timestamp := 1790000000000;
     wd_version := "1.0.0";
     wd_metadata := None |}.

Definition storedRootless : SessionData :=
  {| sd_nodes := [nodeA; nodeB];
     sd_edges := [arrow "node-A" "node-B"];
     sd_activeNodeId := Some "node-B";
     sd_timestamp := 1790000000000;
     sd_version := "0.9.0" |}.

(** Stand-ins for [JSON.stringify] and [JSON.parse] on the snapshot of
    the initial state: everything else is taken for unreadable. *)
Definition initialSession : SessionData :=
  Workspace.sessionData initial_state 1790000000000.

Definition tinyStringify (data : SessionData) : string := "{initial}".

Definition tinyParse (stored : string) : option StoredSession :=
  if String.eqb stored "{initial}"
  then Some {| ss_nodes := Some (sd_nodes initialSession);
               ss_edges := Some (sd_edges initialSession);
               ss_activeNodeId := sd_activeNodeId initialSession;
               ss_timestamp := Some (sd_timestamp initialSession);
               ss_version := sd_version initialSession |}
  else None.

End MoreExamples.

(** ** JavaScript strings: properties *)

Section JSStrings.

Lemma JS_units_cases b : JS.units b = 0 ∨ JS.units b = 1 ∨ JS.units b = 2.
Proof.
  unfold JS.units. destruct (_ <? 128)%N; [by right; left|].
  destruct (_ <? 192)%N; [by left|].
  destruct (_ <? 240)%N; [by right; left|by right; right].
Qed.

Lemma JS_length_app s1 s2 :
  JS.length (s1 +:+ s2) = JS.length s1 + JS.length s2.
Proof.
  induction s1 as [|b s1 IH]; [done|].
  change (String b s1 +:+ s2) with (String b (s1 +:+ s2)).
  cbn [JS.length]. rewrite IH. lia.
Qed.

Lemma JS_units_continuation n :
  (128 ≤ n < 192)%N -> JS.units (ascii_of_N n) = 0.
Proof.
  intros Hn. unfold JS.units. rewrite N_ascii_embedding by lia.
  destruct (N.ltb_spec n 128); [lia|].
  destruct (N.ltb_spec n 192); [done|lia].
Qed.

Lemma JS_length_highSurrogate lead rest :
  JS.length (JS.highSurrogate lead rest) = 1.
Proof.
  unfold JS.highSurrogate. cbn [JS.length].
  set (h := (_ mod 1024)%N).
  assert (Hh : (h < 1024)%N) by (apply N.mod_lt; lia).
  clearbody h.
  assert (Hdiv : (h / 64 < 16)%N) by (apply N.Div0.div_lt_upper_bound; lia).
  assert (Hmod : (h mod 64 < 64)%N) by (apply N.mod_lt; lia).
  set (d := (h / 64)%N) in *. set (m := (h mod 64)%N) in *. clearbody d m.
  rewrite (JS_units_continuation (160 + d)) by lia.
  rewrite (JS_units_continuation (128 + m)) by lia.
  reflexivity.
Qed.

(** [substring(0, n)] has [n] code units, or all of them when there are
    fewer. *)
Lemma JS_length_substringTo n s :
  JS.length (JS.substringTo n s) = n `min` JS.length s.
Proof.
  revert n. induction s as [|b s IH]; intros n; [simpl; lia|].
  cbn [JS.substringTo JS.length].
  destruct (Nat.leb_spec (JS.units b) n) as [Hfits|Hcut].
  - cbn [JS.length]. rewrite IH. lia.
  - destruct (Nat.eqb_spec n 1) as [->|Hn].
    + rewrite JS_length_highSurrogate.
      destruct (JS_units_cases b) as [?|[?|?]]; lia.
    + simpl. destruct (JS_units_cases b) as [?|[?|?]]; lia.
Qed.

Lemma JS_substringTo_all n s :
  JS.length s ≤ n -> JS.substringTo n s = s.
Proof.
  revert n. induction s as [|b s IH]; intros n Hlen; [done|].
  cbn [JS.substringTo JS.length] in *.
  destruct (Nat.leb_spec (JS.units b) n) as [Hfits|Hcut]; [|lia].
  rewrite IH; [done|lia].
Qed.

(** A string of exactly [n] code units is what [substring(0, n)] keeps
    of it and whatever follows, when what follows starts a character. *)
Lemma JS_substringTo_exact n s b t :
  JS.length s = n ->
  JS.units b = 1 ->
  JS.substringTo n (s +:+ String b t) = s.
Proof.
  intros Hlen Hb. revert n Hlen. induction s as [|c s IH]; intros n Hlen.
  - simpl in Hlen. subst n. change ("" +:+ String b t) with (String b t).
    cbn [JS.substringTo]. by rewrite Hb.
  - change (String c s +:+ String b t) with (String c (s +:+ String b t)).
    cbn [JS.substringTo JS.length] in *.
    destruct (Nat.leb_spec (JS.units c) n) as [Hfits|Hcut]; [|lia].
    rewrite IH; [done|lia].
Qed.

End JSStrings.
(** ** Message ledger: properties *)

Section LedgerProperties.
Import Ledger.

Lemma lastMessage_last (h : list ChatMessage) : lastMessage h = last h.
Proof.
  unfold lastMessage. rewrite last_lookup.
  by replace (length h - 1) with (pred (length h)) by lia.
Qed.

Lemma lastMessage_snoc (h : list ChatMessage) m : lastMessage (h ++ [m]) = Some m.
Proof. by rewrite lastMessage_last, last_snoc. Qed.

Lemma last_Some_snoc {A} (l : list A) x :
  last l = Some x -> ∃ l0, l = l0 ++ [x] ∧ take (length l - 1) l = l0.
Proof.
  destruct l as [|a l] using rev_ind; [done|].
  rewrite last_snoc. intros [= ->]. exists l. split; [done|].
  rewrite length_app. simpl.
  replace (length l + 1 - 1) with (length l) by lia.
  by rewrite take_app_length.
Qed.

Lemma imap_replace_last {A} (f : A -> A) (l : list A) x :
  imap (fun idx a => if Nat.eqb idx (length (l ++ [x]) - 1) then f a else a)
       (l ++ [x])
  = l ++ [f x].
Proof.
  rewrite imap_app. f_equal.
  - transitivity (imap (fun _ a => a) l).
    + apply imap_ext. intros i a Hi. apply lookup_lt_Some in Hi.
      rewrite length_app. simpl.
      destruct (Nat.eqb_spec i (length l + 1 - 1)); [lia|done].
    + clear. induction l as [|a l IH]; [done|]. simpl. f_equal. apply IH.
  - simpl. rewrite length_app. simpl.
    destruct (Nat.eqb_spec (length l + 0) (length l + 1 - 1)); [done|lia].
Qed.

Lemma updatedChatHistory_replace h0 lastMsg message :
  msg_role lastMsg = msg_role message ->
  updatedChatHistory (h0 ++ [lastMsg]) message true
  = h0 ++ [set_content lastMsg (msg_content message)].
Proof.
  intros Hrole. unfold updatedChatHistory, isSameRole.
  rewrite lastMessage_snoc. rewrite bool_decide_true by done. simpl.
  apply (imap_replace_last (fun a => set_content a (msg_content message))).
Qed.

Lemma updatedChatHistory_append h message isPartial :
  isPartial = false ∨ last h = None
  ∨ (∃ lastMsg, last h = Some lastMsg ∧ msg_role lastMsg ≠ msg_role message) ->
  updatedChatHistory h message isPartial = h ++ [message].
Proof.
  unfold updatedChatHistory, isSameRole. rewrite lastMessage_last.
  intros [-> | [-> | (l & -> & Hne)]].
  - done.
  - by rewrite andb_false_r.
  - rewrite bool_decide_false by done. by rewrite andb_false_r.
Qed.

Lemma addMessageToNode_nodes st nodeId message isPartial :
  nodes (addMessageToNode st nodeId message isPartial).1
  = map (fun node => (addMessage_node st nodeId message isPartial node).1) (nodes st).
Proof. unfold addMessageToNode. simpl. by rewrite map_map. Qed.

End LedgerProperties.

Section LedgerClaims.
Import Ledger.

(** C5. [addMessageToNode] on a node with the given id: a partial message
    whose role equals the role of the node's last message replaces the
    content of that last message in place (same length, every other field
    of the message kept, attachments included); in every other case
    (not partial, empty history, or a last message of the other role) the
    message is appended and the history grows by exactly one. *)
Theorem addMessageToNode_replace_or_append
    (st : ChatState) (nodeId : string) (message : ChatMessage)
    (isPartial : bool) (i : nat) (node : Node) :
  nodes st !! i = Some node ->
  node_id node = nodeId ->
  ∃ node',
    nodes (addMessageToNode st nodeId message isPartial).1 !! i = Some node'
    ∧ node_id node' = nodeId
    ∧ label (node_data node') = label (node_data node)
    ∧ (∀ lastMsg,
         isPartial = true ->
         last (chatHistory (node_data node)) = Some lastMsg ->
         msg_role lastMsg = msg_role message ->
         chatHistory (node_data node')
         = take (length (chatHistory (node_data node)) - 1)
                (chatHistory (node_data node))
           ++ [ {| msg_role := msg_role lastMsg;
                   msg_content := msg_content message;
                   msg_attachments := msg_attachments lastMsg;
                   msg_modelId := msg_modelId lastMsg |} ]
         ∧ length (chatHistory (node_data node'))
           = length (chatHistory (node_data node)))
    ∧ (isPartial = false
       ∨ last (chatHistory (node_data node)) = None
       ∨ (∃ lastMsg, last (chatHistory (node_data node)) = Some lastMsg
                     ∧ msg_role lastMsg ≠ msg_role message) ->
       chatHistory (node_data node')
       = chatHistory (node_data node) ++ [message]
       ∧ length (chatHistory (node_data node'))
         = S (length (chatHistory (node_data node)))).
Proof.
  intros Hi Hid.
  rewrite addMessageToNode_nodes, list_lookup_fmap, Hi. simpl.
  unfold addMessage_node.
  rewrite (proj2 (String.eqb_eq _ _) Hid). simpl.
  eexists. split; [reflexivity|]. simpl.
  split; [done|]. split; [done|]. split.
  - intros lastMsg -> Hlast Hrole.
    destruct (last_Some_snoc _ _ Hlast) as (h0 & Hsplit & ->).
    rewrite Hsplit, updatedChatHistory_replace by done.
    split; [done|]. by rewrite !length_app.
  - intros Hcase. rewrite updatedChatHistory_append by done.
    split; [done|]. rewrite length_app. simpl. lia.
Qed.

End LedgerClaims.

Section ReplaceLast.
Import Ledger.

Lemma insert_last {A} (l : list A) a b :
  <[length (l ++ [a]) - 1 := b]> (l ++ [a]) = l ++ [b].
Proof.
  rewrite length_app. simpl.
  replace (length l + 1 - 1) with (length l + 0) by lia.
  by rewrite insert_app_r.
Qed.

Lemma truthy_false (s : option string) :
  truthy s = false <-> s = None ∨ s = Some "".
Proof.
  destruct s as [s|]; simpl.
  - rewrite negb_false_iff, String.eqb_eq. split.
    + intros ->. by right.
    + by intros [?|[= ->]].
  - split; [by left|done].
Qed.

Lemma mayUpdate_true lastMsg modelId :
  mayUpdate lastMsg modelId = true
  <-> msg_role lastMsg = model
      ∧ (modelId = None ∨ modelId = Some "" ∨ modelId = msg_modelId lastMsg).
Proof.
  unfold mayUpdate.
  rewrite andb_true_iff, orb_true_iff, negb_true_iff, truthy_false,
    !bool_decide_eq_true.
  intuition auto.
Qed.

Lemma updateLast_node_other nodeId content modelId node :
  node_id node ≠ nodeId -> updateLast_node nodeId content modelId node = node.
Proof.
  intros Hne. unfold updateLast_node.
  by rewrite (proj2 (String.eqb_neq _ _) Hne).
Qed.

Lemma updateLast_node_empty nodeId content modelId node :
  last (chatHistory (node_data node)) = None ->
  updateLast_node nodeId content modelId node = node.
Proof.
  intros Hlast. unfold updateLast_node. rewrite lastMessage_last, Hlast.
  by destruct (_ && _).
Qed.

Lemma updateLast_node_last nodeId content modelId node lastMsg :
  node_id node = nodeId ->
  last (chatHistory (node_data node)) = Some lastMsg ->
  updateLast_node nodeId content modelId node
  = if mayUpdate lastMsg modelId
    then set_chatHistory node
           (take (length (chatHistory (node_data node)) - 1)
                 (chatHistory (node_data node))
            ++ [set_content lastMsg content])
    else node.
Proof.
  intros Hid Hlast. unfold updateLast_node.
  rewrite (proj2 (String.eqb_eq _ _) Hid), lastMessage_last, Hlast.
  destruct (last_Some_snoc _ _ Hlast) as (h0 & Hsplit & ->).
  rewrite Hsplit, insert_last.
  replace (0 <? length (h0 ++ [lastMsg])) with true; [done|].
  symmetry. apply Nat.ltb_lt. rewrite length_app. simpl. lia.
Qed.

(** C6, amended. [updateLastMessageInNode] replaces the content of the last
    message of a node with the given id exactly when the history is not
    empty, the last message has role [model], and the [modelId] argument
    is absent, is the empty string, or equals the [modelId] recorded in
    that message; it then changes nothing but that content. In every other
    case the node is returned as it was, and nodes with another id are
    never changed. *)
Theorem updateLastMessageInNode_guarded
    (st : ChatState) (nodeId content : string) (modelId : option string)
    (i : nat) (node : Node) :
  nodes st !! i = Some node ->
  node_id node = nodeId ->
  ∃ node',
    nodes (updateLastMessageInNode st nodeId content modelId) !! i = Some node'
    ∧ (∀ lastMsg,
         last (chatHistory (node_data node)) = Some lastMsg ->
         msg_role lastMsg = model ->
         modelId = None ∨ modelId = Some "" ∨ modelId = msg_modelId lastMsg ->
         node' = set_chatHistory node
                   (take (length (chatHistory (node_data node)) - 1)
                         (chatHistory (node_data node))
                    ++ [ {| msg_role := msg_role lastMsg;
                            msg_content := content;
                            msg_attachments := msg_attachments lastMsg;
                            msg_modelId := msg_modelId lastMsg |} ]))
    ∧ (last (chatHistory (node_data node)) = None
       ∨ (∃ lastMsg,
            last (chatHistory (node_data node)) = Some lastMsg
            ∧ (msg_role lastMsg ≠ model
               ∨ (modelId ≠ None ∧ modelId ≠ Some ""
                  ∧ modelId ≠ msg_modelId lastMsg))) ->
       node' = node)
    ∧ (∀ j other,
         nodes st !! j = Some other -> node_id other ≠ nodeId ->
         nodes (updateLastMessageInNode st nodeId content modelId) !! j
         = Some other).
Proof.
  intros Hi Hid. unfold updateLastMessageInNode. simpl.
  rewrite list_lookup_fmap, Hi. simpl. eexists. split; [reflexivity|].
  split; [|split].
  - intros lastMsg Hlast Hrole Hfilter.
    rewrite (updateLast_node_last _ _ _ _ _ Hid Hlast).
    by rewrite (proj2 (mayUpdate_true lastMsg modelId) (conj Hrole Hfilter)).
  - intros [Hnone | (lastMsg & Hlast & Hfail)].
    + by apply updateLast_node_empty.
    + rewrite (updateLast_node_last _ _ _ _ _ Hid Hlast).
      destruct (mayUpdate lastMsg modelId) eqn:Hm; [|done].
      apply mayUpdate_true in Hm. intuition congruence.
  - intros j other Hj Hne.
    rewrite list_lookup_fmap, Hj. simpl.
    by rewrite updateLast_node_other.
Qed.

End ReplaceLast.

Section LedgerExamples.
Import Ledger Examples.

Lemma addMessageToNode_replace_or_append_witness :
  nodes streamingState !! 0 = Some streamingRoot
  ∧ node_id streamingRoot = "root"
  ∧ last (chatHistory (node_data streamingRoot)) = Some partialAnswer
  ∧ msg_role partialAnswer = msg_role nextChunk
  ∧ ∃ node',
      nodes (addMessageToNode streamingState "root" nextChunk true).1 !! 0
      = Some node'
      ∧ chatHistory (node_data node') = [question; nextChunk]
      ∧ length (chatHistory (node_data node')) = 2.
Proof.
  repeat split; try reflexivity.
  destruct (addMessageToNode_replace_or_append
              streamingState "root" nextChunk true 0 streamingRoot
              eq_refl eq_refl)
    as (node' & Hlook & _ & _ & Hreplace & _).
  exists node'. split; [exact Hlook|].
  exact (Hreplace partialAnswer eq_refl eq_refl eq_refl).
Defined.

Lemma updateLastMessageInNode_guarded_witness :
  nodes streamingState !! 0 = Some streamingRoot
  ∧ node_id streamingRoot = "root"
  ∧ ∃ node',
      nodes (updateLastMessageInNode streamingState "root" "The file"
               (Some "chatManager")) !! 0 = Some node'
      ∧ chatHistory (node_data node')
        = [question; set_content partialAnswer "The file"].
Proof.
  repeat split; try reflexivity.
  destruct (updateLastMessageInNode_guarded
              streamingState "root" "The file" (Some "chatManager")
              0 streamingRoot eq_refl eq_refl)
    as (node' & Hlook & Hreplace & _).
  exists node'. split; [exact Hlook|].
  rewrite (Hreplace partialAnswer eq_refl eq_refl
             (or_intror (or_intror eq_refl))).
  reflexivity.
Defined.

(** C6 as stated fails: an empty-string [modelId] is an argument that was
    given and that differs from the recorded ["chatManager"], yet the
    store treats it as absent and replaces the content. *)
Lemma replaceLast_iff_counterexample : ¬ Stated.replaceLast_iff.
Proof.
  intros Hclaim.
  destruct (Hclaim streamingState "root" "overwritten" (Some "") 0
              streamingRoot eq_refl eq_refl)
    as (node' & Hlook & _ & Hkeep).
  vm_compute in Hlook. injection Hlook as <-.
  assert (Hsame : set_chatHistory ROOT_NODE
                    [question; set_content partialAnswer "overwritten"]
                  = streamingRoot).
  { apply Hkeep. right. exists partialAnswer. split; [reflexivity|].
    right. split; discriminate. }
  discriminate Hsame.
Qed.

End LedgerExamples.

(** ** Sets and descendant searches: properties *)

Section SetFacts.

Lemma elem_of_bfilter {A} (f : A -> bool) (l : list A) x :
  x ∈ List.filter f l <-> x ∈ l ∧ f x = true.
Proof. rewrite !list_elem_of_In. apply List.filter_In. Qed.

Lemma JSSet_has_true s x : JSSet.has s x = true <-> x ∈ s.
Proof. unfold JSSet.has. apply bool_decide_eq_true. Qed.

Lemma JSSet_has_false s x : JSSet.has s x = false <-> x ∉ s.
Proof. unfold JSSet.has. apply bool_decide_eq_false. Qed.

Lemma JSSet_elem_of_add s x y : y ∈ JSSet.add s x <-> y ∈ s ∨ y = x.
Proof.
  unfold JSSet.add. destruct (JSSet.has s x) eqn:Hhas.
  - apply JSSet_has_true in Hhas. split; [by left|]. by intros [?| ->].
  - by rewrite elem_of_app, list_elem_of_singleton.
Qed.

Lemma JSSet_elem_of_add_all s l y : y ∈ foldl JSSet.add s l <-> y ∈ s ∨ y ∈ l.
Proof.
  revert s. induction l as [|x l IH]; intros s; simpl.
  - rewrite elem_of_nil. tauto.
  - rewrite IH, JSSet_elem_of_add, elem_of_cons. tauto.
Qed.

Lemma JSSet_add_length s x : length (JSSet.add s x) ≤ S (length s).
Proof.
  unfold JSSet.add. destruct (JSSet.has s x); [lia|].
  rewrite length_app. simpl. lia.
Qed.

End SetFacts.

Section Search.
Import Graph Mutator.

Implicit Types (es : list Edge) (queue seen : list string).

Lemma edgeRel_children es x y : edgeRel es x y <-> y ∈ children es x.
Proof.
  unfold edgeRel, children. rewrite list_elem_of_fmap. split.
  - intros (e & He & Hs & Ht). exists e. split; [done|].
    by apply list_elem_of_filter.
  - intros (e & -> & He). apply list_elem_of_filter in He as [Hs He]. eauto.
Qed.

Lemma children_cons es e x :
  children (e :: es) x
  = if String.eqb (edge_source e) x
    then edge_target e :: children es x else children es x.
Proof.
  unfold children. destruct (String.eqb_spec (edge_source e) x) as [Heq|Hne].
  - by rewrite filter_cons_True.
  - by rewrite filter_cons_False.
Qed.

Lemma visitGuarded_spec : visitSpec visitGuarded.
Proof.
  split.
  - intros cur acc e Hne. unfold visitGuarded.
    by rewrite (proj2 (String.eqb_neq _ _) Hne).
  - intros cur acc e y Heq. unfold visitGuarded.
    rewrite (proj2 (String.eqb_eq _ _) Heq).
    destruct (JSSet.has acc.1 (edge_target e)) eqn:Hhas; simpl.
    + apply JSSet_has_true in Hhas. split; [by left|]. by intros [?| ->].
    + apply JSSet_elem_of_add.
  - intros cur acc e Heq. unfold visitGuarded.
    rewrite (proj2 (String.eqb_eq _ _) Heq).
    destruct (JSSet.has acc.1 (edge_target e)) eqn:Hhas; simpl.
    + right. split; [done|]. by apply JSSet_has_true.
    + by left.
Qed.

Lemma visitAll_spec : visitSpec visitAll.
Proof.
  split.
  - intros cur acc e Hne. unfold visitAll.
    by rewrite (proj2 (String.eqb_neq _ _) Hne).
  - intros cur acc e y Heq. unfold visitAll.
    rewrite (proj2 (String.eqb_eq _ _) Heq). simpl. apply JSSet_elem_of_add.
  - intros cur acc e Heq. unfold visitAll.
    rewrite (proj2 (String.eqb_eq _ _) Heq). simpl. by left.
Qed.

Section Generic.

Variable visit : string -> JSSet.t * list string -> Edge -> JSSet.t * list string.
Hypothesis Hvisit : visitSpec visit.

(** One pass of [edges.forEach] for the current node. *)
Lemma scan_seen cur es acc y :
  y ∈ (foldl (visit cur) acc es).1 <-> y ∈ acc.1 ∨ y ∈ children es cur.
Proof.
  revert acc. induction es as [|e es IH]; intros acc; simpl.
  - unfold children. rewrite filter_nil. simpl. rewrite elem_of_nil. tauto.
  - rewrite IH, children_cons.
    destruct (String.eqb_spec (edge_source e) cur) as [Heq|Hne].
    + rewrite (vs_seen _ Hvisit) by done. rewrite elem_of_cons. tauto.
    + by rewrite (vs_other _ Hvisit).
Qed.

Lemma scan_queue cur es acc :
  ∃ new, (foldl (visit cur) acc es).2 = acc.2 ++ new
         ∧ (∀ y, y ∈ new -> y ∈ children es cur)
         ∧ (∀ y, y ∈ children es cur -> y ∈ acc.1 ∨ y ∈ new).
Proof.
  revert acc. induction es as [|e es IH]; intros acc; simpl.
  - exists []. rewrite app_nil_r. split; [done|].
    unfold children. rewrite filter_nil. simpl. split; intros y Hy; by inversion Hy.
  - destruct (IH (visit cur acc e)) as (new & Hq & Hnew & Hall).
    rewrite children_cons.
    destruct (String.eqb_spec (edge_source e) cur) as [Heq|Hne].
    + destruct (vs_queue _ Hvisit cur acc e Heq) as [Hpush | [Hsame Hin]].
      * exists (edge_target e :: new). rewrite Hq, Hpush, <- app_assoc.
        split; [done|]. split.
        -- intros y [->|Hy]%elem_of_cons; [by left|]. right. by apply Hnew.
        -- intros y [->|Hy]%elem_of_cons.
           ++ right. by left.
           ++ destruct (Hall y Hy) as [Hs|Hn].
              ** apply (vs_seen _ Hvisit _ _ _ _ Heq) in Hs as [Hs| ->];
                   [by left|]. right. by left.
              ** right. by right.
      * exists new. rewrite Hq, Hsame. split; [done|]. split.
        -- intros y Hy. right. by apply Hnew.
        -- intros y [->|Hy]%elem_of_cons; [by left|].
           destruct (Hall y Hy) as [Hs|Hn]; [|by right].
           apply (vs_seen _ Hvisit _ _ _ _ Heq) in Hs as [Hs| ->]; by left.
    + rewrite (vs_other _ Hvisit) in Hq, Hall by done.
      rewrite (vs_other _ Hvisit) by done.
      exists new. split; [done|]. by split.
Qed.

(** The set only grows. *)
Lemma drainQueue_mono fuel es queue seen res :
  drainQueue visit fuel es queue seen = Some res -> ∀ y, y ∈ seen -> y ∈ res.
Proof.
  revert queue seen. induction fuel as [|fuel IH]; intros queue seen;
    destruct queue as [|cur rest]; simpl; try done.
  - by intros [= ->].
  - by intros [= ->].
  - intros Hres y Hy. apply (IH _ _ Hres). apply scan_seen. by left.
Qed.

(** Everything collected was there before or descends from the queue. *)
Lemma drainQueue_sound fuel es queue seen res :
  drainQueue visit fuel es queue seen = Some res ->
  ∀ y, y ∈ res -> y ∈ seen ∨ ∃ x, x ∈ queue ∧ descendant es x y.
Proof.
  revert queue seen. induction fuel as [|fuel IH]; intros queue seen;
    destruct queue as [|cur rest]; simpl; try done.
  - intros [= ->]. by left.
  - intros [= ->]. by left.
  - intros Hres y Hy.
    destruct (scan_queue cur es (seen, rest)) as (new & Hq & Hnew & _).
    simpl in Hq.
    destruct (IH _ _ Hres y Hy) as [Hs | (x & Hx & Hdesc)].
    + apply scan_seen in Hs as [Hs|Hc]; [by left|]. right.
      exists cur. split; [by left|]. apply tc_once. by apply edgeRel_children.
    + right. rewrite Hq in Hx. apply elem_of_app in Hx as [Hx|Hx].
      * exists x. split; [by right|done].
      * exists cur. split; [by left|].
        eapply tc_l; [|exact Hdesc]. apply edgeRel_children. by apply Hnew.
Qed.

(** Once the queue is empty the collected set is closed under edges. *)
Lemma drainQueue_closed fuel es queue seen res (P : string -> Prop) :
  drainQueue visit fuel es queue seen = Some res ->
  (∀ x, P x -> x ∈ queue ∨ ∀ y, edgeRel es x y -> y ∈ seen) ->
  (∀ x, x ∈ seen -> P x) ->
  (∀ x, x ∈ queue -> P x) ->
  ∀ x, P x ∨ x ∈ res -> ∀ y, edgeRel es x y -> y ∈ res.
Proof.
  revert queue seen P. induction fuel as [|fuel IH]; intros queue seen P;
    destruct queue as [|cur rest]; simpl; try done.
  - intros [= ->] Hpre Hseen _ x [Hx|Hx] y Hxy.
    + destruct (Hpre x Hx) as [Hq|Hc]; [by inversion Hq|by apply Hc].
    + destruct (Hpre x (Hseen x Hx)) as [Hq|Hc]; [by inversion Hq|by apply Hc].
  - intros [= ->] Hpre Hseen _ x [Hx|Hx] y Hxy.
    + destruct (Hpre x Hx) as [Hq|Hc]; [by inversion Hq|by apply Hc].
    + destruct (Hpre x (Hseen x Hx)) as [Hq|Hc]; [by inversion Hq|by apply Hc].
  - intros Hres Hpre Hseen Hqueue x Hx y Hxy.
    destruct (scan_queue cur es (seen, rest)) as (new & Hq & Hnew & Hall).
    simpl in Hq, Hall.
    set (acc := foldl (visit cur) (seen, rest) es) in *.
    apply (IH _ _ (fun x => P x ∨ x ∈ acc.1) Hres) with (x := x); [| | | |done].
    + intros z [Hz|Hz].
      * destruct (Hpre z Hz) as [[->|Hin]%elem_of_cons | Hc].
        -- right. intros w Hw. apply scan_seen. right.
           by apply edgeRel_children.
        -- left. rewrite Hq. apply elem_of_app. by left.
        -- right. intros w Hw. apply scan_seen. left. by apply Hc.
      * apply scan_seen in Hz as [Hz|Hz].
        -- destruct (Hpre z (Hseen z Hz)) as [[->|Hin]%elem_of_cons | Hc].
           ++ right. intros w Hw. apply scan_seen. right.
              by apply edgeRel_children.
           ++ left. rewrite Hq. apply elem_of_app. by left.
           ++ right. intros w Hw. apply scan_seen. left. by apply Hc.
        -- destruct (Hall z Hz) as [Hs|Hn].
           ++ destruct (Hpre z (Hseen z Hs)) as [[->|Hin]%elem_of_cons | Hc].
              ** right. intros w Hw. apply scan_seen. right.
                 by apply edgeRel_children.
              ** left. rewrite Hq. apply elem_of_app. by left.
              ** right. intros w Hw. apply scan_seen. left. by apply Hc.
           ++ left. rewrite Hq. apply elem_of_app. by right.
    + intros z Hz. by right.
    + intros z Hz. rewrite Hq in Hz. apply elem_of_app in Hz as [Hz|Hz].
      * left. apply Hqueue. by right.
      * right. apply scan_seen. right. by apply Hnew.
    + destruct Hx as [Hx|Hx]; [left; by left|by right].
Qed.

(** Every strict descendant of a queued node is collected. *)
Lemma drainQueue_complete fuel es queue seen res :
  drainQueue visit fuel es queue seen = Some res ->
  (∀ x, x ∈ seen -> x ∈ queue ∨ ∀ y, edgeRel es x y -> y ∈ seen) ->
  ∀ x y, x ∈ queue -> descendant es x y -> y ∈ res.
Proof.
  intros Hres Hpre x y Hx Hdesc.
  assert (Hclosed : ∀ x, (x ∈ queue ∨ x ∈ seen) ∨ x ∈ res ->
                         ∀ y, edgeRel es x y -> y ∈ res).
  { apply (drainQueue_closed _ _ _ _ _ _ Hres).
    - intros z [Hz|Hz]; [by left|by apply Hpre].
    - intros z Hz. by right.
    - intros z Hz. by left. }
  assert (Hgen : ∀ x y, descendant es x y ->
                        (x ∈ queue ∨ x ∈ seen) ∨ x ∈ res -> y ∈ res).
  { clear x y Hx Hdesc. intros x y Hdesc.
    induction Hdesc as [x y Hxy | x z y Hxz _ IH]; intros Hx.
    - by apply (Hclosed x).
    - apply IH. right. by apply (Hclosed x). }
  apply (Hgen x y Hdesc). left. by left.
Qed.

End Generic.

End Search.

(** ** Descendant searches: termination *)

Section Termination.
Import Graph Mutator.

Implicit Types (es : list Edge) (queue seen : list string).

Lemma drainQueue_step visit fuel es cur rest seen :
  drainQueue visit (S fuel) es (cur :: rest) seen
  = drainQueue visit fuel es
      (foldl (visit cur) (seen, rest) es).2
      (foldl (visit cur) (seen, rest) es).1.
Proof. done. Qed.

Lemma drainQueue_more_fuel visit fuel fuel' es queue seen res :
  drainQueue visit fuel es queue seen = Some res ->
  fuel ≤ fuel' ->
  drainQueue visit fuel' es queue seen = Some res.
Proof.
  revert fuel' queue seen.
  induction fuel as [|fuel IH]; intros fuel' queue seen;
    destruct queue as [|cur rest]; simpl; try done.
  - intros [= ->] _. by destruct fuel'.
  - intros [= ->] _. by destruct fuel'.
  - intros Hres Hle. destruct fuel' as [|fuel']; [lia|]. simpl.
    apply IH; [done|lia].
Qed.

(** *** The guarded searches always finish *)

Lemma unseenEdges_le es seen : unseenEdges es seen ≤ length es.
Proof. apply length_filter. Qed.

Lemma unseenEdges_add es seen e :
  e ∈ es -> edge_target e ∉ seen ->
  unseenEdges es (JSSet.add seen (edge_target e)) < unseenEdges es seen.
Proof.
  intros He Hnew. unfold unseenEdges.
  set (P := fun e' : Edge => edge_target e' ∉ seen).
  set (P' := fun e' : Edge => edge_target e' ∉ JSSet.add seen (edge_target e)).
  assert (Heq : filter P' es = filter P' (filter P es)).
  { rewrite list_filter_filter. apply list_filter_iff. intros e'.
    unfold P, P'. rewrite JSSet_elem_of_add. tauto. }
  rewrite Heq. apply (length_filter_lt _ _ e).
  - by apply list_elem_of_filter.
  - unfold P'. rewrite JSSet_elem_of_add. tauto.
Qed.

Lemma scanGuarded_potential es0 cur es acc :
  (∀ e, e ∈ es -> e ∈ es0) ->
  length (foldl (visitGuarded cur) acc es).2
  + unseenEdges es0 (foldl (visitGuarded cur) acc es).1
  ≤ length acc.2 + unseenEdges es0 acc.1.
Proof.
  revert acc. induction es as [|e es IH]; intros acc Hsub; simpl; [done|].
  etrans; [apply IH; intros e' He'; apply Hsub; by right|].
  unfold visitGuarded.
  destruct (String.eqb (edge_source e) cur); [|done].
  destruct (JSSet.has acc.1 (edge_target e)) eqn:Hhas; [done|]. simpl.
  apply JSSet_has_false in Hhas.
  pose proof (unseenEdges_add es0 acc.1 e (Hsub e ltac:(by left)) Hhas).
  rewrite length_app. simpl. lia.
Qed.

Lemma collectGuarded_potential fuel es queue seen :
  length queue + unseenEdges es seen ≤ fuel ->
  is_Some (collectGuarded fuel es queue seen).
Proof.
  unfold collectGuarded. revert queue seen.
  induction fuel as [|fuel IH]; intros queue seen;
    destruct queue as [|cur rest]; simpl; intros Hle; try done.
  - lia.
  - apply IH.
    pose proof (scanGuarded_potential es cur es (seen, rest) (fun _ H => H)).
    simpl in *. lia.
Qed.

Lemma collectGuarded_total fuel es queue seen :
  length queue + length es ≤ fuel ->
  is_Some (collectGuarded fuel es queue seen).
Proof.
  intros Hle. apply collectGuarded_potential.
  pose proof (unseenEdges_le es seen). lia.
Qed.

(** *** The unguarded search finishes on acyclic edges *)

Lemma scanAll_children cur es acc :
  foldl (visitAll cur) acc es
  = (foldl JSSet.add acc.1 (children es cur), acc.2 ++ children es cur).
Proof.
  revert acc. induction es as [|e es IH]; intros [seen queue]; simpl.
  - unfold children. rewrite filter_nil. simpl. by rewrite app_nil_r.
  - rewrite IH, children_cons. unfold visitAll.
    destruct (String.eqb (edge_source e) cur); simpl; [|done].
    by rewrite <- app_assoc.
Qed.

Lemma cost_app es a b n m :
  cost es a n -> cost es b m -> cost es (a ++ b) (n + m).
Proof.
  induction 1 as [|x queue n1 n2 Hx _ Hq IH]; intros Hb; simpl; [done|].
  replace (S (n1 + n2 + m)) with (S (n1 + (n2 + m))) by lia.
  constructor; [done|by apply IH].
Qed.

Lemma collectAll_cost es fuel queue seen n :
  cost es queue n -> n ≤ fuel -> is_Some (collectAll fuel es queue seen).
Proof.
  unfold collectAll. revert queue seen n.
  induction fuel as [|fuel IH]; intros queue seen n Hcost Hle;
    destruct Hcost as [|x queue n1 n2 Hx Hq]; simpl; try done; try lia.
  rewrite scanAll_children. simpl.
  apply (IH _ _ (n2 + n1)); [by apply cost_app|lia].
Qed.

Lemma finite_acyclic_Acc {A} (R : relation A) (dom : list A) :
  (∀ x y, R y x -> x ∈ dom) ->
  (∀ x, ¬ tc R x x) ->
  ∀ x, Acc R x.
Proof.
  intros Hdom Hacyclic.
  assert (Hgen : ∀ k visited x,
             NoDup visited ->
             (∀ s, s ∈ visited -> s ∈ dom) ->
             (∀ s, s ∈ visited -> tc R x s) ->
             length dom ≤ k + length visited ->
             Acc R x).
  { induction k as [|k IH]; intros visited x Hnd Hsub Hinv Hk;
      constructor; intros y Hyx.
    all: assert (Hnd' : NoDup (x :: visited))
      by (apply NoDup_cons; split; [intros Hin; by apply (Hacyclic x), Hinv|done]).
    all: assert (Hsub' : ∀ s, s ∈ x :: visited -> s ∈ dom)
      by (intros s [->|Hs]%elem_of_cons; [by apply (Hdom x y)|by apply Hsub]).
    - pose proof (submseteq_length _ _ (NoDup_submseteq _ _ Hnd' Hsub')) as Hlen.
      simpl in Hlen. lia.
    - apply (IH (x :: visited)); [done|done| |simpl; lia].
      intros s [->|Hs]%elem_of_cons; [by apply tc_once|].
      eapply tc_l; [exact Hyx|by apply Hinv]. }
  intros x. apply (Hgen (length dom) [] x).
  - constructor.
  - intros s Hs. by inversion Hs.
  - intros s Hs. by inversion Hs.
  - lia.
Qed.

Lemma tc_flip {A} (R : relation A) x y : tc (flip R) x y -> tc R y x.
Proof.
  induction 1 as [x y Hxy | x y z Hxy _ IH]; [by apply tc_once|].
  eapply tc_r; [exact IH|exact Hxy].
Qed.

(** Walking down the edges of an acyclic graph is well founded. *)
Lemma acyclic_Acc_down es :
  acyclic es -> ∀ x, Acc (flip (edgeRel es)) x.
Proof.
  intros Hacyclic.
  apply (finite_acyclic_Acc _ (edge_source <$> es)).
  - intros x y (e & He & Hs & _). rewrite <- Hs.
    by apply list_elem_of_fmap_2.
  - intros x Hx. apply (Hacyclic x). by apply tc_flip.
Qed.

(** Walking up the edges of an acyclic graph is well founded. *)
Lemma acyclic_Acc_up es :
  acyclic es -> ∀ x, Acc (edgeRel es) x.
Proof.
  intros Hacyclic.
  apply (finite_acyclic_Acc _ (edge_target <$> es)).
  - intros x y (e & He & _ & Ht). rewrite <- Ht.
    by apply list_elem_of_fmap_2.
  - exact Hacyclic.
Qed.

Lemma Acc_cost es x :
  Acc (flip (edgeRel es)) x -> ∃ n, cost es [x] n.
Proof.
  induction 1 as [x _ IH].
  assert (Hlist : ∀ l, (∀ y, y ∈ l -> y ∈ children es x) -> ∃ n, cost es l n).
  { induction l as [|y l IHl]; intros Hl.
    - exists 0. constructor.
    - destruct (IH y) as [ny Hy].
      { apply edgeRel_children, Hl. by left. }
      destruct IHl as [nl Hnl]; [intros z Hz; apply Hl; by right|].
      exists (ny + nl). by apply (cost_app es [y] l). }
  destruct (Hlist (children es x)) as [n Hn]; [done|].
  exists (S (n + 0)). constructor; [done|constructor].
Qed.

Lemma collectAll_terminates es nodeId seen :
  acyclic es ->
  ∃ fuel, ∀ fuel', fuel ≤ fuel' ->
    is_Some (collectAll fuel' es [nodeId] seen).
Proof.
  intros Hacyclic.
  destruct (Acc_cost es nodeId (acyclic_Acc_down es Hacyclic nodeId)) as [n Hn].
  exists n. intros fuel' Hle. by apply (collectAll_cost es fuel' _ _ n).
Qed.

End Termination.

(** ** Graph mutator: properties *)

Section MutatorFacts.
Import Graph Mutator.

Lemma acyclic_nil : acyclic [].
Proof.
  intros x Hx.
  assert (Hnone : ∀ a b, tc (edgeRel []) a b -> False).
  { induction 1 as [a b (e & He & _) | ]; [by inversion He|done]. }
  exact (Hnone _ _ Hx).
Qed.

(** A rank that grows along every edge rules out cycles. *)
Lemma acyclic_ranked (es : list Edge) (rank : string -> nat) :
  (∀ e, e ∈ es -> rank (edge_source e) < rank (edge_target e)) ->
  acyclic es.
Proof.
  intros Hrank x Hx.
  assert (Hlt : ∀ a b, descendant es a b -> rank a < rank b).
  { induction 1 as [a b (e & He & <- & <-) | a b c (e & He & <- & <-) _ IH].
    - by apply Hrank.
    - specialize (Hrank e He). lia. }
  specialize (Hlt x x Hx). lia.
Qed.

Lemma treeState_initial : treeState initial_state.
Proof.
  split; simpl.
  - apply NoDup_singleton.
  - by left.
  - by intros [=]%list_elem_of_singleton.
  - intros e He. by inversion He.
  - intros e He. by inversion He.
  - intros n Hn Hne. apply list_elem_of_singleton in Hn. done.
  - constructor.
  - apply acyclic_nil.
Qed.

Lemma keepNode_true rm node : keepNode rm node = true <-> node_id node ∉ rm.
Proof. unfold keepNode. by rewrite negb_true_iff, JSSet_has_false. Qed.

Lemma keepEdge_true rm edge :
  keepEdge rm edge = true
  <-> (edge_source edge ∉ rm) ∧ (edge_target edge ∉ rm).
Proof.
  unfold keepEdge. by rewrite andb_true_iff, !negb_true_iff, !JSSet_has_false.
Qed.

Lemma hasRoot_true ns : hasRoot ns = true <-> "root" ∈ ids ns.
Proof.
  unfold hasRoot, ids. rewrite existsb_exists. split.
  - intros (n & Hn & Heq%String.eqb_eq). rewrite <- Heq.
    apply list_elem_of_fmap_2. by apply list_elem_of_In.
  - intros (n & Heq & Hn)%list_elem_of_fmap. exists n.
    split; [by apply list_elem_of_In|]. by apply String.eqb_eq.
Qed.

Lemma markRemoval_length changes rm :
  length (foldl markRemoval rm changes) ≤ length rm + length changes.
Proof.
  revert rm. induction changes as [|c changes IH]; intros rm; simpl; [lia|].
  etrans; [apply IH|].
  assert (length (markRemoval rm c) ≤ S (length rm)); [|lia].
  destruct c; simpl; try lia.
  destruct (String.eqb id "root"); [lia|apply JSSet_add_length].
Qed.

Lemma markRemoval_elem_of changes rm y :
  y ∈ foldl markRemoval rm changes
  <-> y ∈ rm ∨ (NodeRemoveChange y ∈ changes ∧ y ≠ "root").
Proof.
  revert rm. induction changes as [|c changes IH]; intros rm; simpl.
  - split; [by left|]. intros [?|[Hin _]]; [done|by inversion Hin].
  - rewrite IH. split.
    + intros [Hy | [Hin Hne]].
      * destruct c; simpl in Hy; try by left.
        destruct (String.eqb_spec id "root") as [->|Hid]; [by left|].
        apply JSSet_elem_of_add in Hy as [Hy| ->]; [by left|].
        right. split; [by left|done].
      * right. split; [by right|done].
    + intros [Hy | [[<- | Hin]%elem_of_cons Hne]].
      * left. destruct c; simpl; try done.
        destruct (String.eqb id "root"); [done|].
        apply JSSet_elem_of_add. by left.
      * left. simpl. rewrite (proj2 (String.eqb_neq _ _) Hne).
        apply JSSet_elem_of_add. by right.
      * right. by split.
Qed.

(** The set collected by [deleteNodeAndDescendants]. *)
Lemma collectGuarded_subtree fuel es nodeId res :
  collectGuarded fuel es [nodeId] [nodeId] = Some res ->
  ∀ y, y ∈ res <-> y = nodeId ∨ descendant es nodeId y.
Proof.
  intros Hres y. split.
  - intros Hy.
    destruct (drainQueue_sound _ visitGuarded_spec _ _ _ _ _ Hres y Hy)
      as [->%list_elem_of_singleton | (x & ->%list_elem_of_singleton & Hd)];
      [by left|by right].
  - intros [-> | Hd].
    + apply (drainQueue_mono _ visitGuarded_spec _ _ _ _ _ Hres). by left.
    + apply (drainQueue_complete _ visitGuarded_spec _ _ _ _ _ Hres)
        with (x := nodeId); [|by left|done].
      intros x Hx. by left.
Qed.

(** The set collected by [onNodesChange] for the requested removals. *)
Lemma collectGuarded_descendants fuel es requested res :
  collectGuarded fuel es requested [] = Some res ->
  ∀ y, y ∈ res <-> ∃ x, x ∈ requested ∧ descendant es x y.
Proof.
  intros Hres y. split.
  - intros Hy.
    destruct (drainQueue_sound _ visitGuarded_spec _ _ _ _ _ Hres y Hy)
      as [Hnil | Hd]; [by inversion Hnil|done].
  - intros (x & Hx & Hd).
    apply (drainQueue_complete _ visitGuarded_spec _ _ _ _ _ Hres)
      with (x := x); [|done|done].
    intros z Hz. by inversion Hz.
Qed.

(** The set collected by [resetNode]. *)
Lemma collectAll_descendants fuel es nodeId res :
  collectAll fuel es [nodeId] [] = Some res ->
  ∀ y, y ∈ res <-> descendant es nodeId y.
Proof.
  intros Hres y. split.
  - intros Hy.
    destruct (drainQueue_sound _ visitAll_spec _ _ _ _ _ Hres y Hy)
      as [Hnil | (x & ->%list_elem_of_singleton & Hd)];
      [by inversion Hnil|done].
  - intros Hd.
    apply (drainQueue_complete _ visitAll_spec _ _ _ _ _ Hres)
      with (x := nodeId); [|by left|done].
    intros z Hz. by inversion Hz.
Qed.

(** What [onNodesChange] removes: the nodes named by a remove request,
    root excepted, and all their strict descendants; the remaining nodes
    go through the library, and root is put back if it went missing. *)
Lemma onNodesChange_spec
    (applyNodeChanges : list NodeChange -> list Node -> list Node)
    (st : ChatState) (changes : list NodeChange) (fuel : nat) :
  length changes + length (edges st) ≤ fuel ->
  ∃ nodesToRemove effects,
    (∀ y, y ∈ nodesToRemove
          <-> (NodeRemoveChange y ∈ changes ∧ y ≠ "root")
              ∨ ∃ x, (NodeRemoveChange x ∈ changes ∧ x ≠ "root")
                     ∧ descendant (edges st) x y)
    ∧ onNodesChange applyNodeChanges fuel st changes
      = Some (set_nodes_edges st
                (let applied :=
                   applyNodeChanges changes
                     (List.filter (keepNode nodesToRemove) (nodes st)) in
                 if hasRoot applied then applied else applied ++ [ROOT_NODE])
                (List.filter (keepEdge nodesToRemove) (edges st)),
              effects).
Proof.
  intros Hfuel. unfold onNodesChange.
  set (requested := foldl markRemoval JSSet.empty changes).
  assert (Hreq : ∀ y, y ∈ requested
                      <-> NodeRemoveChange y ∈ changes ∧ y ≠ "root").
  { intros y. unfold requested. rewrite markRemoval_elem_of.
    split; [|by right]. intros [Hnil|?]; [by inversion Hnil|done]. }
  destruct (Nat.ltb_spec 0 (JSSet.size requested)) as [Hsome|Hnone].
  - destruct (collectGuarded_total fuel (edges st) requested JSSet.empty)
      as [descendants Hres].
    { pose proof (markRemoval_length changes JSSet.empty) as Hlen.
      fold requested in Hlen. simpl in Hlen. lia. }
    rewrite Hres. eexists _, _. split; [|reflexivity].
    intros y. rewrite JSSet_elem_of_add_all, Hreq.
    rewrite (collectGuarded_descendants _ _ _ _ Hres).
    split; (intros [?|(x & Hx & Hd)]; [by left|right; exists x]);
      split; try done; by apply Hreq.
  - eexists _, _. split; [|reflexivity].
    intros y. rewrite Hreq. split; [by left|].
    intros [?|(x & Hx%Hreq & _)]; [done|].
    destruct requested; [by inversion Hx|simpl in Hnone; lia].
Qed.

End MutatorFacts.

Section MutatorClaims.
Import Graph Mutator.

Variable applyNodeChanges : list NodeChange -> list Node -> list Node.

(** C1. Root protection. Whatever the batch of changes, remove requests for
    root included, and whatever the library's [applyNodeChanges] makes of
    it, [onNodesChange] returns a node list that contains a node with id
    root; and [deleteNodeAndDescendants] on root hands back the very state
    it was given (nodes, edges, active node and active path). *)
Theorem root_is_protected
    (st : ChatState) (changes : list NodeChange) (fuel : nat) :
  length changes + length (edges st) ≤ fuel ->
  (∃ st' effects,
      onNodesChange applyNodeChanges fuel st changes = Some (st', effects)
      ∧ "root" ∈ ids (nodes st'))
  ∧ deleteNodeAndDescendants fuel st "root" = Some (st, [SaveToStorage]).
Proof.
  intros Hfuel. split; [|done].
  unfold onNodesChange.
  set (requested := foldl markRemoval JSSet.empty changes).
  assert (Hcollected :
    ∃ nodesToRemove effects,
      (if Nat.ltb 0 (JSSet.size requested)
       then match collectGuarded fuel (edges st) requested JSSet.empty with
            | Some descendants =>
                Some (foldl JSSet.add requested descendants,
                      deleteThreads st (foldl JSSet.add requested descendants))
            | None => None
            end
       else Some (requested, []))
      = Some (nodesToRemove, effects)).
  { destruct (Nat.ltb 0 (JSSet.size requested)); [|by eauto].
    destruct (collectGuarded_total fuel (edges st) requested JSSet.empty)
      as [descendants ->]; [|by eauto].
    pose proof (markRemoval_length changes JSSet.empty) as Hlen.
    fold requested in Hlen. simpl in Hlen. lia. }
  destruct Hcollected as (nodesToRemove & effects & ->).
  eexists _, _. split; [reflexivity|]. simpl.
  destruct (hasRoot _) eqn:Hroot.
  - by apply hasRoot_true.
  - unfold ids. rewrite map_app. apply elem_of_app. right. by left.
Qed.

(** C10. On acyclic edges the descendant search of [resetNode], which
    pushes every edge target without asking whether it was met before,
    empties its queue: some amount of fuel, and any larger one, makes
    [resetNode] return. *)
Theorem resetNode_terminates (st : ChatState) (nodeId : string) :
  acyclic (edges st) ->
  ∃ fuel, ∀ fuel', fuel ≤ fuel' -> is_Some (resetNode fuel' st nodeId).
Proof.
  intros Hacyclic.
  destruct (collectAll_terminates (edges st) nodeId JSSet.empty Hacyclic)
    as [fuel Hfuel].
  exists fuel. intros fuel' Hle. unfold resetNode.
  destruct (Hfuel fuel' Hle) as [res ->]. eauto.
Qed.

End MutatorClaims.

Section MutatorExamples.
Import Graph Mutator Examples.

Lemma acyclic_treeExample : acyclic (edges treeExample).
Proof.
  apply (acyclic_ranked _ treeRank). intros e He. simpl in He.
  repeat (apply elem_of_cons in He as [-> | He]; [vm_compute; lia|]).
  by inversion He.
Qed.

Lemma treeState_treeExample : treeState treeExample.
Proof.
  split.
  - apply (bool_decide_unpack _). by vm_compute.
  - apply (bool_decide_unpack _). by vm_compute.
  - apply (bool_decide_unpack _). by vm_compute.
  - intros e He. simpl in He.
    repeat (apply elem_of_cons in He as [-> | He];
            [split; apply (bool_decide_unpack _); by vm_compute|]).
    by inversion He.
  - intros e He. simpl in He.
    repeat (apply elem_of_cons in He as [-> | He]; [by vm_compute|]).
    by inversion He.
  - intros n Hn Hne. simpl in Hn.
    apply elem_of_cons in Hn as [-> | Hn]; [done|].
    apply elem_of_cons in Hn as [-> | Hn].
    { exists (arrow "root" "node-A"). split; [by repeat constructor|done]. }
    apply elem_of_cons in Hn as [-> | Hn].
    { exists (arrow "node-A" "node-B"). split; [by repeat constructor|done]. }
    apply elem_of_cons in Hn as [-> | Hn].
    { exists (arrow "root" "node-C"). split; [by repeat constructor|done]. }
    by inversion Hn.
  - apply (bool_decide_unpack _). by vm_compute.
  - apply acyclic_treeExample.
Qed.

Lemma root_is_protected_witness :
  length [NodeRemoveChange "root"; NodeRemoveChange "node-A"]
  + length (edges treeExample) ≤ 5
  ∧ (∃ st' effects,
        onNodesChange applyRemovals 5 treeExample
          [NodeRemoveChange "root"; NodeRemoveChange "node-A"]
        = Some (st', effects)
        ∧ "root" ∈ ids (nodes st'))
  ∧ deleteNodeAndDescendants 5 treeExample "root"
    = Some (treeExample, [SaveToStorage]).
Proof.
  split; [simpl; lia|].
  apply (root_is_protected applyRemovals treeExample
           [NodeRemoveChange "root"; NodeRemoveChange "node-A"] 5).
  simpl; lia.
Defined.

Example onNodesChange_treeExample :
  onNodesChange applyRemovals 5 treeExample
    [NodeRemoveChange "root"; NodeRemoveChange "node-A"]
  = Some (set_nodes_edges treeExample [nodeC; ROOT_NODE]
            [arrow "root" "node-C"],
          [DeleteThread "node-A"; DeleteThread "node-B"]).
Proof. by vm_compute. Qed.

Lemma resetNode_terminates_witness :
  acyclic (edges treeExample)
  ∧ ∃ fuel, ∀ fuel', fuel ≤ fuel' -> is_Some (resetNode fuel' treeExample "node-A").
Proof.
  split; [exact acyclic_treeExample|].
  exact (resetNode_terminates treeExample "node-A" acyclic_treeExample).
Defined.

Example resetNode_treeExample :
  resetNode 2 treeExample "node-A"
  = Some (set_nodes_edges treeExample
            [rootNode; chatNode "node-A" "New Chat" [] 250 300; nodeC]
            [arrow "root" "node-A"; arrow "root" "node-C"],
          [SaveToStorage]).
Proof. by vm_compute. Qed.

(** Without acyclicity the search of [resetNode] need not finish: on two
    nodes that point at each other no amount of fuel is enough. *)
Lemma resetNode_cycle_diverges fuel :
  resetNode fuel cycleExample "node-A" = None.
Proof.
  unfold resetNode.
  assert (Hloop : ∀ fuel seen,
            collectAll fuel (edges cycleExample) ["node-A"] seen = None
            ∧ collectAll fuel (edges cycleExample) ["node-B"] seen = None).
  { clear fuel.
    assert (HA : children (edges cycleExample) "node-A" = ["node-B"])
      by (by vm_compute).
    assert (HB : children (edges cycleExample) "node-B" = ["node-A"])
      by (by vm_compute).
    unfold collectAll in *.
    induction fuel as [|fuel IH]; intros seen; [done|].
    rewrite !drainQueue_step, !scanAll_children, HA, HB. simpl. split.
    - exact (proj2 (IH _)).
    - exact (proj1 (IH _)). }
  by rewrite (proj1 (Hloop fuel JSSet.empty)).
Qed.

End MutatorExamples.

Section Cascade.
Import Graph Mutator.

(** Cascade delete on any graph, for any node but root. *)
Lemma deleteNodeAndDescendants_spec (st : ChatState) (nodeId : string) (fuel : nat) :
  nodeId ≠ "root" ->
  S (length (edges st)) ≤ fuel ->
  ∃ st' effects,
    deleteNodeAndDescendants fuel st nodeId = Some (st', effects)
    ∧ (∀ node, node ∈ nodes st'
               <-> node ∈ nodes st
                   ∧ node_id node ≠ nodeId
                   ∧ ¬ descendant (edges st) nodeId (node_id node))
    ∧ (∀ e, e ∈ edges st'
            <-> e ∈ edges st
                ∧ (edge_source e ≠ nodeId
                   ∧ ¬ descendant (edges st) nodeId (edge_source e))
                ∧ (edge_target e ≠ nodeId
                   ∧ ¬ descendant (edges st) nodeId (edge_target e))).
Proof.
  intros Hne Hfuel. unfold deleteNodeAndDescendants.
  rewrite (proj2 (String.eqb_neq _ _) Hne).
  destruct (collectGuarded_total fuel (edges st) [nodeId] [nodeId])
    as [res Hres]; [simpl; lia|].
  rewrite Hres. eexists _, _. split; [reflexivity|]. simpl.
  pose proof (collectGuarded_subtree _ _ _ _ Hres) as Hin.
  split.
  - intros node. rewrite elem_of_bfilter, keepNode_true, Hin. tauto.
  - intros e. rewrite elem_of_bfilter, keepEdge_true, !Hin. tauto.
Qed.

(** Cascade reset on acyclic edges. *)
Lemma resetNode_spec (st : ChatState) (nodeId : string) :
  acyclic (edges st) ->
  ∃ fuel, ∀ fuel', fuel ≤ fuel' ->
    ∃ st' effects,
      resetNode fuel' st nodeId = Some (st', effects)
      ∧ (∀ node', node' ∈ nodes st'
                  <-> ∃ node, node ∈ nodes st
                              ∧ ¬ descendant (edges st) nodeId (node_id node)
                              ∧ node' = if decide (node_id node = nodeId)
                                        then clearedNode node else node)
      ∧ (∀ e, e ∈ edges st'
              <-> e ∈ edges st
                  ∧ ¬ descendant (edges st) nodeId (edge_source e)
                  ∧ ¬ descendant (edges st) nodeId (edge_target e)).
Proof.
  intros Hacyclic.
  destruct (collectAll_terminates (edges st) nodeId JSSet.empty Hacyclic)
    as [fuel Hfuel].
  exists fuel. intros fuel' Hle. unfold resetNode.
  destruct (Hfuel fuel' Hle) as [res Hres]. rewrite Hres.
  eexists _, _. split; [reflexivity|]. simpl.
  pose proof (collectAll_descendants _ _ _ _ Hres) as Hin.
  split.
  - intros node'. rewrite elem_of_bfilter, keepNode_true, Hin.
    rewrite list_elem_of_fmap. split.
    + intros ((node & -> & Hnode) & Hkeep). exists node.
      split; [done|]. split.
      * by destruct (String.eqb (node_id node) nodeId).
      * destruct (String.eqb_spec (node_id node) nodeId);
          by case_decide.
    + intros (node & Hnode & Hkeep & ->). split.
      * exists node. split; [|done].
        destruct (String.eqb_spec (node_id node) nodeId); by case_decide.
      * by case_decide.
  - intros e. rewrite elem_of_bfilter, andb_true_iff, !negb_true_iff,
      !JSSet_has_false, !Hin. tauto.
Qed.

(** C2, amended. In a tree state, for a node N: unless N is root,
    [deleteNodeAndDescendants] removes exactly N and the strict descendants
    of N, and exactly the edges with a removed end; [resetNode] removes
    exactly the strict descendants of N and the edges with a removed end,
    and keeps N with an empty history and the label "New Chat"; every
    other node and edge stays as it was. *)
Theorem cascade_is_exact (st : ChatState) (nodeId : string) :
  treeState st ->
  nodeId ∈ ids (nodes st) ->
  (nodeId ≠ "root" ->
   ∀ fuel, S (length (edges st)) ≤ fuel ->
     ∃ st' effects,
       deleteNodeAndDescendants fuel st nodeId = Some (st', effects)
       ∧ (∀ node, node ∈ nodes st'
                  <-> node ∈ nodes st
                      ∧ node_id node ≠ nodeId
                      ∧ ¬ descendant (edges st) nodeId (node_id node))
       ∧ (∀ e, e ∈ edges st'
               <-> e ∈ edges st
                   ∧ (edge_source e ≠ nodeId
                      ∧ ¬ descendant (edges st) nodeId (edge_source e))
                   ∧ (edge_target e ≠ nodeId
                      ∧ ¬ descendant (edges st) nodeId (edge_target e))))
  ∧ (∃ fuel, ∀ fuel', fuel ≤ fuel' ->
       ∃ st' effects,
         resetNode fuel' st nodeId = Some (st', effects)
         ∧ (∀ node, node ∈ nodes st -> node_id node = nodeId ->
              {| node_id := nodeId;
                 node_type := node_type node;
                 node_data := {| label := "New Chat"; chatHistory := [] |};
                 node_position := node_position node |} ∈ nodes st')
         ∧ (∀ node', node' ∈ nodes st'
                     <-> ∃ node, node ∈ nodes st
                                 ∧ ¬ descendant (edges st) nodeId (node_id node)
                                 ∧ node' = if decide (node_id node = nodeId)
                                           then clearedNode node else node)
         ∧ (∀ e, e ∈ edges st'
                 <-> e ∈ edges st
                     ∧ ¬ descendant (edges st) nodeId (edge_source e)
                     ∧ ¬ descendant (edges st) nodeId (edge_target e))).
Proof.
  intros Htree _. split.
  - intros Hne fuel Hfuel. by apply deleteNodeAndDescendants_spec.
  - destruct (resetNode_spec st nodeId (ts_acyclic _ Htree)) as [fuel Hspec].
    exists fuel. intros fuel' Hle.
    destruct (Hspec fuel' Hle) as (st' & effects & Hres & Hnodes & Hedges).
    exists st', effects. split; [done|]. split; [|by split].
    intros node Hnode Hid. apply Hnodes. exists node. split; [done|]. split.
    + rewrite Hid. apply (ts_acyclic _ Htree).
    + rewrite decide_True by done. unfold clearedNode. by rewrite Hid.
Qed.

End Cascade.

Section CascadeExamples.
Import Graph Mutator Examples.

Example deleteNodeAndDescendants_treeExample :
  deleteNodeAndDescendants 4 treeExample "node-A"
  = Some (set_nodes_edges treeExample [rootNode; nodeC] [arrow "root" "node-C"],
          [DeleteThread "node-A"; DeleteThread "node-B"; SaveToStorage]).
Proof. by vm_compute. Qed.

Lemma cascade_is_exact_witness :
  treeState treeExample
  ∧ "node-A" ∈ ids (nodes treeExample)
  ∧ "node-A" ≠ "root"
  ∧ S (length (edges treeExample)) ≤ 4
  ∧ ∃ st' effects,
      deleteNodeAndDescendants 4 treeExample "node-A" = Some (st', effects)
      ∧ (∀ node, node ∈ nodes st'
                 <-> node ∈ nodes treeExample
                     ∧ node_id node ≠ "node-A"
                     ∧ ¬ descendant (edges treeExample) "node-A" (node_id node)).
Proof.
  assert (Hin : "node-A" ∈ ids (nodes treeExample))
    by (apply (bool_decide_unpack _); by vm_compute).
  split; [exact treeState_treeExample|].
  split; [exact Hin|].
  split; [done|].
  split; [simpl; lia|].
  destruct (proj1 (cascade_is_exact treeExample "node-A"
                     treeState_treeExample Hin)
              ltac:(done) 4 ltac:(simpl; lia))
    as (st' & effects & Hres & Hnodes & _).
  by exists st', effects.
Defined.

(** C2 as stated fails at root: the delete is refused, so root, which is
    the node itself, is still there afterwards. *)
Lemma delete_removes_subtree_counterexample : ¬ Stated.delete_removes_subtree.
Proof.
  intros Hclaim.
  assert (Hroot : "root" ∈ ids (nodes initial_state)) by (by left).
  pose proof (Hclaim initial_state initial_state "root" 0 [SaveToStorage]
                treeState_initial Hroot eq_refl ROOT_NODE) as Hiff.
  destruct (proj1 Hiff) as (_ & Hne & _); [by left|].
  by apply Hne.
Qed.

End CascadeExamples.

(** ** The tree invariant survives a cascade *)

Section Prune.
Import Graph Mutator.

Lemma bfilter_sublist {A} (f : A -> bool) (l : list A) :
  List.filter f l `sublist_of` l.
Proof.
  induction l as [|a l IH]; simpl; [done|].
  destruct (f a); by constructor.
Qed.

Lemma descendant_closed es x y z :
  edgeRel es y z -> y = x ∨ descendant es x y -> z = x ∨ descendant es x z.
Proof.
  intros Hyz [-> | Hxy]; right; [by apply tc_once|by eapply tc_r].
Qed.

Lemma tree_root_no_ancestor (st : ChatState) x :
  treeState st -> ¬ descendant (edges st) x "root".
Proof.
  intros Htree Hx.
  assert (Hlast : ∀ a b, descendant (edges st) a b ->
                         ∃ e, e ∈ edges st ∧ edge_target e = b).
  { induction 1 as [a b (e & He & _ & Ht) | a b c _ _ IH]; [by exists e|done]. }
  destruct (Hlast _ _ Hx) as (e & He & Ht).
  by apply (ts_entry _ Htree e He).
Qed.

Variable st : ChatState.
Variable removed : string -> Prop.
Variable ns' : list Node.
Variable es' : list Edge.
Hypothesis Htree : treeState st.
Hypothesis Hclosed : ∀ x y, edgeRel (edges st) x y -> removed x -> removed y.
Hypothesis Hroot : ¬ removed "root".
Hypothesis Hnodes_sub : ids ns' `sublist_of` ids (nodes st).
Hypothesis Hnodes : ∀ x, x ∈ ids ns' <-> x ∈ ids (nodes st) ∧ ¬ removed x.
Hypothesis Hedges_sub : es' `sublist_of` edges st.
Hypothesis Hedges : ∀ e, e ∈ es'
    <-> e ∈ edges st ∧ ¬ removed (edge_source e) ∧ ¬ removed (edge_target e).

Lemma prune_descendant x y :
  descendant es' x y -> descendant (edges st) x y.
Proof.
  induction 1 as [x y (e & He & Hs & Ht) | x z y (e & He & Hs & Ht) _ IH].
  - apply tc_once. exists e. split; [by apply Hedges|done].
  - eapply tc_l; [|exact IH]. exists e. split; [by apply Hedges|done].
Qed.

Lemma treeState_prune : treeState (set_nodes_edges st ns' es').
Proof.
  split; simpl.
  - eapply sublist_NoDup; [apply (ts_nodup _ Htree)|done].
  - apply Hnodes. split; [apply (ts_root _ Htree)|done].
  - intros [Hin _]%Hnodes. by apply (ts_nonempty _ Htree).
  - intros e (He & Hs & Ht)%Hedges.
    destruct (ts_closed _ Htree e He) as [Hsin Htin].
    split; by apply Hnodes.
  - intros e (He & _)%Hedges. by apply (ts_entry _ Htree).
  - intros n [Hn Hkept]%Hnodes Hne.
    destruct (ts_parent _ Htree n Hn Hne) as (e & He & Ht).
    exists e. split; [|done]. apply Hedges. split; [done|].
    split; [|by rewrite Ht].
    intros Hs. apply Hkept. apply (Hclosed (edge_source e)); [|done].
    by exists e.
  - eapply sublist_NoDup; [apply (ts_one_parent _ Htree)|].
    by apply fmap_sublist.
  - intros x Hx. apply (ts_acyclic _ Htree x). by apply prune_descendant.
Qed.

End Prune.

Section CascadeKeepsTree.
Import Graph Mutator.

Lemma ids_bfilter (f : Node -> bool) (ns : list Node) :
  ids (List.filter f ns) `sublist_of` ids ns.
Proof. unfold ids. apply (fmap_sublist node_id), bfilter_sublist. Qed.

Lemma deleteNodeAndDescendants_treeState
    (st st' : ChatState) (nodeId : string) (fuel : nat) (effects : list Effect) :
  treeState st ->
  deleteNodeAndDescendants fuel st nodeId = Some (st', effects) ->
  treeState st'.
Proof.
  intros Htree. unfold deleteNodeAndDescendants.
  destruct (String.eqb_spec nodeId "root") as [->|Hne]; [by intros [= <- _]|].
  destruct (collectGuarded fuel (edges st) [nodeId] [nodeId]) as [res|] eqn:Hres;
    [|done].
  intros [= <- _].
  pose proof (collectGuarded_subtree _ _ _ _ Hres) as Hin.
  apply (treeState_prune st (fun x => x ∈ res)); try done.
  - intros x y Hxy Hx. apply Hin. apply Hin in Hx.
    by apply (descendant_closed _ nodeId x).
  - intros [Heq | Hdesc]%Hin; [done|].
    by apply (tree_root_no_ancestor st nodeId).
  - apply ids_bfilter.
  - intros x. unfold ids. rewrite !list_elem_of_fmap. split.
    + intros (n & -> & [Hn Hkeep%keepNode_true]%elem_of_bfilter). eauto.
    + intros ((n & -> & Hn) & Hkeep). exists n. split; [done|].
      apply elem_of_bfilter. split; [done|]. by apply keepNode_true.
  - apply bfilter_sublist.
  - intros e. by rewrite elem_of_bfilter, keepEdge_true.
Qed.

Lemma resetNode_treeState
    (st st' : ChatState) (nodeId : string) (fuel : nat) (effects : list Effect) :
  treeState st ->
  resetNode fuel st nodeId = Some (st', effects) ->
  treeState st'.
Proof.
  intros Htree. unfold resetNode.
  destruct (collectAll fuel (edges st) [nodeId] JSSet.empty) as [res|] eqn:Hres;
    [|done].
  intros [= <- _].
  pose proof (collectAll_descendants _ _ _ _ Hres) as Hin.
  set (clear := fun node : Node =>
                  if String.eqb (node_id node) nodeId
                  then clearedNode node else node).
  assert (Hids : ids (map clear (nodes st)) = ids (nodes st)).
  { unfold ids. rewrite map_map. apply map_ext. intros n. unfold clear.
    by destruct (String.eqb (node_id n) nodeId). }
  apply (treeState_prune st (fun x => x ∈ res)); try done.
  - intros x y Hxy Hx. apply Hin. apply Hin in Hx. by eapply tc_r.
  - intros Hdesc%Hin. by apply (tree_root_no_ancestor st nodeId).
  - rewrite <- Hids. apply ids_bfilter.
  - intros x. rewrite <- Hids. unfold ids. rewrite !list_elem_of_fmap. split.
    + intros (n & -> & [Hn Hkeep%keepNode_true]%elem_of_bfilter). eauto.
    + intros ((n & -> & Hn) & Hkeep). exists n. split; [done|].
      apply elem_of_bfilter. split; [done|]. by apply keepNode_true.
  - apply bfilter_sublist.
  - intros e. rewrite elem_of_bfilter, andb_true_iff, !negb_true_iff,
      !JSSet_has_false. tauto.
Qed.

End CascadeKeepsTree.

(** ** Path resolver: properties *)

Section PathFacts.
Import Graph PathResolver.

Implicit Types (es : list Edge) (incoming : gmap string string).

Lemma incomingMap_snoc es e :
  incomingMap (es ++ [e]) = <[edge_target e := edge_source e]> (incomingMap es).
Proof. unfold incomingMap. by rewrite foldl_snoc. Qed.

(** The map keeps, for each target, the source of the last edge into it. *)
Lemma incomingMap_lookup es t :
  incomingMap es !! t
  = edge_source <$> last (filter (fun e => edge_target e = t) es).
Proof.
  induction es as [|e es IH] using rev_ind; [done|].
  rewrite incomingMap_snoc, filter_app.
  destruct (decide (edge_target e = t)) as [Heq|Hne].
  - rewrite filter_cons_True, filter_nil by done.
    rewrite last_snoc, Heq. simpl. apply lookup_insert_eq.
  - rewrite filter_cons_False, filter_nil, app_nil_r by done.
    by rewrite lookup_insert_ne.
Qed.

Lemma incomingMap_Some es t s :
  incomingMap es !! t = Some s -> edgeRel es s t.
Proof.
  rewrite incomingMap_lookup. intros Hlast.
  destruct (last _) as [e|] eqn:He; [|done]. injection Hlast as <-.
  apply last_Some_elem_of, list_elem_of_filter in He as [Ht He].
  by exists e.
Qed.

Lemma incomingMap_None es t :
  incomingMap es !! t = None <-> ∀ e, e ∈ es -> edge_target e ≠ t.
Proof.
  rewrite incomingMap_lookup, fmap_None, last_None. split.
  - intros Hnil e He Ht. apply (filter_nil_not_elem_of _ _ e Hnil); done.
  - intros Hno. apply elem_of_nil_inv. intros e [Ht He]%list_elem_of_filter.
    by apply (Hno e).
Qed.

Lemma incomingMap_unique es t s :
  edgeRel es s t ->
  (∀ e, e ∈ es -> edge_target e = t -> edge_source e = s) ->
  incomingMap es !! t = Some s.
Proof.
  intros (e0 & He0 & Hs0 & Ht0) Huniq.
  destruct (incomingMap es !! t) as [s'|] eqn:Hlook.
  - apply incomingMap_Some in Hlook as (e & He & <- & Ht).
    f_equal. by apply Huniq.
  - exfalso. by apply (proj1 (incomingMap_None es t) Hlook e0).
Qed.

Lemma walkUp_stop fuel incoming cur path :
  truthy cur = false -> walkUp fuel incoming cur path = Some path.
Proof. intros Hcur. destruct fuel; simpl; by rewrite Hcur. Qed.

Lemma walkUp_no_fuel incoming c path :
  truthy (Some c) = true -> walkUp 0 incoming (Some c) path = None.
Proof.
  intros Hc.
  change (walkUp 0 incoming (Some c) path)
    with (if truthy (Some c) then @None (list string) else Some path).
  by rewrite Hc.
Qed.

Lemma walkUp_step fuel incoming c path :
  truthy (Some c) = true ->
  walkUp (S fuel) incoming (Some c) path
  = walkUp fuel incoming (incoming !! c) (c :: path).
Proof.
  intros Hc.
  change (walkUp (S fuel) incoming (Some c) path)
    with (if truthy (Some c)
          then walkUp fuel incoming (incoming !! c) (c :: path)
          else Some path).
  by rewrite Hc.
Qed.

Lemma walkUp_more_fuel fuel fuel' incoming cur path res :
  walkUp fuel incoming cur path = Some res ->
  fuel ≤ fuel' ->
  walkUp fuel' incoming cur path = Some res.
Proof.
  revert fuel' cur path. induction fuel as [|fuel IH]; intros fuel' cur path.
  - destruct (truthy cur) eqn:Hcur.
    + destruct cur as [c|]; [|done]. by rewrite walkUp_no_fuel.
    + rewrite !walkUp_stop by done. done.
  - destruct (truthy cur) eqn:Hcur.
    + destruct cur as [c|]; [|done]. rewrite walkUp_step by done.
      intros Hres Hle. destruct fuel' as [|fuel']; [lia|].
      rewrite walkUp_step by done. apply IH; [done|lia].
    + rewrite !walkUp_stop by done. done.
Qed.

(** What the loop returns is the ancestry of the start, put in front of
    the path it was given. *)
Lemma walkUp_ancestry fuel incoming c path res :
  truthy (Some c) = true ->
  walkUp fuel incoming (Some c) path = Some res ->
  ∃ l, ancestry incoming c l ∧ res = l ++ path.
Proof.
  revert c path. induction fuel as [|fuel IH]; intros c path Hc.
  - by rewrite walkUp_no_fuel.
  - rewrite walkUp_step by done.
    destruct (truthy (incoming !! c)) eqn:Hp.
    + destruct (incoming !! c) as [p|] eqn:Hlook; [|done].
      intros Hres. destruct (IH p (c :: path) Hp Hres) as (l & Hl & ->).
      exists (l ++ [c]). split; [by eapply ancestry_step|].
      by rewrite <- app_assoc.
    + rewrite walkUp_stop by done. intros [= <-].
      exists [c]. split; [by apply ancestry_top|done].
Qed.

(** Climbing is well founded as soon as walking up the edges is. *)
Lemma walkUp_terminates es c :
  Acc (edgeRel es) c ->
  ∃ fuel, ∀ fuel' path, fuel ≤ fuel' ->
    is_Some (walkUp fuel' (incomingMap es) (Some c) path).
Proof.
  induction 1 as [c _ IH].
  destruct (truthy (Some c)) eqn:Hc.
  - destruct (incomingMap es !! c) as [p|] eqn:Hlook.
    + destruct (IH p (incomingMap_Some _ _ _ Hlook)) as [fuel Hfuel].
      exists (S fuel). intros fuel' path Hle.
      destruct fuel' as [|fuel']; [lia|].
      rewrite walkUp_step, Hlook by done. apply Hfuel. lia.
    + exists 1. intros fuel' path Hle.
      destruct fuel' as [|fuel']; [lia|].
      rewrite walkUp_step, Hlook by done. by rewrite walkUp_stop.
  - exists 0. intros fuel' path _. by rewrite walkUp_stop.
Qed.

Lemma ancestry_last incoming c l : ancestry incoming c l -> last l = Some c.
Proof. destruct 1; [done|apply last_snoc]. Qed.

Lemma linked_snoc es l x y :
  linked es l -> last l = Some x -> edgeRel es x y -> linked es (l ++ [y]).
Proof.
  induction 1 as [|z|a b l Hab Hl IH]; simpl.
  - done.
  - intros [= ->] Hxy. constructor; [done|constructor].
  - intros Hlast Hxy. constructor; [done|]. by apply IH.
Qed.

End PathFacts.

Section TreePaths.
Import Graph PathResolver.

Variable st : ChatState.
Hypothesis Htree : treeState st.

Lemma tree_edge_unique e1 e2 :
  e1 ∈ edges st -> e2 ∈ edges st -> edge_target e1 = edge_target e2 -> e1 = e2.
Proof.
  intros [i Hi]%list_elem_of_lookup [j Hj]%list_elem_of_lookup Ht.
  assert (i = j) as ->; [|congruence].
  apply (NoDup_lookup _ i j (edge_target e1) (ts_one_parent _ Htree)).
  - by rewrite list_lookup_fmap, Hi.
  - by rewrite list_lookup_fmap, Hj, Ht.
Qed.

Lemma tree_truthy nodeId : nodeId ∈ ids (nodes st) -> truthy (Some nodeId) = true.
Proof.
  intros Hin. simpl. apply negb_true_iff, String.eqb_neq. intros ->.
  by apply (ts_nonempty _ Htree).
Qed.

Lemma tree_incoming_edge e :
  e ∈ edges st -> incomingMap (edges st) !! edge_target e = Some (edge_source e).
Proof.
  intros He. apply incomingMap_unique.
  - by exists e.
  - intros e' He' Ht. by rewrite (tree_edge_unique e' e He' He Ht).
Qed.

Lemma tree_incoming_root : incomingMap (edges st) !! "root" = None.
Proof. apply incomingMap_None. intros e He. by apply (ts_entry _ Htree). Qed.

Lemma tree_findEdge e :
  e ∈ edges st -> findEdge (edges st) (edge_source e) (edge_target e) = Some e.
Proof.
  intros He. unfold findEdge.
  destruct (List.find _ _) as [e'|] eqn:Hfind.
  - apply find_some in Hfind as [He' Hmatch].
    apply andb_true_iff in Hmatch as [_ Ht%String.eqb_eq].
    f_equal. apply tree_edge_unique; [by apply list_elem_of_In|done|done].
  - pose proof (find_none _ _ Hfind e (proj1 (list_elem_of_In _ _) He)) as Hno.
    simpl in Hno. by rewrite !String.eqb_refl in Hno.
Qed.

(** In a tree the ancestry of a node starts at root, ends at the node and
    follows the edges. *)
Lemma tree_ancestry c l :
  c ∈ ids (nodes st) ->
  ancestry (incomingMap (edges st)) c l ->
  head l = Some "root" ∧ last l = Some c ∧ linked (edges st) l
  ∧ ∀ x, x ∈ l -> x ∈ ids (nodes st).
Proof.
  intros Hc Hanc. induction Hanc as [c Htc Htop | c p l Htc Hlook Htp Hanc IH].
  - assert (c = "root") as ->.
    { destruct (decide (c = "root")) as [|Hne]; [done|]. exfalso.
      destruct (ts_parent _ Htree c Hc Hne) as (e & He & <-).
      rewrite (tree_incoming_edge e He) in Htop.
      rewrite tree_truthy in Htop; [done|].
      by apply (ts_closed _ Htree e He). }
    repeat split; [constructor|]. by intros x ->%list_elem_of_singleton.
  - apply incomingMap_Some in Hlook as Hedge.
    assert (Hp : p ∈ ids (nodes st)).
    { destruct Hedge as (e & He & <- & _). by apply (ts_closed _ Htree e He). }
    destruct (IH Hp) as (Hhead & Hlast & Hlinked & Hall).
    split; [|split; [|split]].
    + destruct l; [done|]. exact Hhead.
    + apply last_snoc.
    + by apply (linked_snoc _ _ p).
    + intros x [Hx | ->%list_elem_of_singleton]%elem_of_app; [by apply Hall|done].
Qed.

Lemma tree_getPathNodeIds target :
  target ∈ ids (nodes st) ->
  ∃ fuel, ∀ fuel', fuel ≤ fuel' ->
    ∃ path,
      getPathNodeIds fuel' st target = Some path
      ∧ head path = Some "root" ∧ last path = Some target
      ∧ linked (edges st) path
      ∧ ∀ x, x ∈ path -> x ∈ ids (nodes st).
Proof.
  intros Htarget.
  destruct (walkUp_terminates (edges st) target
              (acyclic_Acc_up _ (ts_acyclic _ Htree) target)) as [fuel Hfuel].
  exists fuel. intros fuel' Hle.
  destruct (Hfuel fuel' [] Hle) as [path Hpath].
  exists path. split; [exact Hpath|].
  destruct (walkUp_ancestry _ _ _ _ _ (tree_truthy _ Htarget) Hpath)
    as (l & Hl & ->).
  rewrite app_nil_r. by apply tree_ancestry.
Qed.

End TreePaths.

Section PathClaims.
Import Graph PathResolver.

Lemma tree_chain_path (st : ChatState) (A B : string) (fuel : nat) :
  treeState st ->
  edgeRel (edges st) "root" A ->
  edgeRel (edges st) A B ->
  3 ≤ fuel ->
  getPathNodeIds fuel st B = Some ["root"; A; B].
Proof.
  intros Htree (eA & HeA & HsA & HtA) (eB & HeB & HsB & HtB) Hfuel.
  destruct fuel as [|[|[|fuel]]]; try lia.
  pose proof (ts_closed _ Htree eA HeA) as [Hroot HA].
  pose proof (ts_closed _ Htree eB HeB) as [_ HB].
  rewrite HtA in HA. rewrite HtB in HB. rewrite HsA in Hroot.
  pose proof (tree_incoming_edge st Htree eA HeA) as HincA.
  pose proof (tree_incoming_edge st Htree eB HeB) as HincB.
  rewrite HsA, HtA in HincA. rewrite HsB, HtB in HincB.
  unfold getPathNodeIds.
  rewrite walkUp_step, HincB by by apply (tree_truthy st).
  rewrite walkUp_step, HincA by by apply (tree_truthy st).
  rewrite walkUp_step, (tree_incoming_root st Htree) by by apply (tree_truthy st).
  by rewrite walkUp_stop.
Qed.

Lemma messageView_pathMessage msg : messageView (pathMessage msg) = messageView msg.
Proof. done. Qed.

Lemma nodeMessages_view (ns : list Node) (path : list string) :
  messageView <$> concat (nodeMessages ns <$> path)
  = messageView <$> concat (historyOf ns <$> path).
Proof.
  induction path as [|x path IH]; [done|].
  rewrite !fmap_cons, !concat_cons, !fmap_app, IH. f_equal.
  unfold nodeMessages, historyOf. destruct (findNode ns x); [|done].
  rewrite <- list_fmap_compose. by apply list_fmap_ext.
Qed.

(** C3. In a tree state that holds the edges root → A and A → B, the node
    path of B is [root, A, B] and the edge path of B is the id of the edge
    root → A followed by the id of the edge A → B. *)
Theorem path_of_chain (st : ChatState) (eA eB : Edge) (A B : string) (fuel : nat) :
  treeState st ->
  eA ∈ edges st -> edge_source eA = "root" -> edge_target eA = A ->
  eB ∈ edges st -> edge_source eB = A -> edge_target eB = B ->
  3 ≤ fuel ->
  getPathNodeIds fuel st B = Some ["root"; A; B]
  ∧ getPathEdgeIds fuel st B = Some [edge_id eA; edge_id eB].
Proof.
  intros Htree HeA HsA HtA HeB HsB HtB Hfuel.
  assert (Hpath : getPathNodeIds fuel st B = Some ["root"; A; B]).
  { apply tree_chain_path; [done| | |done].
    - by exists eA.
    - by exists eB. }
  split; [done|]. unfold getPathEdgeIds. rewrite Hpath. simpl.
  pose proof (tree_findEdge st Htree eA HeA) as HfA.
  pose proof (tree_findEdge st Htree eB HeB) as HfB.
  rewrite HsA, HtA in HfA. rewrite HsB, HtB in HfB.
  by rewrite HfA, HfB.
Qed.

(** C4. In a tree state [getPathToNode] walks the path that leads from
    root down to the target and returns, node after node in that order,
    the messages of each node on it, each with its role, content and
    attachments; for a chain root → A → B whose nodes hold [m1], [m2, m3]
    and [m4] that is m1, m2, m3, m4. *)
Theorem path_messages_concatenate (st : ChatState) :
  treeState st ->
  (∀ target, target ∈ ids (nodes st) ->
     ∃ fuel, ∀ fuel', fuel ≤ fuel' ->
       ∃ path messages,
         getPathNodeIds fuel' st target = Some path
         ∧ head path = Some "root" ∧ last path = Some target
         ∧ linked (edges st) path
         ∧ getPathToNode fuel' st target = Some messages
         ∧ messageView <$> messages
           = messageView <$> concat (historyOf (nodes st) <$> path))
  ∧ (∀ A B m1 m2 m3 m4 fuel,
       edgeRel (edges st) "root" A ->
       edgeRel (edges st) A B ->
       historyOf (nodes st) "root" = [m1] ->
       historyOf (nodes st) A = [m2; m3] ->
       historyOf (nodes st) B = [m4] ->
       3 ≤ fuel ->
       ∃ messages,
         getPathToNode fuel st B = Some messages
         ∧ messageView <$> messages = messageView <$> [m1; m2; m3; m4]).
Proof.
  intros Htree. split.
  - intros target Htarget.
    destruct (tree_getPathNodeIds st Htree target Htarget) as [fuel Hfuel].
    exists fuel. intros fuel' Hle.
    destruct (Hfuel fuel' Hle) as (path & Hpath & Hhead & Hlast & Hlinked & _).
    exists path, (concat (nodeMessages (nodes st) <$> path)).
    repeat (split; [done|]). split.
    + unfold getPathToNode. by rewrite Hpath.
    + apply nodeMessages_view.
  - intros A B m1 m2 m3 m4 fuel HA HB H1 H2 H3 Hfuel.
    exists (concat (nodeMessages (nodes st) <$> ["root"; A; B])). split.
    + unfold getPathToNode. by rewrite (tree_chain_path st A B fuel).
    + rewrite nodeMessages_view. simpl. by rewrite H1, H2, H3.
Qed.

End PathClaims.

Section PathExamples.
Import Graph PathResolver Examples.

Lemma path_messages_concatenate_witness :
  treeState treeExample
  ∧ edgeRel (edges treeExample) "root" "node-A"
  ∧ edgeRel (edges treeExample) "node-A" "node-B"
  ∧ historyOf (nodes treeExample) "root" = [m1]
  ∧ historyOf (nodes treeExample) "node-A" = [m2; m3]
  ∧ historyOf (nodes treeExample) "node-B" = [m4]
  ∧ ∃ messages,
      getPathToNode 3 treeExample "node-B" = Some messages
      ∧ messageView <$> messages = messageView <$> [m1; m2; m3; m4].
Proof.
  assert (HA : edgeRel (edges treeExample) "root" "node-A").
  { exists (arrow "root" "node-A"). split; [by repeat constructor|done]. }
  assert (HB : edgeRel (edges treeExample) "node-A" "node-B").
  { exists (arrow "node-A" "node-B"). split; [by repeat constructor|done]. }
  split; [exact treeState_treeExample|].
  split; [exact HA|]. split; [exact HB|].
  split; [reflexivity|]. split; [reflexivity|]. split; [reflexivity|].
  exact (proj2 (path_messages_concatenate treeExample treeState_treeExample)
           "node-A" "node-B" m1 m2 m3 m4 3 HA HB eq_refl eq_refl eq_refl
           (le_n 3)).
Defined.

Example getPathToNode_treeExample :
  getPathToNode 3 treeExample "node-B"
  = Some [pathMessage m1; pathMessage m2; pathMessage m3; pathMessage m4].
Proof. by vm_compute. Qed.

(** With two edges into the same node the map keeps the one inserted
    last, so the path follows the later edge. *)
Example getPathNodeIds_last_edge_wins :
  getPathNodeIds 3
    (set_nodes_edges treeExample (nodes treeExample)
       (edges treeExample ++ [arrow "node-C" "node-B"]))
    "node-B"
  = Some ["root"; "node-C"; "node-B"].
Proof. by vm_compute. Qed.

(** An empty id is falsy: the walk does not even start. *)
Example getPathNodeIds_empty_id fuel :
  getPathNodeIds fuel treeExample "" = Some [].
Proof. unfold getPathNodeIds. by rewrite walkUp_stop. Qed.

End PathExamples.

(** ** The tree invariant survives a new leaf *)

Section Grow.
Import Graph.

Variable st : ChatState.
Variable leaf : Node.
Variable link : Edge.
Hypothesis Htree : treeState st.
Hypothesis Hfresh : node_id leaf ∉ ids (nodes st).
Hypothesis Hnonempty : node_id leaf ≠ "".
Hypothesis Hsource : edge_source link ∈ ids (nodes st).
Hypothesis Htarget : edge_target link = node_id leaf.

Lemma grow_edgeRel x y :
  edgeRel (edges st ++ [link]) x y
  <-> edgeRel (edges st) x y ∨ (x = edge_source link ∧ y = node_id leaf).
Proof.
  unfold edgeRel. split.
  - intros (e & [He | ->%list_elem_of_singleton]%elem_of_app & <- & <-).
    + left. by exists e.
    + right. by rewrite Htarget.
  - intros [(e & He & Hs & Ht) | [-> ->]].
    + exists e. split; [|done]. apply elem_of_app. by left.
    + exists link. split; [|done]. apply elem_of_app. right. by left.
Qed.

Lemma leaf_has_no_child y : ¬ edgeRel (edges st) (node_id leaf) y.
Proof.
  intros (e & He & Hs & _). apply Hfresh. rewrite <- Hs.
  by apply (ts_closed _ Htree e He).
Qed.

Lemma grow_descendant x y :
  descendant (edges st ++ [link]) x y ->
  descendant (edges st) x y ∨ y = node_id leaf.
Proof.
  induction 1 as [x y Hxy | x z y Hxz Hzy IH].
  - apply grow_edgeRel in Hxy as [Hxy | [_ ->]]; [left; by apply tc_once|by right].
  - destruct IH as [Hold | ->]; [|by right].
    apply grow_edgeRel in Hxz as [Hxz | [_ ->]].
    + left. by eapply tc_l.
    + exfalso. inversion Hold as [? ? Hstep | ? ? ? Hstep _]; subst;
        by apply (leaf_has_no_child _ Hstep).
Qed.

Lemma treeState_grow :
  treeState (set_nodes_edges st (nodes st ++ [leaf]) (edges st ++ [link])).
Proof.
  assert (Hids : ids (nodes st ++ [leaf]) = ids (nodes st) ++ [node_id leaf]).
  { unfold ids. by rewrite map_app. }
  split; simpl; rewrite ?Hids.
  - apply NoDup_app. split; [apply (ts_nodup _ Htree)|]. split.
    + intros x Hx Hleaf. apply list_elem_of_singleton in Hleaf.
      apply Hfresh. by rewrite <- Hleaf.
    + apply NoDup_singleton.
  - apply elem_of_app. left. apply (ts_root _ Htree).
  - intros [Hin | Hin%list_elem_of_singleton]%elem_of_app.
    + by apply (ts_nonempty _ Htree).
    + by apply Hnonempty.
  - intros e [He | ->%list_elem_of_singleton]%elem_of_app.
    + destruct (ts_closed _ Htree e He) as [Hs Ht].
      split; apply elem_of_app; by left.
    + split; apply elem_of_app; [by left|right]. rewrite Htarget. by left.
  - intros e [He | ->%list_elem_of_singleton]%elem_of_app.
    + by apply (ts_entry _ Htree).
    + rewrite Htarget. intros Heq. apply Hfresh. rewrite Heq.
      apply (ts_root _ Htree).
  - intros n [Hn | ->%list_elem_of_singleton]%elem_of_app Hne.
    + destruct (ts_parent _ Htree n Hn Hne) as (e & He & Ht).
      exists e. split; [|done]. apply elem_of_app. by left.
    + exists link. split; [|done]. apply elem_of_app. right. by left.
  - rewrite fmap_app. apply NoDup_app.
    split; [apply (ts_one_parent _ Htree)|]. split; [|apply NoDup_singleton].
    intros t (e & -> & He)%list_elem_of_fmap Hleaf.
    apply list_elem_of_singleton in Hleaf. apply Hfresh.
    rewrite <- Htarget, <- Hleaf. by apply (ts_closed _ Htree e He).
  - intros x Hx. destruct (grow_descendant _ _ Hx) as [Hold | ->].
    + by apply (ts_acyclic _ Htree x).
    + inversion Hx as [? ? Hstep | ? ? ? Hstep _]; subst;
        apply grow_edgeRel in Hstep as [Hstep | [Heq _]];
        try (by apply (leaf_has_no_child _ Hstep));
        apply Hfresh; by rewrite Heq.
Qed.

End Grow.

(** ** Creating a node and its edge *)

Section Create.
Import Graph PathResolver Mutator.

Lemma findNode_None ns nodeId :
  findNode ns nodeId = None <-> nodeId ∉ ids ns.
Proof.
  unfold findNode, ids. split.
  - intros Hnone (node & -> & Hnode)%list_elem_of_fmap.
    pose proof (find_none _ _ Hnone node (proj1 (list_elem_of_In _ _) Hnode)) as Hno.
    simpl in Hno. by rewrite String.eqb_refl in Hno.
  - intros Hnot. destruct (List.find _ _) as [node|] eqn:Hfind; [|done].
    exfalso. apply find_some in Hfind as [Hnode Heq%String.eqb_eq].
    apply Hnot. rewrite <- Heq. apply list_elem_of_fmap_2.
    by apply list_elem_of_In.
Qed.

Lemma findNode_Some ns nodeId :
  nodeId ∈ ids ns ->
  ∃ node, findNode ns nodeId = Some node ∧ node ∈ ns ∧ node_id node = nodeId.
Proof.
  intros Hin. destruct (findNode ns nodeId) as [node|] eqn:Hfind.
  - exists node. split; [done|]. unfold findNode in Hfind.
    apply find_some in Hfind as [Hnode Heq%String.eqb_eq].
    split; [by apply list_elem_of_In|done].
  - by apply findNode_None in Hfind.
Qed.

Lemma tree_getPathToNode (st : ChatState) (target : string) :
  treeState st ->
  target ∈ ids (nodes st) ->
  ∃ fuel, ∀ fuel', fuel ≤ fuel' -> is_Some (getPathToNode fuel' st target).
Proof.
  intros Htree Htarget.
  destruct (tree_getPathNodeIds st Htree target Htarget) as [fuel Hfuel].
  exists fuel. intros fuel' Hle.
  destruct (Hfuel fuel' Hle) as (path & Hpath & _).
  unfold getPathToNode. rewrite Hpath. eauto.
Qed.

Variable addEdge : Edge -> list Edge -> list Edge.
Variable nanoid : string.

Lemma addEdge_newEdge (st : ChatState) (sourceNodeId : string) :
  treeState st ->
  addEdgeContract addEdge ->
  sourceNodeId ∈ ids (nodes st) ->
  nanoid ≠ "" ->
  nanoid ∉ ids (nodes st) ->
  addEdge (newEdge nanoid sourceNodeId) (edges st)
  = edges st ++ [newEdge nanoid sourceNodeId].
Proof.
  intros Htree Hadd Hsource Hnonempty Hfresh. apply Hadd; simpl.
  - intros ->. by apply (ts_nonempty _ Htree).
  - done.
  - intros e' He' [_ Ht]. apply Hfresh. rewrite <- Ht.
    by apply (ts_closed _ Htree e' He').
Qed.

(** Creating a node keeps the tree invariant. *)
Lemma createNodeAndEdge_treeState
    (st st' : ChatState) (sourceNodeId title newId : string) (kind : NodeKind)
    (fuel : nat) (effects : list Effect) :
  treeState st ->
  addEdgeContract addEdge ->
  nanoid ≠ "" ->
  nanoid ∉ ids (nodes st) ->
  createNodeAndEdge addEdge nanoid fuel st sourceNodeId title kind
  = Some (newId, st', effects) ->
  treeState st'.
Proof.
  intros Htree Hadd Hnonempty Hfresh. unfold createNodeAndEdge.
  destruct (findNode (nodes st) sourceNodeId) as [sourceNode|] eqn:Hfind.
  - assert (Hsource : sourceNodeId ∈ ids (nodes st)).
    { destruct (decide (sourceNodeId ∈ ids (nodes st))) as [|Hnot]; [done|].
      apply findNode_None in Hnot. congruence. }
    destruct (getPathToNode fuel st sourceNodeId); [|done].
    rewrite addEdge_newEdge by done. intros [= _ <- _].
    by apply (treeState_grow st).
  - by intros [= _ <- _].
Qed.

Lemma acyclic_getPathToNode (st : ChatState) (target : string) :
  acyclic (edges st) ->
  ∃ fuel, ∀ fuel', fuel ≤ fuel' -> is_Some (getPathToNode fuel' st target).
Proof.
  intros Hacyclic.
  destruct (walkUp_terminates (edges st) target
              (acyclic_Acc_up _ Hacyclic target)) as [fuel Hfuel].
  exists fuel. intros fuel' Hle.
  destruct (Hfuel fuel' [] Hle) as [path Hpath].
  unfold getPathToNode, getPathNodeIds. rewrite Hpath. eauto.
Qed.

(** C9, amended. When no node has the id [sourceNodeId],
    [createNodeAndEdge] returns the empty string and the state it was
    given. When the source exists and the edges have no cycle, it
    returns the id that [nanoid] produced; the new state is the old one
    with one node appended, which carries that id, the given label and an
    empty history, and with the edge from the source to that id handed
    to [addEdge], which appends it when it keeps its contract and the
    connection is not there yet; nothing else changes. The store does
    not check the id: where ids were unique, they stay unique exactly
    when [nanoid] produced an id that no node uses. *)
Theorem createNodeAndEdge_result
    (st : ChatState) (sourceNodeId title : string) (kind : NodeKind) :
  (sourceNodeId ∉ ids (nodes st) ->
   ∀ fuel, createNodeAndEdge addEdge nanoid fuel st sourceNodeId title kind
           = Some ("", st, []))
  ∧ (sourceNodeId ∈ ids (nodes st) ->
     acyclic (edges st) ->
     ∃ fuel, ∀ fuel', fuel ≤ fuel' ->
       ∃ st' effects created link,
         createNodeAndEdge addEdge nanoid fuel' st sourceNodeId title kind
         = Some (nanoid, st', effects)
         ∧ nodes st' = nodes st ++ [created]
         ∧ node_id created = nanoid
         ∧ node_data created = {| label := title; chatHistory := [] |}
         ∧ edge_source link = sourceNodeId
         ∧ edge_target link = nanoid
         ∧ edges st' = addEdge link (edges st)
         ∧ (addEdgeContract addEdge ->
            sourceNodeId ≠ "" -> nanoid ≠ "" ->
            (∀ e, e ∈ edges st ->
               ¬ (edge_source e = sourceNodeId ∧ edge_target e = nanoid)) ->
            edges st' = edges st ++ [link])
         ∧ activeNodeId st' = activeNodeId st
         ∧ activePath st' = activePath st
         ∧ (NoDup (ids (nodes st)) ->
            NoDup (ids (nodes st')) <-> nanoid ∉ ids (nodes st))).
Proof.
  split.
  - intros Hnone%findNode_None fuel. unfold createNodeAndEdge. by rewrite Hnone.
  - intros Hsource Hacyclic.
    destruct (acyclic_getPathToNode st sourceNodeId Hacyclic) as [fuel Hfuel].
    exists fuel. intros fuel' Hle.
    destruct (findNode_Some _ _ Hsource) as (sourceNode & Hfind & _ & _).
    destruct (Hfuel fuel' Hle) as [pathToSource Hpath].
    unfold createNodeAndEdge. rewrite Hfind, Hpath.
    eexists _, _, (newNode nanoid sourceNode title kind),
      (newEdge nanoid sourceNodeId).
    split; [reflexivity|]. simpl.
    repeat (split; [done|]). split; [|split; [done|split; [done|]]].
    + intros Hadd Hs Hn Hnew. by apply Hadd.
    + intros Hnodup. unfold ids. rewrite map_app. simpl.
      rewrite NoDup_app. split.
      * intros (_ & Hdisjoint & _) Hin. apply (Hdisjoint nanoid Hin). by left.
      * intros Hfresh. split; [done|]. split; [|apply NoDup_singleton].
        by intros x Hx ->%list_elem_of_singleton.
Qed.

End Create.

Section CreateExamples.
Import Graph PathResolver Mutator Examples.

Lemma addEdgeOnce_contract : addEdgeContract addEdgeOnce.
Proof.
  intros e es Hs Ht Hnew. unfold addEdgeOnce.
  rewrite (proj2 (String.eqb_neq _ _) Hs), (proj2 (String.eqb_neq _ _) Ht).
  simpl. destruct (existsb _ es) eqn:Hex; [|done]. exfalso.
  apply existsb_exists in Hex as (e' & He' & Hmatch).
  apply andb_true_iff in Hmatch as [Hes%String.eqb_eq Het%String.eqb_eq].
  apply (Hnew e'); [by apply list_elem_of_In|done].
Qed.

Lemma createNodeAndEdge_result_witness :
  ("missing" ∉ ids (nodes treeExample))
  ∧ createNodeAndEdge addEdgeOnce "V1StGXR8_Z5jdHi6B-myT" 0 treeExample
      "missing" "Branch" branch
    = Some ("", treeExample, [])
  ∧ "node-C" ∈ ids (nodes treeExample)
  ∧ acyclic (edges treeExample)
  ∧ ∃ fuel, ∀ fuel', fuel ≤ fuel' ->
      ∃ st' effects created link,
        createNodeAndEdge addEdgeOnce "V1StGXR8_Z5jdHi6B-myT" fuel' treeExample
          "node-C" "Branch" branch
        = Some ("V1StGXR8_Z5jdHi6B-myT", st', effects)
        ∧ nodes st' = nodes treeExample ++ [created]
        ∧ node_id created = "V1StGXR8_Z5jdHi6B-myT"
        ∧ node_data created = {| label := "Branch"; chatHistory := [] |}
        ∧ edge_source link = "node-C"
        ∧ edge_target link = "V1StGXR8_Z5jdHi6B-myT"
        ∧ edges st' = addEdgeOnce link (edges treeExample).
Proof.
  assert (Hmissing : "missing" ∉ ids (nodes treeExample))
    by (apply (bool_decide_unpack _); by vm_compute).
  assert (Hsource : "node-C" ∈ ids (nodes treeExample))
    by (apply (bool_decide_unpack _); by vm_compute).
  split; [exact Hmissing|].
  split.
  { exact (proj1 (createNodeAndEdge_result addEdgeOnce "V1StGXR8_Z5jdHi6B-myT"
                    treeExample "missing" "Branch" branch) Hmissing 0). }
  split; [exact Hsource|].
  split; [exact acyclic_treeExample|].
  destruct (proj2 (createNodeAndEdge_result addEdgeOnce "V1StGXR8_Z5jdHi6B-myT"
                     treeExample "node-C" "Branch" branch)
              Hsource acyclic_treeExample) as [fuel Hfuel].
  exists fuel. intros fuel' Hle.
  destruct (Hfuel fuel' Hle)
    as (st' & effects & created & link & Hres & Hnodes & Hid & Hdata
        & Hs & Ht & Hedges & _).
  by exists st', effects, created, link.
Defined.

Example createNodeAndEdge_treeExample :
  createNodeAndEdge addEdgeOnce "V1StGXR8_Z5jdHi6B-myT" 2 treeExample
    "node-C" "Branch" branch
  = Some ("V1StGXR8_Z5jdHi6B-myT",
          set_nodes_edges treeExample
            (nodes treeExample
             ++ [chatNode "V1StGXR8_Z5jdHi6B-myT" "Branch" [] 950 550])
            (edges treeExample ++ [arrow "node-C" "V1StGXR8_Z5jdHi6B-myT"]),
          [CreateBranchThread "node-C" "V1StGXR8_Z5jdHi6B-myT" [pathMessage m1];
           SaveToStorage]).
Proof. by vm_compute. Qed.

End CreateExamples.

Section BuiltChain.
Import Graph PathResolver Mutator Examples.

Lemma treeState_builtA : treeState builtA.
Proof.
  apply (createNodeAndEdge_treeState addEdgeOnce idA initial_state builtA
           "root" "A" idA response 1 [SaveToStorage]).
  - exact treeState_initial.
  - exact addEdgeOnce_contract.
  - done.
  - apply (bool_decide_unpack _). by vm_compute.
  - by vm_compute.
Qed.

Lemma treeState_builtB : treeState builtB.
Proof.
  apply (createNodeAndEdge_treeState addEdgeOnce idB builtA builtB
           idA "B" idB branch 2 [SaveToStorage]).
  - exact treeState_builtA.
  - exact addEdgeOnce_contract.
  - done.
  - apply (bool_decide_unpack _). by vm_compute.
  - by vm_compute.
Qed.

Lemma path_of_chain_witness :
  treeState builtB
  ∧ arrow "root" idA ∈ edges builtB
  ∧ arrow idA idB ∈ edges builtB
  ∧ 3 ≤ 3
  ∧ getPathNodeIds 3 builtB idB = Some ["root"; idA; idB]
  ∧ getPathEdgeIds 3 builtB idB
    = Some ["e-root-V1StGXR8_Z5jdHi6B-myT";
            "e-V1StGXR8_Z5jdHi6B-myT-Uakgb_J5m9g-0JDMbcJqL"].
Proof.
  assert (HA : arrow "root" idA ∈ edges builtB)
    by (apply list_elem_of_In; vm_compute; auto).
  assert (HB : arrow idA idB ∈ edges builtB)
    by (apply list_elem_of_In; vm_compute; auto).
  split; [exact treeState_builtB|].
  split; [exact HA|]. split; [exact HB|]. split; [lia|].
  exact (path_of_chain builtB (arrow "root" idA) (arrow idA idB) idA idB 3
           treeState_builtB HA eq_refl eq_refl HB eq_refl eq_refl (le_n 3)).
Defined.

(** C9 as stated fails: [nanoid] is not checked against the ids in use.
    In the state built above, which holds a node with the id that the
    first call of [nanoid] returned, a call in which [nanoid] returns
    that id again hands it back for the new node. *)
Lemma create_returns_fresh_counterexample : ¬ Stated.create_returns_fresh.
Proof.
  intros Hclaim.
  assert (Hroot : "root" ∈ ids (nodes builtA))
    by (apply (bool_decide_unpack _); by vm_compute).
  assert (Hused : idA ∈ ids (nodes builtA))
    by (apply (bool_decide_unpack _); by vm_compute).
  apply (Hclaim addEdgeOnce idA builtA _ "root" "Again" idA response 1 _
           treeState_builtA addEdgeOnce_contract ltac:(done) Hroot eq_refl).
  exact Hused.
Qed.

(** The state after such a call has two nodes with one id, and no new
    edge, since the connection from root to that id was there already. *)
Example createNodeAndEdge_collision :
  ∃ st' effects,
    createNodeAndEdge addEdgeOnce idA 1 builtA "root" "Again" response
    = Some (idA, st', effects)
    ∧ ids (nodes st') = ["root"; idA; idA]
    ∧ edges st' = edges builtA.
Proof. eexists _, _. by vm_compute. Qed.

End BuiltChain.

(** ** Document inheritance: properties *)

Section DocumentFacts.
Import Graph Documents.

Lemma filter_ext_in {A} (P Q : A -> Prop)
    `{!∀ x, Decision (P x), !∀ x, Decision (Q x)} (l : list A) :
  (∀ x, x ∈ l -> P x <-> Q x) -> filter P l = filter Q l.
Proof.
  induction l as [|a l IH]; intros Hiff; [done|].
  rewrite !filter_cons.
  rewrite IH by (intros x Hx; apply Hiff; by right).
  destruct (decide (P a)) as [HP|HP], (decide (Q a)) as [HQ|HQ]; try done.
  - exfalso. apply HQ, (Hiff a); [by left|done].
  - exfalso. apply HP, (Hiff a); [by left|done].
Qed.

Lemma filter_all {A} (P : A -> Prop) `{!∀ x, Decision (P x)} (l : list A) :
  (∀ x, x ∈ l -> P x) -> filter P l = l.
Proof.
  induction l as [|a l IH]; intros Hall; [done|].
  rewrite filter_cons_True by (apply Hall; by left).
  f_equal. apply IH. intros x Hx. apply Hall. by right.
Qed.

Section KeepFirst.
Context {A K : Type} `{EqDecision K} (key : A -> K).

Lemma keepFirstBy_elem_of (l : list A) x : x ∈ keepFirstBy key l -> x ∈ l.
Proof.
  induction l as [|a l IH]; simpl; [done|].
  intros [->|Hx]%elem_of_cons; [by left|].
  apply list_elem_of_filter in Hx as [_ Hx]. right. by apply IH.
Qed.

Lemma keepFirstBy_NoDup (l : list A) : NoDup (key <$> keepFirstBy key l).
Proof.
  induction l as [|a l IH]; simpl; [constructor|].
  apply NoDup_cons. split.
  - intros (b & Hkey & Hb)%list_elem_of_fmap.
    apply list_elem_of_filter in Hb as [Hne _]. by apply Hne.
  - eapply sublist_NoDup; [exact IH|].
    apply fmap_sublist, sublist_filter.
Qed.

(** Keys that agree on the members of a list keep the same members. *)
Lemma keepFirstBy_ext {K'} `{EqDecision K'} (key' : A -> K') (l : list A) :
  (∀ a b, a ∈ l -> b ∈ l -> key a = key b <-> key' a = key' b) ->
  keepFirstBy key l = keepFirstBy key' l.
Proof.
  induction l as [|a l IH]; intros Hagree; simpl; [done|].
  rewrite <- IH by (intros x y Hx Hy; apply Hagree; by right).
  f_equal. apply filter_ext_in. intros b Hb%keepFirstBy_elem_of.
  split; intros Hne Heq; apply Hne; apply (Hagree b a);
    [by right|by left|done|by right|by left|done].
Qed.

End KeepFirst.

Lemma prefix_startsWith start s :
  String.prefix start s = true <-> startsWith s start.
Proof.
  unfold startsWith. revert s.
  induction start as [|c start IH]; intros [|c' s]; simpl.
  - split; [|done]. intros _. by exists "".
  - split; [|done]. intros _. by exists (String c' s).
  - split; [done|]. intros [rest Hrest].
    change ("" = String c (start +:+ rest)) in Hrest. congruence.
  - destruct (Ascii.ascii_dec c c') as [->|Hne].
    + rewrite IH. split; intros [rest Hrest]; exists rest.
      * change (String c' s = String c' (start +:+ rest)). congruence.
      * change (String c' s = String c' (start +:+ rest)) in Hrest. congruence.
    + split; [done|]. intros [rest Hrest].
      change (String c' s = String c (start +:+ rest)) in Hrest. congruence.
Qed.

Lemma includes_cons part c s :
  includes part (String c s)
  = String.prefix part (String c s) || includes part s.
Proof. done. Qed.

Lemma includes_empty part : includes part "" = String.prefix part "" || false.
Proof. done. Qed.

Lemma append_cons c s1 s2 : String c s1 +:+ s2 = String c (s1 +:+ s2).
Proof. done. Qed.

Lemma includes_contains part s :
  includes part s = true <-> contains s part.
Proof.
  unfold contains. split.
  - induction s as [|c s IH].
    + rewrite includes_empty, orb_false_r.
      intros [rest Hrest]%prefix_startsWith. by exists "", rest.
    + rewrite includes_cons, orb_true_iff.
      intros [[rest Hrest]%prefix_startsWith | Hin].
      * by exists "", rest.
      * destruct (IH Hin) as (before & after & ->).
        by exists (String c before), after.
  - intros (before & after & ->).
    induction before as [|c before IH].
    + change ("" +:+ part +:+ after) with (part +:+ after).
      assert (Hstart : String.prefix part (part +:+ after) = true).
      { apply prefix_startsWith. by exists after. }
      destruct (part +:+ after) as [|c rest].
      * by rewrite includes_empty, Hstart.
      * by rewrite includes_cons, Hstart.
    + by rewrite append_cons, includes_cons, IH, orb_true_r.
Qed.

Lemma isDocument_documentType att :
  isDocument att = true <-> documentType (att_type att).
Proof.
  unfold isDocument, documentType.
  rewrite !orb_true_iff, String.eqb_eq, prefix_startsWith, !includes_contains.
  tauto.
Qed.

Lemma alreadyExists_true docs att :
  alreadyExists docs att = true <-> docKey att ∈ docKey <$> docs.
Proof.
  unfold alreadyExists. rewrite existsb_exists, list_elem_of_fmap. split.
  - intros (doc & Hdoc & Heq%String.eqb_eq). exists doc.
    split; [done|by apply list_elem_of_In].
  - intros (doc & Heq & Hdoc). exists doc.
    split; [by apply list_elem_of_In|by apply String.eqb_eq].
Qed.

(** The scan of the attachments, from any documents collected so far. *)
Lemma inheritAttachment_foldl docs atts :
  foldl inheritAttachment docs atts
  = docs ++ filter (fun b => docKey b ∉ docKey <$> docs)
              (keepFirstBy docKey (filter (fun a => isDocument a = true) atts)).
Proof.
  revert docs. induction atts as [|a atts IH]; intros docs; simpl.
  - by rewrite filter_nil, app_nil_r.
  - rewrite IH, filter_cons. unfold inheritAttachment.
    destruct (isDocument a) eqn:Hdoc.
    + rewrite decide_True by done. simpl.
      destruct (alreadyExists docs a) eqn:Hex.
      * apply alreadyExists_true in Hex.
        rewrite filter_cons_False by (intros Hno; by apply Hno).
        f_equal. rewrite list_filter_filter. apply list_filter_iff.
        intros b. split; [|by intros [? _]]. intros Hb. split; [done|].
        intros Heq. apply Hb. by rewrite Heq.
      * assert (Hnew : docKey a ∉ docKey <$> docs).
        { intros Hin%alreadyExists_true. congruence. }
        rewrite filter_cons_True by done.
        replace {| att_name := att_name a; att_type := att_type a;
                   att_data := att_data a;
                   att_previewUrl := att_previewUrl a |} with a
          by (by destruct a).
        rewrite <- app_assoc. simpl. do 2 f_equal.
        rewrite list_filter_filter. apply list_filter_iff.
        intros b. rewrite fmap_app, elem_of_app. simpl.
        rewrite list_elem_of_singleton. split.
        -- intros Hb. split; [intros Hin|intros Heq]; apply Hb;
             [by left|by right].
        -- intros [Hb Hne] [Hin|Heq]; [by apply Hb|by apply Hne].
    + by rewrite decide_False by done.
Qed.

Lemma inheritMessage_foldl docs path :
  foldl inheritMessage docs path
  = foldl inheritAttachment docs (attachmentsAlong path).
Proof.
  revert docs. induction path as [|msg path IH]; intros docs; [done|].
  simpl. unfold attachmentsAlong. rewrite fmap_cons, concat_cons, foldl_app.
  rewrite IH. unfold inheritMessage. by destruct (msg_attachments msg).
Qed.

Lemma inheritedDocuments_keepFirst path :
  inheritedDocuments path = keepFirstBy docKey (documentsAlong path).
Proof.
  unfold inheritedDocuments. rewrite inheritMessage_foldl, inheritAttachment_foldl.
  simpl. apply filter_all. intros b _ Hb. by inversion Hb.
Qed.

(** *** When the key is as good as the pair *)

Lemma hasColon_append n t : hasColon (n +:+ String ":" t) = true.
Proof.
  induction n as [|c n IH]; simpl; [done|]. rewrite IH. apply orb_true_r.
Qed.

Lemma append_colon_inj n1 n2 t1 t2 :
  hasColon t1 = false -> hasColon t2 = false ->
  n1 +:+ String ":" t1 = n2 +:+ String ":" t2 ->
  n1 = n2 ∧ t1 = t2.
Proof.
  intros H1 H2. revert n2.
  induction n1 as [|c n1 IH]; intros [|c' n2]; simpl.
  - by intros [= ->].
  - intros [= <- ->]. by rewrite hasColon_append in H1.
  - intros [= -> <-]. by rewrite hasColon_append in H2.
  - intros [= -> Hrest]. destruct (IH _ Hrest) as [-> ->]. done.
Qed.

Lemma docKey_nameAndType a b :
  hasColon (att_type a) = false -> hasColon (att_type b) = false ->
  docKey a = docKey b <-> nameAndType a = nameAndType b.
Proof.
  intros Ha Hb. unfold docKey, nameAndType. split.
  - intros Hkey. destruct (append_colon_inj _ _ _ _ Ha Hb Hkey) as [-> ->]. done.
  - intros [= -> ->]. done.
Qed.

End DocumentFacts.

Section DocumentClaims.
Import Graph Documents.

Lemma keepFirstBy_complete {A K} `{EqDecision K} (key : A -> K) (l : list A) a :
  a ∈ l -> ∃ d, d ∈ keepFirstBy key l ∧ key d = key a.
Proof.
  induction l as [|x l IH]; intros Ha; [by inversion Ha|]. simpl.
  apply elem_of_cons in Ha as [->|Ha].
  - exists x. split; [by left|done].
  - destruct (IH Ha) as (d & Hd & Hkey).
    destruct (decide (key d = key x)) as [Heq|Hne].
    + exists x. split; [by left|congruence].
    + exists d. split; [|done]. right. by apply list_elem_of_filter.
Qed.

(** C8. The documents inherited from a path of messages are attachments
    of the path whose type is application/pdf, starts with text/, or
    contains javascript or python, and no two of them have the same name
    and the same type. When the types of those attachments are MIME
    types, which hold no colon, the inherited documents are exactly
    those attachments, in path order, the first kept of every group that
    shares the pair of name and type; so every such attachment has an
    inherited document of its name and type, and attachments with equal
    name and type yield one inherited document. *)
Theorem inheritedDocuments_first_by_pair (path : list ChatMessage) :
  (∀ doc, doc ∈ inheritedDocuments path ->
     doc ∈ attachmentsAlong path ∧ documentType (att_type doc))
  ∧ (∀ i j d1 d2,
       inheritedDocuments path !! i = Some d1 ->
       inheritedDocuments path !! j = Some d2 ->
       att_name d1 = att_name d2 -> att_type d1 = att_type d2 ->
       i = j)
  ∧ ((∀ att, att ∈ documentsAlong path -> hasColon (att_type att) = false) ->
     inheritedDocuments path = keepFirstBy nameAndType (documentsAlong path)
     ∧ ∀ att, att ∈ attachmentsAlong path -> documentType (att_type att) ->
         ∃ doc, doc ∈ inheritedDocuments path
                ∧ att_name doc = att_name att ∧ att_type doc = att_type att).
Proof.
  pose proof (inheritedDocuments_keepFirst path) as Hkey.
  assert (Hmember : ∀ doc, doc ∈ inheritedDocuments path ->
            doc ∈ documentsAlong path).
  { intros doc Hdoc. rewrite Hkey in Hdoc. by apply keepFirstBy_elem_of in Hdoc. }
  assert (Hcover : ∀ att, att ∈ documentsAlong path ->
            ∃ doc, doc ∈ inheritedDocuments path ∧ docKey doc = docKey att).
  { intros att Hatt. rewrite Hkey. by apply keepFirstBy_complete. }
  split; [|split].
  - intros doc Hdoc%Hmember. apply list_elem_of_filter in Hdoc as [Hisdoc Hin].
    split; [done|]. by apply isDocument_documentType.
  - intros i j d1 d2 H1 H2 Hname Htype.
    pose proof (keepFirstBy_NoDup docKey (documentsAlong path)) as Hnodup.
    rewrite <- Hkey in Hnodup.
    apply (NoDup_lookup _ i j (docKey d1) Hnodup).
    + by rewrite list_lookup_fmap, H1.
    + rewrite list_lookup_fmap, H2. simpl. unfold docKey.
      by rewrite Hname, Htype.
  - intros Hcolon. split.
    + rewrite Hkey. apply keepFirstBy_ext.
      intros a b Ha Hb. apply docKey_nameAndType; by apply Hcolon.
    + intros att Hatt Hdoc%isDocument_documentType.
      assert (Hamong : att ∈ documentsAlong path)
        by by apply list_elem_of_filter.
      destruct (Hcover att Hamong) as (doc & Hin & Hk).
      exists doc. split; [done|].
      apply docKey_nameAndType in Hk as [= Hname Htype]; [done| |].
      * by apply Hcolon, Hmember.
      * by apply Hcolon.
Qed.

End DocumentClaims.

Section DocumentExamples.
Import Graph Documents Examples.

Lemma inheritedDocuments_first_by_pair_witness :
  (∀ att, att ∈ documentsAlong [question; withSpecAgain] ->
          hasColon (att_type att) = false)
  ∧ inheritedDocuments [question; withSpecAgain]
    = keepFirstBy nameAndType (documentsAlong [question; withSpecAgain])
  ∧ inheritedDocuments [question; withSpecAgain] = [specPdf].
Proof.
  assert (Hcolon : ∀ att, att ∈ documentsAlong [question; withSpecAgain] ->
                          hasColon (att_type att) = false).
  { intros att [_ Hatt]%list_elem_of_filter.
    unfold attachmentsAlong in Hatt. simpl in Hatt.
    repeat (apply elem_of_cons in Hatt as [-> | Hatt]; [done|]).
    by inversion Hatt. }
  split; [exact Hcolon|].
  split.
  - exact (proj1 (proj2 (proj2
             (inheritedDocuments_first_by_pair [question; withSpecAgain]))
             Hcolon)).
  - reflexivity.
Defined.

(** A type with a colon is no MIME type. For such types the key string
    that the scan compares, name, colon, type, can be shared by
    attachments that differ in name and in type. *)
Example inheritedDocuments_shared_key :
  nameAndType scriptOne ≠ nameAndType scriptTwo
  ∧ docKey scriptOne = docKey scriptTwo
  ∧ isDocument scriptOne = true ∧ isDocument scriptTwo = true
  ∧ inheritedDocuments [withScripts] = [scriptOne].
Proof. repeat split; by vm_compute. Qed.

End DocumentExamples.

(** ** Legacy session tier: properties *)

Section SessionFacts.
Import Session.

Lemma smallAttachments_elem_of atts att :
  att ∈ smallAttachments atts
  <-> att ∈ default [] atts
      ∧ (Z.of_nat (JS.length (att_data att)) < 100000)%Z.
Proof.
  destruct atts as [l|]; simpl.
  - rewrite elem_of_bfilter. by rewrite Z.ltb_lt.
  - rewrite elem_of_nil. tauto.
Qed.

Lemma truncateContent_long content :
  (10000 < Z.of_nat (JS.length content))%Z ->
  truncateContent content
  = JS.substringTo (Z.to_nat 10000) content +:+ "...[truncated]".
Proof.
  intros Hlong. unfold truncateContent.
  by rewrite (proj2 (Z.ltb_lt _ _) Hlong).
Qed.

Lemma truncateContent_short content :
  (Z.of_nat (JS.length content) ≤ 10000)%Z ->
  truncateContent content = content.
Proof.
  intros Hshort. unfold truncateContent.
  by rewrite (proj2 (Z.ltb_ge _ _) Hshort).
Qed.

(** The compacted snapshot, message by message. *)
Lemma compressedData_message data i j node msg :
  sd_nodes data !! i = Some node ->
  chatHistory (node_data node) !! j = Some msg ->
  sd_nodes (compressedData data) !! i = Some (compressNode node)
  ∧ chatHistory (node_data (compressNode node)) !! j = Some (compressMessage msg).
Proof.
  intros Hi Hj. simpl. unfold fmap. 
  split.
  - change (map compressNode (sd_nodes data)) with (compressNode <$> sd_nodes data).
    by rewrite list_lookup_fmap, Hi.
  - change (map compressMessage (chatHistory (node_data node)))
      with (compressMessage <$> chatHistory (node_data node)).
    by rewrite list_lookup_fmap, Hj.
Qed.

Variable stringify : SessionData -> string.
Variable setItem : option string -> string -> SetItemOutcome.

(** C7. A snapshot whose serialization is within the ceiling of 4.5 MB
    (4 718 592 characters) is stored as it is when the write succeeds. A
    snapshot whose serialization is over the ceiling is compacted: every
    message content longer than 10 000 characters is cut to its first
    10 000 characters and marked, and no attachment with 100 000 or more
    characters of data is left; when the serialization of the compacted
    form is within the ceiling and the write succeeds, the save returns
    true and has stored exactly that serialization, and when it is over
    the ceiling too the save returns false and the entry is untouched. A
    save that returns true has stored the whole serialization of the
    snapshot, or of its compacted form when the snapshot was over the
    ceiling; a save that returns false has left the previous entry or no
    entry at all. *)
Theorem saveSessionData_whole_or_nothing
    (data : SessionData) (entry : option string) :
  (∀ i j node msg,
     sd_nodes data !! i = Some node ->
     chatHistory (node_data node) !! j = Some msg ->
     ∃ node' msg',
       sd_nodes (compressedData data) !! i = Some node'
       ∧ chatHistory (node_data node') !! j = Some msg'
       ∧ ((10000 < Z.of_nat (JS.length (msg_content msg)))%Z ->
          msg_content msg'
          = JS.substringTo (Z.to_nat 10000) (msg_content msg)
            +:+ "...[truncated]")
       ∧ ((Z.of_nat (JS.length (msg_content msg)) ≤ 10000)%Z ->
          msg_content msg' = msg_content msg)
       ∧ (∀ att, att ∈ default [] (msg_attachments msg')
                 <-> att ∈ default [] (msg_attachments msg)
                     ∧ (Z.of_nat (JS.length (att_data att)) < 100000)%Z))
  ∧ (tooLarge (stringify data) = false ->
     setItem entry (stringify data) = Stored ->
     saveSessionData stringify setItem data entry
     = (true, Some (stringify data)))
  ∧ (tooLarge (stringify data) = true ->
     tooLarge (stringify (compressedData data)) = false ->
     setItem entry (stringify (compressedData data)) = Stored ->
     saveSessionData stringify setItem data entry
     = (true, Some (stringify (compressedData data))))
  ∧ (tooLarge (stringify data) = true ->
     tooLarge (stringify (compressedData data)) = true ->
     saveSessionData stringify setItem data entry = (false, entry))
  ∧ ((saveSessionData stringify setItem data entry).1 = true ->
     (tooLarge (stringify data) = false
      ∧ (saveSessionData stringify setItem data entry).2
        = Some (stringify data))
     ∨ (tooLarge (stringify data) = true
        ∧ tooLarge (stringify (compressedData data)) = false
        ∧ (saveSessionData stringify setItem data entry).2
          = Some (stringify (compressedData data))))
  ∧ ((saveSessionData stringify setItem data entry).1 = false ->
     (saveSessionData stringify setItem data entry).2 = entry
     ∨ (saveSessionData stringify setItem data entry).2 = None).
Proof.
  split; [|split; [|split; [|split; [|split]]]].
  - intros i j node msg Hi Hj.
    destruct (compressedData_message data i j node msg Hi Hj) as [Hnode Hmsg].
    exists (compressNode node), (compressMessage msg).
    split; [done|]. split; [done|]. simpl. split; [|split].
    + apply truncateContent_long.
    + apply truncateContent_short.
    + apply smallAttachments_elem_of.
  - intros Hfits Hstored. unfold saveSessionData, trySetItem.
    by rewrite Hfits, Hstored.
  - intros Hlarge Hfits Hstored. unfold saveSessionData, trySetItem.
    by rewrite Hlarge, Hfits, Hstored.
  - intros Hlarge Hstill. unfold saveSessionData. by rewrite Hlarge, Hstill.
  - unfold saveSessionData, trySetItem, onSaveError.
    destruct (tooLarge (stringify data)) eqn:Hlarge.
    + destruct (tooLarge (stringify (compressedData data))) eqn:Hstill;
        [done|].
      destruct (setItem entry _); simpl; [by auto| |done].
      done.
    + destruct (setItem entry _); simpl; [by auto| |done].
      destruct (setItem None _); simpl; by auto.
  - unfold saveSessionData, trySetItem, onSaveError.
    destruct (tooLarge (stringify data)) eqn:Hlarge.
    + destruct (tooLarge (stringify (compressedData data))) eqn:Hstill;
        [by auto|].
      destruct (setItem entry _); simpl; by auto.
    + destruct (setItem entry _); simpl; [done| |by auto].
      destruct (setItem None _); simpl; by auto.
Qed.

End SessionFacts.
Section SessionExamples.
Import Session Examples MoreExamples.

Lemma length_doubled n s :
  Z.of_nat (JS.length (doubled n s))
  = (2 ^ Z.of_nat n * Z.of_nat (JS.length s))%Z.
Proof.
  revert s. induction n as [|n IH]; intros s.
  - simpl. lia.
  - cbn [doubled]. rewrite IH, JS_length_app, Nat2Z.inj_succ, Z.pow_succ_r by lia.
    lia.
Qed.

Lemma coarseStringify_nodes data node rest :
  sd_nodes data = node :: rest -> coarseStringify data = doubled 23 "x".
Proof. intros Hnodes. unfold coarseStringify. by rewrite Hnodes. Qed.

Lemma coarseStringify_tooLarge data node rest :
  sd_nodes data = node :: rest -> tooLarge (coarseStringify data) = true.
Proof.
  intros Hnodes. rewrite (coarseStringify_nodes data node rest Hnodes).
  unfold tooLarge. rewrite length_doubled. reflexivity.
Qed.

Lemma sizedStringify_long : tooLarge (sizedStringify longSession) = true.
Proof.
  assert (Hlong : hasLongContent (sd_nodes longSession) = true)
    by (by vm_compute).
  unfold sizedStringify. rewrite Hlong.
  unfold tooLarge. rewrite length_doubled. reflexivity.
Qed.

Lemma sizedStringify_compacted :
  sizedStringify (compressedData longSession) = "{}".
Proof.
  assert (Hshort : hasLongContent (sd_nodes (compressedData longSession)) = false)
    by (by vm_compute).
  unfold sizedStringify. by rewrite Hshort.
Qed.

Lemma saveSessionData_whole_or_nothing_witness :
  tooLarge (coarseStringify emptySession) = false
  ∧ roomyStorage None (coarseStringify emptySession) = Stored
  ∧ saveSessionData coarseStringify roomyStorage emptySession None
    = (true, Some "{}")
  ∧ tooLarge (sizedStringify longSession) = true
  ∧ tooLarge (sizedStringify (compressedData longSession)) = false
  ∧ roomyStorage (Some "{old}") (sizedStringify (compressedData longSession))
    = Stored
  ∧ saveSessionData sizedStringify roomyStorage longSession (Some "{old}")
    = (true, Some (sizedStringify (compressedData longSession)))
  ∧ tooLarge (coarseStringify (sessionOf treeExample)) = true
  ∧ tooLarge (coarseStringify (compressedData (sessionOf treeExample))) = true
  ∧ saveSessionData coarseStringify roomyStorage (sessionOf treeExample)
      (Some "{}")
    = (false, Some "{}").
Proof.
  assert (Hfits : tooLarge (sizedStringify (compressedData longSession)) = false)
    by (by rewrite sizedStringify_compacted).
  assert (Hlarge : tooLarge (coarseStringify (sessionOf treeExample)) = true)
    by (eapply coarseStringify_tooLarge; reflexivity).
  assert (Hstill :
    tooLarge (coarseStringify (compressedData (sessionOf treeExample))) = true)
    by (eapply coarseStringify_tooLarge; reflexivity).
  split; [reflexivity|]. split; [reflexivity|].
  split.
  { exact (proj1 (proj2
             (saveSessionData_whole_or_nothing coarseStringify roomyStorage
                emptySession None)) eq_refl eq_refl). }
  split; [exact sizedStringify_long|]. split; [exact Hfits|].
  split; [reflexivity|].
  split.
  { exact (proj1 (proj2 (proj2
             (saveSessionData_whole_or_nothing sizedStringify roomyStorage
                longSession (Some "{old}"))))
             sizedStringify_long Hfits eq_refl). }
  split; [exact Hlarge|].
  split; [exact Hstill|].
  exact (proj1 (proj2 (proj2 (proj2
           (saveSessionData_whole_or_nothing coarseStringify roomyStorage
              (sessionOf treeExample) (Some "{}"))))) Hlarge Hstill).
Defined.

(** A quota error on the compacted write clears the previous entry: the
    retry is made with the uncompacted snapshot, which is over the
    ceiling, so nothing is written. *)
Lemma saveSessionData_quota_clears
    (stringify : SessionData -> string) (data : SessionData) (entry : option string) :
  tooLarge (stringify data) = true ->
  tooLarge (stringify (compressedData data)) = false ->
  saveSessionData stringify (fun _ _ => QuotaExceeded) data entry = (false, None).
Proof.
  intros Hlarge Hfits. unfold saveSessionData, trySetItem, onSaveError.
  by rewrite Hlarge, Hfits.
Qed.

End SessionExamples.

(** ** Path resolver on arbitrary graphs *)

Section PathsAnywhere.
Import Graph PathResolver.

Implicit Types (es : list Edge) (incoming : gmap string string).

Lemma truthy_Some_true (s : string) : truthy (Some s) = true <-> s ≠ "".
Proof. simpl. by rewrite negb_true_iff, String.eqb_neq. Qed.

Lemma ancestry_linked es c l :
  ancestry (incomingMap es) c l -> linked es l.
Proof.
  induction 1 as [c _ _ | c p l _ Hlook _ Hanc IH]; [constructor|].
  apply (linked_snoc _ _ p); [done|exact (ancestry_last _ _ _ Hanc)|].
  by apply incomingMap_Some.
Qed.

Lemma ancestry_top_stops incoming c l :
  ancestry incoming c l ->
  ∃ top, head l = Some top ∧ truthy (incoming !! top) = false.
Proof.
  induction 1 as [c _ Htop | c p l _ _ _ Hanc (top & Hhead & Htop)].
  - by exists c.
  - exists top. split; [|done]. by destruct l.
Qed.

Lemma linked_connectingEdgeIds es path :
  linked es path ->
  length (connectingEdgeIds es path) = length path - 1
  ∧ ∀ i eid, connectingEdgeIds es path !! i = Some eid ->
      ∃ e, e ∈ es ∧ edge_id e = eid
           ∧ path !! i = Some (edge_source e)
           ∧ path !! S i = Some (edge_target e).
Proof.
  induction 1 as [|x|x y l Hxy Hl [IHlen IHat]]; [done|done|].
  assert (Hfind : ∃ e, findEdge es x y = Some e
                       ∧ e ∈ es ∧ edge_source e = x ∧ edge_target e = y).
  { unfold findEdge. destruct Hxy as (e0 & He0 & Hs0 & Ht0).
    destruct (List.find _ es) as [e|] eqn:Hf.
    - exists e. split; [done|]. apply find_some in Hf as [He Hm].
      apply andb_true_iff in Hm as [Hs%String.eqb_eq Ht%String.eqb_eq].
      split; [by apply list_elem_of_In|done].
    - pose proof (find_none _ _ Hf e0 (proj1 (list_elem_of_In _ _) He0)) as Hno.
      simpl in Hno. by rewrite Hs0, Ht0, !String.eqb_refl in Hno. }
  destruct Hfind as (e & Hf & He & Hs & Ht).
  cbn [connectingEdgeIds]. rewrite Hf. split.
  - simpl in *. rewrite IHlen. lia.
  - intros [|i] eid Hi.
    + injection Hi as <-. exists e. by rewrite Hs, Ht.
    + apply (IHat i eid Hi).
Qed.

Lemma getPathNodeIds_linked (st : ChatState) (target : string) (fuel : nat) path :
  getPathNodeIds fuel st target = Some path -> linked (edges st) path.
Proof.
  unfold getPathNodeIds. intros Hpath.
  destruct (truthy (Some target)) eqn:Htarget.
  - destruct (walkUp_ancestry _ _ _ _ _ Htarget Hpath) as (l & Hanc & ->).
    rewrite app_nil_r. exact (ancestry_linked _ _ _ Hanc).
  - rewrite walkUp_stop in Hpath by done. injection Hpath as <-. constructor.
Qed.

(** X1. When several edges enter a node, the path resolver climbs to the
    source of the one that comes last in the edge array. *)
Theorem path_parent_is_last_edge
    (st : ChatState) (target : string) (fuel : nat) (path : list string) (e : Edge) :
  target ≠ "" ->
  last (filter (fun e => edge_target e = target) (edges st)) = Some e ->
  edge_source e ≠ "" ->
  getPathNodeIds fuel st target = Some path ->
  ∃ above, path = above ++ [edge_source e; target].
Proof.
  intros Htarget Hlast Hsource Hpath.
  assert (Hlook : incomingMap (edges st) !! target = Some (edge_source e)).
  { by rewrite incomingMap_lookup, Hlast. }
  destruct (walkUp_ancestry _ _ _ _ _ (proj2 (truthy_Some_true _) Htarget) Hpath)
    as (l & Hanc & ->).
  rewrite app_nil_r.
  inversion Hanc as [c _ Htop | c p l' _ Hp _ Hanc']; subst.
  - rewrite Hlook in Htop. by rewrite (proj2 (truthy_Some_true _) Hsource) in Htop.
  - rewrite Hlook in Hp. injection Hp as <-.
    destruct (last_Some_snoc _ _ (ancestry_last _ _ _ Hanc')) as (above & -> & _).
    exists above. by rewrite <- app_assoc.
Qed.

(** X2. On acyclic edges every query of the path resolver returns: enough
    fuel, and any larger amount, makes [getPathNodeIds], [getPathEdgeIds],
    [getPathToNode] and [setActiveNodeId] produce a result, whatever the
    target. *)
Theorem path_resolver_terminates (st : ChatState) (target : string) :
  acyclic (edges st) ->
  ∃ fuel, ∀ fuel', fuel ≤ fuel' ->
    is_Some (getPathNodeIds fuel' st target)
    ∧ is_Some (getPathEdgeIds fuel' st target)
    ∧ is_Some (getPathToNode fuel' st target)
    ∧ is_Some (setActiveNodeId fuel' st (Some target)).
Proof.
  intros Hacyclic.
  destruct (walkUp_terminates (edges st) target
              (acyclic_Acc_up _ Hacyclic target)) as [fuel Hfuel].
  exists fuel. intros fuel' Hle.
  destruct (Hfuel fuel' [] Hle) as [path Hpath].
  unfold getPathEdgeIds, getPathToNode, setActiveNodeId, getPathNodeIds in *.
  rewrite Hpath. repeat split; try by eauto.
  destruct (truthy (Some target)); by eauto.
Qed.

(** X3. Whatever the graph, a node path that the resolver returns for a
    non-empty target ends in the target, follows an edge between every two
    consecutive members, and starts at a node whose recorded parent is
    absent or the empty string; the empty target has the empty path, and a
    target that no edge enters has the path that holds it alone. *)
Theorem getPathNodeIds_shape
    (st : ChatState) (target : string) (fuel : nat) :
  getPathNodeIds fuel st "" = Some []
  ∧ ((∀ e, e ∈ edges st -> edge_target e ≠ target) -> target ≠ "" ->
     getPathNodeIds (S fuel) st target = Some [target])
  ∧ (∀ path, target ≠ "" ->
       getPathNodeIds fuel st target = Some path ->
       last path = Some target
       ∧ linked (edges st) path
       ∧ ∃ top, head path = Some top
                ∧ truthy (incomingMap (edges st) !! top) = false).
Proof.
  unfold getPathNodeIds. split; [by apply walkUp_stop|]. split.
  - intros Horphan Htarget%truthy_Some_true.
    rewrite walkUp_step by done.
    rewrite (proj2 (incomingMap_None _ _) Horphan). by apply walkUp_stop.
  - intros path Htarget%truthy_Some_true Hpath.
    destruct (walkUp_ancestry _ _ _ _ _ Htarget Hpath) as (l & Hanc & ->).
    rewrite app_nil_r. split; [exact (ancestry_last _ _ _ Hanc)|].
    split; [exact (ancestry_linked _ _ _ Hanc)|].
    exact (ancestry_top_stops _ _ _ Hanc).
Qed.

(** X4. The edge path has exactly one id for every two consecutive nodes of
    the node path, in the same order, and the i-th id is the id of an edge
    of the graph that leads from the i-th node of the path to the next. *)
Theorem getPathEdgeIds_joins
    (st : ChatState) (target : string) (fuel : nat) (edgePath : list string) :
  getPathEdgeIds fuel st target = Some edgePath ->
  ∃ path,
    getPathNodeIds fuel st target = Some path
    ∧ length edgePath = length path - 1
    ∧ ∀ i eid, edgePath !! i = Some eid ->
        ∃ e, e ∈ edges st ∧ edge_id e = eid
             ∧ path !! i = Some (edge_source e)
             ∧ path !! S i = Some (edge_target e).
Proof.
  unfold getPathEdgeIds.
  destruct (getPathNodeIds fuel st target) as [path|] eqn:Hpath; [|done].
  intros [= <-]. exists path. split; [done|].
  apply linked_connectingEdgeIds. by eapply getPathNodeIds_linked.
Qed.

End PathsAnywhere.

Section ActiveNode.
Import Graph PathResolver.

(** What a call of [setActiveNodeId] that returns has done. *)
Lemma setActiveNodeId_result
    (st st' : ChatState) (nodeId : option string) (fuel : nat)
    (effects : list Effect) :
  setActiveNodeId fuel st nodeId = Some (st', effects) ->
  nodes st' = nodes st ∧ edges st' = edges st
  ∧ chatManager st' = chatManager st
  ∧ effects = [SaveToStorage]
  ∧ (nodeId = None ∨ nodeId = Some "" ->
     activeNodeId st' = None
     ∧ activePath st' = {| nodeIds := []; edgeIds := [] |})
  ∧ (∀ n, nodeId = Some n -> n ≠ "" ->
       activeNodeId st' = Some n
       ∧ getPathNodeIds fuel st n = Some (nodeIds (activePath st'))
       ∧ getPathEdgeIds fuel st n = Some (edgeIds (activePath st'))
       ∧ last (nodeIds (activePath st')) = Some n
       ∧ length (edgeIds (activePath st'))
         = length (nodeIds (activePath st')) - 1).
Proof.
  unfold setActiveNodeId. destruct (truthy nodeId) eqn:Htruthy.
  - destruct nodeId as [n|]; [|done].
    destruct (getPathNodeIds fuel st n) as [path|] eqn:Hpath; [|done].
    intros [= <- <-]. simpl. repeat (split; [done|]). split.
    + intros [Hnone | [= ->]]; done.
    + intros ? [= <-] Hne. split; [done|]. split; [done|].
      split; [unfold getPathEdgeIds; by rewrite Hpath|]. split.
      * unfold getPathNodeIds in Hpath.
        destruct (walkUp_ancestry _ _ _ _ _ Htruthy Hpath) as (l & Hanc & ->).
        rewrite app_nil_r. exact (ancestry_last _ _ _ Hanc).
      * apply linked_connectingEdgeIds. by eapply getPathNodeIds_linked.
  - intros [= <- <-]. simpl. repeat (split; [done|]).
    intros n -> Hne. apply truthy_Some_true in Hne. congruence.
Qed.

(** X5. [setActiveNodeId] with an absent or empty id always returns: it
    clears the active node and the active path, leaves everything else
    alone and asks for one save. With any other id it returns whenever
    the edges have no cycle: the id becomes the active node, the
    published path is the resolver's path for it, which ends in that id
    and holds one edge id fewer than node ids, nodes and edges are left
    alone and one save is asked for. On other graphs a call that returns
    has done the same. *)
Theorem setActiveNodeId_publishes (st : ChatState) (nodeId : option string) :
  (nodeId = None ∨ nodeId = Some "" ->
   ∀ fuel,
     setActiveNodeId fuel st nodeId
     = Some ({| nodes := nodes st; edges := edges st;
                chatManager := chatManager st;
                activeNodeId := None;
                activePath := {| nodeIds := []; edgeIds := [] |} |},
             [SaveToStorage]))
  ∧ (∀ n, nodeId = Some n -> n ≠ "" ->
       acyclic (edges st) ->
       ∃ fuel, ∀ fuel', fuel ≤ fuel' ->
         ∃ st',
           setActiveNodeId fuel' st nodeId = Some (st', [SaveToStorage])
           ∧ nodes st' = nodes st ∧ edges st' = edges st
           ∧ chatManager st' = chatManager st
           ∧ activeNodeId st' = Some n
           ∧ getPathNodeIds fuel' st n = Some (nodeIds (activePath st'))
           ∧ getPathEdgeIds fuel' st n = Some (edgeIds (activePath st'))
           ∧ last (nodeIds (activePath st')) = Some n
           ∧ length (edgeIds (activePath st'))
             = length (nodeIds (activePath st')) - 1)
  ∧ (∀ fuel st' effects n,
       nodeId = Some n -> n ≠ "" ->
       setActiveNodeId fuel st nodeId = Some (st', effects) ->
       effects = [SaveToStorage]
       ∧ nodes st' = nodes st ∧ edges st' = edges st
       ∧ activeNodeId st' = Some n
       ∧ getPathNodeIds fuel st n = Some (nodeIds (activePath st'))
       ∧ getPathEdgeIds fuel st n = Some (edgeIds (activePath st'))).
Proof.
  split; [|split].
  - intros Hfalsy fuel. unfold setActiveNodeId.
    by rewrite (proj2 (truthy_false nodeId) Hfalsy).
  - intros n -> Hne Hacyclic.
    destruct (walkUp_terminates (edges st) n (acyclic_Acc_up _ Hacyclic n))
      as [fuel Hfuel].
    exists fuel. intros fuel' Hle.
    destruct (Hfuel fuel' [] Hle) as [path Hpath].
    assert (Hreturns : is_Some (setActiveNodeId fuel' st (Some n))).
    { unfold setActiveNodeId, getPathNodeIds. rewrite Hpath.
      by destruct (truthy (Some n)). }
    destruct Hreturns as [[st' effects] Hres].
    destruct (setActiveNodeId_result _ _ _ _ _ Hres)
      as (Hnodes & Hedges & Hmanager & -> & _ & Hactive).
    destruct (Hactive n eq_refl Hne) as (Hid & Hpathn & Hpathe & Hlast & Hlen).
    exists st'. done.
  - intros fuel st' effects n -> Hne Hres.
    destruct (setActiveNodeId_result _ _ _ _ _ Hres)
      as (Hnodes & Hedges & _ & -> & _ & Hactive).
    destruct (Hactive n eq_refl Hne) as (Hid & Hpathn & Hpathe & _).
    done.
Qed.

End ActiveNode.

Section PathsAnywhereExamples.
Import Graph PathResolver Examples MoreExamples.

Lemma path_parent_is_last_edge_witness :
  "node-B" ≠ ""
  ∧ last (filter (fun e => edge_target e = "node-B") (edges twoParents))
    = Some (arrow "node-C" "node-B")
  ∧ edge_source (arrow "node-C" "node-B") ≠ ""
  ∧ getPathNodeIds 3 twoParents "node-B" = Some ["root"; "node-C"; "node-B"]
  ∧ ∃ above, ["root"; "node-C"; "node-B"]
             = above ++ [edge_source (arrow "node-C" "node-B"); "node-B"].
Proof.
  assert (Hlast : last (filter (fun e => edge_target e = "node-B")
                          (edges twoParents))
                  = Some (arrow "node-C" "node-B")) by (by vm_compute).
  assert (Hpath : getPathNodeIds 3 twoParents "node-B"
                  = Some ["root"; "node-C"; "node-B"]) by (by vm_compute).
  split; [done|]. split; [exact Hlast|]. split; [done|]. split; [exact Hpath|].
  exact (path_parent_is_last_edge twoParents "node-B" 3 _
           (arrow "node-C" "node-B") ltac:(done) Hlast ltac:(done) Hpath).
Defined.

Lemma path_resolver_terminates_witness :
  acyclic (edges treeExample)
  ∧ ∃ fuel, ∀ fuel', fuel ≤ fuel' ->
      is_Some (getPathNodeIds fuel' treeExample "node-B")
      ∧ is_Some (getPathEdgeIds fuel' treeExample "node-B")
      ∧ is_Some (getPathToNode fuel' treeExample "node-B")
      ∧ is_Some (setActiveNodeId fuel' treeExample (Some "node-B")).
Proof.
  split; [exact acyclic_treeExample|].
  exact (path_resolver_terminates treeExample "node-B" acyclic_treeExample).
Defined.

(** On a cycle the climb never ends. *)
Lemma getPathNodeIds_cycle_diverges fuel :
  getPathNodeIds fuel cycleExample "node-A" = None.
Proof.
  unfold getPathNodeIds.
  assert (HA : incomingMap (edges cycleExample) !! "node-A" = Some "node-B")
    by (by vm_compute).
  assert (HB : incomingMap (edges cycleExample) !! "node-B" = Some "node-A")
    by (by vm_compute).
  assert (Hloop : ∀ fuel path,
            walkUp fuel (incomingMap (edges cycleExample)) (Some "node-A") path = None
            ∧ walkUp fuel (incomingMap (edges cycleExample)) (Some "node-B") path = None).
  { clear fuel. induction fuel as [|fuel IH]; intros path.
    - split; by apply walkUp_no_fuel.
    - rewrite !walkUp_step, HA, HB by done. split; apply IH. }
  apply Hloop.
Qed.

Lemma getPathNodeIds_shape_witness :
  (∀ e, e ∈ edges treeExample -> edge_target e ≠ "stray")
  ∧ "stray" ≠ ""
  ∧ getPathNodeIds 1 treeExample "stray" = Some ["stray"].
Proof.
  assert (Hstray : ∀ e, e ∈ edges treeExample -> edge_target e ≠ "stray").
  { intros e He. simpl in He.
    repeat (apply elem_of_cons in He as [-> | He]; [done|]). by inversion He. }
  split; [exact Hstray|]. split; [done|].
  exact (proj1 (proj2 (getPathNodeIds_shape treeExample "stray" 0))
           Hstray ltac:(done)).
Defined.

Lemma getPathEdgeIds_joins_witness :
  getPathEdgeIds 3 treeExample "node-B"
  = Some ["e-root-node-A"; "e-node-A-node-B"]
  ∧ ∃ path,
      getPathNodeIds 3 treeExample "node-B" = Some path
      ∧ length ["e-root-node-A"; "e-node-A-node-B"] = length path - 1.
Proof.
  assert (Hedges : getPathEdgeIds 3 treeExample "node-B"
                   = Some ["e-root-node-A"; "e-node-A-node-B"])
    by (by vm_compute).
  split; [exact Hedges|].
  destruct (getPathEdgeIds_joins treeExample "node-B" 3 _ Hedges)
    as (path & Hpath & Hlen & _).
  by exists path.
Defined.

Lemma setActiveNodeId_publishes_witness :
  "node-C" ≠ ""
  ∧ acyclic (edges treeExample)
  ∧ (∃ fuel, ∀ fuel', fuel ≤ fuel' ->
       ∃ st',
         setActiveNodeId fuel' treeExample (Some "node-C")
         = Some (st', [SaveToStorage])
         ∧ activeNodeId st' = Some "node-C"
         ∧ last (nodeIds (activePath st')) = Some "node-C")
  ∧ ∃ st',
      setActiveNodeId 0 treeExample (Some "") = Some (st', [SaveToStorage])
      ∧ activeNodeId st' = None.
Proof.
  split; [done|]. split; [exact acyclic_treeExample|]. split.
  - destruct (proj1 (proj2 (setActiveNodeId_publishes treeExample
                              (Some "node-C")))
                "node-C" eq_refl ltac:(done) acyclic_treeExample)
      as [fuel Hfuel].
    exists fuel. intros fuel' Hle.
    destruct (Hfuel fuel' Hle)
      as (st' & Hres & _ & _ & _ & Hid & _ & _ & Hlast & _).
    by exists st'.
  - eexists.
    split; [exact (proj1 (setActiveNodeId_publishes treeExample (Some ""))
                     (or_intror eq_refl) 0)|reflexivity].
Defined.

(** On a cycle through the id the call never returns, and never saves. *)
Lemma setActiveNodeId_cycle_diverges fuel :
  setActiveNodeId fuel cycleExample (Some "node-A") = None.
Proof.
  unfold setActiveNodeId. simpl truthy. cbv iota.
  by rewrite getPathNodeIds_cycle_diverges.
Qed.

End PathsAnywhereExamples.

(** ** Graph mutator: effects, frame and composition *)

Section SetsStayDuplicateFree.
Import Graph Mutator.

Lemma JSSet_add_NoDup s x : NoDup s -> NoDup (JSSet.add s x).
Proof.
  intros Hs. unfold JSSet.add. destruct (JSSet.has s x) eqn:Hhas; [done|].
  apply JSSet_has_false in Hhas. apply NoDup_app. split; [done|]. split.
  - intros y Hy Hx. apply list_elem_of_singleton in Hx. by subst.
  - apply NoDup_singleton.
Qed.

Lemma JSSet_add_all_NoDup s l : NoDup s -> NoDup (foldl JSSet.add s l).
Proof.
  revert s. induction l as [|x l IH]; intros s Hs; simpl; [done|].
  by apply IH, JSSet_add_NoDup.
Qed.

Lemma markRemoval_NoDup changes rm :
  NoDup rm -> NoDup (foldl markRemoval rm changes).
Proof.
  revert rm. induction changes as [|c changes IH]; intros rm Hrm; simpl; [done|].
  apply IH. destruct c; simpl; try done.
  destruct (String.eqb id "root"); [done|by apply JSSet_add_NoDup].
Qed.

Lemma scanGuarded_NoDup cur es acc :
  NoDup acc.1 -> NoDup (foldl (visitGuarded cur) acc es).1.
Proof.
  revert acc. induction es as [|e es IH]; intros acc Hacc; simpl; [done|].
  apply IH. unfold visitGuarded.
  destruct (String.eqb (edge_source e) cur); [|done].
  destruct (JSSet.has acc.1 (edge_target e)); [done|]. simpl.
  by apply JSSet_add_NoDup.
Qed.

Lemma collectGuarded_NoDup fuel es queue seen res :
  collectGuarded fuel es queue seen = Some res -> NoDup seen -> NoDup res.
Proof.
  unfold collectGuarded. revert queue seen.
  induction fuel as [|fuel IH]; intros queue seen;
    destruct queue as [|cur rest]; simpl; try done.
  - by intros [= ->].
  - by intros [= ->].
  - intros Hres Hseen. apply (IH _ _ Hres). by apply scanGuarded_NoDup.
Qed.

Lemma bfilter_all {A} (f : A -> bool) (l : list A) :
  (∀ x, x ∈ l -> f x = true) -> List.filter f l = l.
Proof.
  induction l as [|a l IH]; intros Hall; simpl; [done|].
  rewrite (Hall a) by (by left). f_equal. apply IH.
  intros x Hx. apply Hall. by right.
Qed.

Lemma set_nodes_edges_same (st : ChatState) :
  set_nodes_edges st (nodes st) (edges st) = st.
Proof. by destruct st. Qed.

End SetsStayDuplicateFree.

Section MutatorEffects.
Import Graph Mutator.

Variable applyNodeChanges : list NodeChange -> list Node -> list Node.

(** X6. [onNodesChange] removes the nodes named by the remove requests of
    the batch, root excepted, together with all their strict descendants,
    and every edge that touches one of them; the other nodes are what the
    library's [applyNodeChanges] is given, and root is appended to its
    answer when the answer holds none. Each removed node has its thread
    released exactly once when a chat manager is present, and no save is
    requested. *)
Theorem onNodesChange_removes_subtrees
    (st : ChatState) (changes : list NodeChange) (fuel : nat) :
  length changes + length (edges st) ≤ fuel ->
  ∃ removed,
    NoDup removed
    ∧ (∀ y, y ∈ removed
            <-> (NodeRemoveChange y ∈ changes ∧ y ≠ "root")
                ∨ ∃ x, (NodeRemoveChange x ∈ changes ∧ x ≠ "root")
                       ∧ descendant (edges st) x y)
    ∧ onNodesChange applyNodeChanges fuel st changes
      = Some (set_nodes_edges st
                (let applied :=
                   applyNodeChanges changes
                     (List.filter (keepNode removed) (nodes st)) in
                 if hasRoot applied then applied else applied ++ [ROOT_NODE])
                (List.filter (keepEdge removed) (edges st)),
              if chatManager st then DeleteThread <$> removed else []).
Proof.
  intros Hfuel. unfold onNodesChange.
  set (requested := foldl markRemoval JSSet.empty changes).
  assert (Hnodup : NoDup requested)
    by (apply markRemoval_NoDup; constructor).
  assert (Hreq : ∀ y, y ∈ requested
                      <-> NodeRemoveChange y ∈ changes ∧ y ≠ "root").
  { intros y. unfold requested. rewrite markRemoval_elem_of.
    split; [|by right]. intros [Hnil|?]; [by inversion Hnil|done]. }
  destruct (Nat.ltb_spec 0 (JSSet.size requested)) as [Hsome|Hnone].
  - destruct (collectGuarded_total fuel (edges st) requested JSSet.empty)
      as [descendants Hres].
    { pose proof (markRemoval_length changes JSSet.empty) as Hlen.
      fold requested in Hlen. simpl in Hlen. lia. }
    rewrite Hres. exists (foldl JSSet.add requested descendants).
    split; [by apply JSSet_add_all_NoDup|]. split; [|reflexivity].
    intros y. rewrite JSSet_elem_of_add_all, Hreq.
    rewrite (collectGuarded_descendants _ _ _ _ Hres).
    split; (intros [?|(x & Hx & Hd)]; [by left|right; exists x]);
      split; try done; by apply Hreq.
  - exists requested. split; [done|]. split.
    + intros y. rewrite Hreq. split; [by left|].
      intros [?|(x & Hx%Hreq & _)]; [done|].
      destruct requested; [by inversion Hx|simpl in Hnone; lia].
    + destruct requested as [|x requested']; [|simpl in Hnone; lia].
      by destruct (chatManager st).
Qed.

End MutatorEffects.

Section MutatorFrame.
Import Graph PathResolver Mutator.

(** X7. [deleteNodeAndDescendants] on a node other than root releases the
    thread of every removed node exactly once, the node's own first, when
    a chat manager is present, and none otherwise; the last effect, and
    the only save, is the save that follows the update. *)
Theorem deleteNodeAndDescendants_releases_threads
    (st : ChatState) (nodeId : string) (fuel : nat) :
  nodeId ≠ "root" ->
  S (length (edges st)) ≤ fuel ->
  ∃ st' removed,
    deleteNodeAndDescendants fuel st nodeId
    = Some (st', (if chatManager st then DeleteThread <$> removed else [])
                 ++ [SaveToStorage])
    ∧ NoDup removed
    ∧ head removed = Some nodeId
    ∧ ∀ y, y ∈ removed <-> y = nodeId ∨ descendant (edges st) nodeId y.
Proof.
  intros Hne Hfuel. unfold deleteNodeAndDescendants.
  rewrite (proj2 (String.eqb_neq _ _) Hne).
  destruct (collectGuarded_total fuel (edges st) [nodeId] [nodeId])
    as [res Hres]; [simpl; lia|].
  rewrite Hres. eexists _, res. split; [reflexivity|].
  split; [|split].
  - apply (collectGuarded_NoDup _ _ _ _ _ Hres), NoDup_singleton.
  - assert (Hprefix : ∀ fuel es queue seen res,
              collectGuarded fuel es queue seen = Some res ->
              ∃ more, res = seen ++ more).
    { clear. unfold collectGuarded.
      induction fuel as [|fuel IH]; intros es queue seen res;
        destruct queue as [|cur rest]; simpl; try done.
      - intros [= ->]. exists []. by rewrite app_nil_r.
      - intros [= ->]. exists []. by rewrite app_nil_r.
      - intros Hres. destruct (IH _ _ _ _ Hres) as [more ->].
        assert (Hscan : ∀ es' acc,
                  ∃ extra, (foldl (visitGuarded cur) acc es').1 = acc.1 ++ extra).
        { clear. induction es' as [|e es' IH]; intros acc; simpl.
          - exists []. by rewrite app_nil_r.
          - destruct (IH (visitGuarded cur acc e)) as [extra ->].
            unfold visitGuarded.
            destruct (String.eqb (edge_source e) cur); [|by exists extra].
            destruct (JSSet.has acc.1 (edge_target e)) eqn:Hhas;
              [by exists extra|]. simpl. unfold JSSet.add. rewrite Hhas.
            exists ([edge_target e] ++ extra). by rewrite app_assoc. }
        destruct (Hscan es (seen, rest)) as [extra ->]. simpl.
        exists (extra ++ more). by rewrite app_assoc. }
    destruct (Hprefix _ _ _ _ _ Hres) as [more ->]. done.
  - exact (collectGuarded_subtree _ _ _ _ Hres).
Qed.

(** Deleting or resetting with an id that names no node and no end of
    any edge changes neither nodes nor edges; the delete still asks the
    chat manager to release a thread for that id, and both still save. *)
Theorem unknown_id_changes_nothing
    (st : ChatState) (nodeId : string) (fuel : nat) :
  nodeId ∉ ids (nodes st) ->
  (∀ e, e ∈ edges st -> edge_source e ≠ nodeId ∧ edge_target e ≠ nodeId) ->
  1 ≤ fuel ->
  (nodeId ≠ "root" ->
   deleteNodeAndDescendants fuel st nodeId
   = Some (st, (if chatManager st then [DeleteThread nodeId] else [])
               ++ [SaveToStorage]))
  ∧ resetNode fuel st nodeId = Some (st, [SaveToStorage]).
Proof.
  intros Hnode Hedge Hfuel. destruct fuel as [|fuel]; [lia|].
  assert (Hscan : ∀ visit, visitSpec visit -> ∀ es acc,
            (∀ e, e ∈ es -> edge_source e ≠ nodeId) ->
            foldl (visit nodeId) acc es = acc).
  { intros visit Hv. induction es as [|e es IH]; intros acc Hes; simpl; [done|].
    rewrite (vs_other _ Hv) by (apply Hes; by left).
    apply IH. intros e' He'. apply Hes. by right. }
  assert (Hsources : ∀ e, e ∈ edges st -> edge_source e ≠ nodeId)
    by (intros e He; by apply Hedge).
  split.
  - intros Hne. unfold deleteNodeAndDescendants, collectGuarded.
    rewrite (proj2 (String.eqb_neq _ _) Hne). simpl.
    rewrite (Hscan _ visitGuarded_spec) by done. simpl.
    destruct fuel; simpl.
    all: rewrite !bfilter_all, set_nodes_edges_same.
    all: try (by unfold deleteThreads; destruct (chatManager st)).
    all: try (intros e He; apply keepEdge_true;
              destruct (Hedge e He) as [Hs Ht];
              split; intros Hin%list_elem_of_singleton; done).
    all: intros n Hn; apply keepNode_true;
      intros Hin%list_elem_of_singleton; apply Hnode; rewrite <- Hin;
      by apply list_elem_of_fmap_2.
  - unfold resetNode, collectAll. simpl.
    rewrite (Hscan _ visitAll_spec) by done. simpl.
    assert (Hmap : map (fun node => if String.eqb (node_id node) nodeId
                                    then clearedNode node else node) (nodes st)
                   = nodes st).
    { rewrite <- (map_id (nodes st)) at 2. apply map_ext_in.
      intros n Hn%list_elem_of_In.
      destruct (String.eqb_spec (node_id n) nodeId) as [Heq|]; [|done].
      exfalso. apply Hnode. rewrite <- Heq. by apply list_elem_of_fmap_2. }
    destruct fuel; simpl; rewrite Hmap, !bfilter_all, set_nodes_edges_same;
      done.
Qed.

End MutatorFrame.

(** ** The tree invariant and the paths under mutation *)

Section TreeIsKept.
Import Graph PathResolver Mutator.

Variable addEdge : Edge -> list Edge -> list Edge.
Variable nanoid : string.

(** X8. [createNodeAndEdge] keeps the tree invariant, and when the source
    exists the node it creates is a leaf below the source: the source is
    joined to it by an edge and no edge leaves it. *)
Theorem createNodeAndEdge_keeps_tree
    (st st' : ChatState) (sourceNodeId title newId : string) (kind : NodeKind)
    (fuel : nat) (effects : list Effect) :
  treeState st ->
  addEdgeContract addEdge ->
  nanoid ≠ "" ->
  nanoid ∉ ids (nodes st) ->
  createNodeAndEdge addEdge nanoid fuel st sourceNodeId title kind
  = Some (newId, st', effects) ->
  treeState st'
  ∧ (sourceNodeId ∈ ids (nodes st) ->
     newId = nanoid
     ∧ edgeRel (edges st') sourceNodeId nanoid
     ∧ ∀ y, ¬ edgeRel (edges st') nanoid y).
Proof.
  intros Htree Hadd Hnonempty Hfresh Hcreate.
  split; [by eapply createNodeAndEdge_treeState|].
  intros Hsource. unfold createNodeAndEdge in Hcreate.
  destruct (findNode_Some _ _ Hsource) as (sourceNode & Hfind & _ & _).
  rewrite Hfind in Hcreate.
  destruct (getPathToNode fuel st sourceNodeId); [|done].
  rewrite addEdge_newEdge in Hcreate by done.
  injection Hcreate as <- <- _. split; [done|]. simpl. split.
  - exists (newEdge nanoid sourceNodeId). split; [|done].
    apply elem_of_app. right. by left.
  - intros y (e & [He | ->%list_elem_of_singleton]%elem_of_app & Hs & _).
    + apply Hfresh. rewrite <- Hs. by apply (ts_closed _ Htree e He).
    + simpl in Hs. apply Hfresh. by rewrite <- Hs.
Qed.

End TreeIsKept.

Section CascadeIsKept.
Import Graph PathResolver Mutator.

Lemma ids_bfilter_subset (f : Node -> bool) (ns : list Node) x :
  x ∈ ids (List.filter f ns) -> x ∈ ids ns.
Proof.
  unfold ids. rewrite !list_elem_of_fmap.
  intros (n & -> & [Hn _]%elem_of_bfilter). eauto.
Qed.

(** X9. [deleteNodeAndDescendants] keeps the tree invariant and adds no
    node. *)
Theorem deleteNodeAndDescendants_keeps_tree
    (st st' : ChatState) (nodeId : string) (fuel : nat) (effects : list Effect) :
  treeState st ->
  deleteNodeAndDescendants fuel st nodeId = Some (st', effects) ->
  treeState st' ∧ ∀ x, x ∈ ids (nodes st') -> x ∈ ids (nodes st).
Proof.
  intros Htree Hdelete.
  split; [by eapply deleteNodeAndDescendants_treeState|].
  unfold deleteNodeAndDescendants in Hdelete.
  destruct (String.eqb nodeId "root"); [by injection Hdelete as <- _|].
  destruct (collectGuarded _ _ _ _); [|done]. injection Hdelete as <- _.
  intros x. apply ids_bfilter_subset.
Qed.

(** X10. [resetNode] keeps the tree invariant, adds no node, and leaves the
    node it resets without children. *)
Theorem resetNode_keeps_tree
    (st st' : ChatState) (nodeId : string) (fuel : nat) (effects : list Effect) :
  treeState st ->
  resetNode fuel st nodeId = Some (st', effects) ->
  treeState st'
  ∧ (∀ x, x ∈ ids (nodes st') -> x ∈ ids (nodes st))
  ∧ ∀ y, ¬ edgeRel (edges st') nodeId y.
Proof.
  intros Htree Hreset.
  split; [by eapply resetNode_treeState|].
  unfold resetNode in Hreset.
  destruct (collectAll fuel (edges st) [nodeId] JSSet.empty) as [res|] eqn:Hres;
    [|done].
  injection Hreset as <- _. simpl. split.
  - intros x Hx%ids_bfilter_subset. revert Hx. unfold ids.
    rewrite map_map, !list_elem_of_fmap. intros (n & -> & Hn).
    exists n. split; [|done]. by destruct (String.eqb (node_id n) nodeId).
  - intros y (e & He & Hs & Ht).
    apply elem_of_bfilter in He as [He Hkeep].
    apply andb_true_iff in Hkeep as [Hkept%negb_true_iff%JSSet_has_false _].
    apply Hkept, (collectAll_descendants _ _ _ _ Hres).
    apply tc_once. by exists e.
Qed.

(** X11. [deleteNodeAndDescendants] never updates the active node or the
    active path: when the active node is the deleted node or one of its
    descendants, the state that results names an active node that is no
    longer among its nodes. *)
Theorem deleteNodeAndDescendants_keeps_active
    (st st' : ChatState) (nodeId : string) (fuel : nat) (effects : list Effect) :
  deleteNodeAndDescendants fuel st nodeId = Some (st', effects) ->
  activeNodeId st' = activeNodeId st
  ∧ activePath st' = activePath st
  ∧ ∀ active,
      nodeId ≠ "root" ->
      activeNodeId st = Some active ->
      active = nodeId ∨ descendant (edges st) nodeId active ->
      activeNodeId st' = Some active ∧ active ∉ ids (nodes st').
Proof.
  unfold deleteNodeAndDescendants.
  destruct (String.eqb_spec nodeId "root") as [->|Hne].
  - intros [= <- _]. by repeat split.
  - destruct (collectGuarded fuel (edges st) [nodeId] [nodeId]) as [res|] eqn:Hres;
      [|done].
    intros [= <- _]. simpl. split; [done|]. split; [done|].
    intros active _ Hactive Hremoved. split; [done|].
    unfold ids. intros (n & -> & Hn)%list_elem_of_fmap.
    apply elem_of_bfilter in Hn as [_ Hkeep%keepNode_true].
    by apply Hkeep, (collectGuarded_subtree _ _ _ _ Hres).
Qed.

(** X12. A second [resetNode] on the same node changes nothing: the state
    that the first one returns is returned again. *)
Theorem resetNode_twice
    (st st' : ChatState) (nodeId : string) (fuel fuel' : nat)
    (effects : list Effect) :
  resetNode fuel st nodeId = Some (st', effects) ->
  1 ≤ fuel' ->
  resetNode fuel' st' nodeId = Some (st', [SaveToStorage]).
Proof.
  intros Hreset Hfuel. unfold resetNode in Hreset.
  destruct (collectAll fuel (edges st) [nodeId] JSSet.empty) as [res|] eqn:Hres;
    [|done].
  injection Hreset as <- _.
  pose proof (collectAll_descendants _ _ _ _ Hres) as Hin.
  set (clear := fun node : Node =>
                  if String.eqb (node_id node) nodeId
                  then clearedNode node else node).
  set (es' := List.filter _ (edges st)).
  set (ns' := List.filter (keepNode res) (map clear (nodes st))).
  assert (Hchildless : children es' nodeId = []).
  { apply elem_of_nil_inv. intros y (e & He & Hs & Ht)%edgeRel_children.
    apply elem_of_bfilter in He as [He Hkeep].
    apply andb_true_iff in Hkeep as [Hkept%negb_true_iff%JSSet_has_false _].
    apply Hkept, Hin, tc_once. by exists e. }
  assert (Hclear : map clear ns' = ns').
  { rewrite <- (map_id ns') at 2. apply map_ext_in.
    intros n Hn%list_elem_of_In. unfold ns' in Hn.
    apply elem_of_bfilter in Hn as [Hn _].
    apply list_elem_of_fmap in Hn as (n0 & -> & _). unfold clear.
    destruct (String.eqb (node_id n0) nodeId) eqn:Hid; simpl; rewrite Hid; done. }
  destruct fuel' as [|fuel']; [lia|].
  unfold resetNode, collectAll.
  rewrite drainQueue_step, scanAll_children. cbn [edges set_nodes_edges].
  fold es'. rewrite Hchildless. simpl foldl. rewrite app_nil_r.
  destruct fuel'; cbn [drainQueue fst snd nodes edges set_nodes_edges];
    fold clear; fold ns'; rewrite Hclear, !bfilter_all; done.
Qed.

End CascadeIsKept.

(** ** Paths across a mutation *)

Section PathsAcrossMutation.
Import Graph PathResolver Mutator.

Implicit Types (es : list Edge) (incoming : gmap string string).

Lemma walkUp_app fuel incoming cur p1 p2 :
  walkUp fuel incoming cur (p1 ++ p2)
  = (fun res => res ++ p2) <$> walkUp fuel incoming cur p1.
Proof.
  revert cur p1. induction fuel as [|fuel IH]; intros cur p1.
  - destruct (truthy cur) eqn:Hcur.
    + destruct cur as [c|]; [|done]. by rewrite !walkUp_no_fuel.
    + by rewrite !walkUp_stop.
  - destruct (truthy cur) eqn:Hcur.
    + destruct cur as [c|]; [|done]. rewrite !walkUp_step by done.
      apply (IH _ (c :: p1)).
    + by rewrite !walkUp_stop.
Qed.

(** Two maps that agree wherever the climb can come give the same climb. *)
Lemma walkUp_agree (P : string -> Prop) fuel incoming1 incoming2 cur path :
  (∀ c, P c -> incoming1 !! c = incoming2 !! c) ->
  (∀ c p, P c -> incoming1 !! c = Some p -> P p) ->
  (∀ c, cur = Some c -> P c) ->
  walkUp fuel incoming1 cur path = walkUp fuel incoming2 cur path.
Proof.
  intros Hagree Hclosed. revert cur path.
  induction fuel as [|fuel IH]; intros cur path Hcur.
  - destruct (truthy cur) eqn:Ht.
    + destruct cur as [c|]; [|done]. by rewrite !walkUp_no_fuel.
    + by rewrite !walkUp_stop.
  - destruct (truthy cur) eqn:Ht.
    + destruct cur as [c|]; [|done]. rewrite !walkUp_step by done.
      rewrite <- (Hagree c) by by apply Hcur. apply IH.
      intros p Hp. apply (Hclosed c); [by apply Hcur|done].
    + by rewrite !walkUp_stop.
Qed.

Lemma ancestry_members incoming c l :
  ancestry incoming c l ->
  ∀ x, x ∈ l -> x = c ∨ ∃ k, incoming !! k = Some x.
Proof.
  induction 1 as [c Htc Htop | c p l Htc Hlook Htp Hanc IH]; intros x.
  - intros ->%list_elem_of_singleton. by left.
  - intros [Hx | ->%list_elem_of_singleton]%elem_of_app; [|by left].
    right. destruct (IH x Hx) as [-> | Hk]; [by exists c|done].
Qed.

Lemma find_bfilter {A} (p keep : A -> bool) (l : list A) :
  (∀ a, a ∈ l -> p a = true -> keep a = true) ->
  List.find p (List.filter keep l) = List.find p l.
Proof.
  induction l as [|a l IH]; intros Hkeep; [done|]. simpl.
  assert (Hrest : ∀ b, b ∈ l -> p b = true -> keep b = true).
  { intros b Hb. apply Hkeep. by right. }
  destruct (p a) eqn:Hp.
  - rewrite (Hkeep a) by (by left || done). simpl. by rewrite Hp.
  - destruct (keep a); simpl; [rewrite Hp|]; by apply IH.
Qed.

Lemma find_snoc {A} (p : A -> bool) (l : list A) (a : A) :
  List.find p (l ++ [a])
  = match List.find p l with
    | Some b => Some b
    | None => if p a then Some a else None
    end.
Proof.
  induction l as [|b l IH]; simpl; [done|]. by destruct (p b).
Qed.

Lemma connectingEdgeIds_ext es1 es2 path :
  (∀ x y, x ∈ path -> y ∈ path -> findEdge es1 x y = findEdge es2 x y) ->
  connectingEdgeIds es1 path = connectingEdgeIds es2 path.
Proof.
  induction path as [|x [|y rest] IH]; intros Hsame; [done|done|].
  change (connectingEdgeIds es1 (x :: y :: rest))
    with (match findEdge es1 x y with
          | Some e => edge_id e :: connectingEdgeIds es1 (y :: rest)
          | None => connectingEdgeIds es1 (y :: rest)
          end).
  change (connectingEdgeIds es2 (x :: y :: rest))
    with (match findEdge es2 x y with
          | Some e => edge_id e :: connectingEdgeIds es2 (y :: rest)
          | None => connectingEdgeIds es2 (y :: rest)
          end).
  rewrite Hsame by (by repeat constructor). rewrite IH; [done|].
  intros a b Ha Hb. apply Hsame; by right.
Qed.

Lemma connectingEdgeIds_snoc es e path :
  (∀ e', e' ∈ es -> edge_target e' ≠ edge_target e) ->
  (∀ x, x ∈ path -> x ≠ edge_target e) ->
  last path = Some (edge_source e) ->
  connectingEdgeIds (es ++ [e]) (path ++ [edge_target e])
  = connectingEdgeIds es path ++ [edge_id e].
Proof.
  intros Hfresh. induction path as [|x [|y rest] IH]; intros Hother Hlast.
  - done.
  - injection Hlast as ->. simpl. unfold findEdge. rewrite find_snoc.
    destruct (List.find _ es) as [e'|] eqn:Hfind.
    + apply find_some in Hfind as [He' [_ Ht%String.eqb_eq]%andb_true_iff].
      exfalso. by apply (Hfresh e'); [apply list_elem_of_In|].
    + by rewrite !String.eqb_refl.
  - change (connectingEdgeIds (es ++ [e]) ((x :: y :: rest) ++ [edge_target e]))
      with (match findEdge (es ++ [e]) x y with
            | Some e' => edge_id e' :: connectingEdgeIds (es ++ [e])
                                         ((y :: rest) ++ [edge_target e])
            | None => connectingEdgeIds (es ++ [e]) ((y :: rest) ++ [edge_target e])
            end).
    change (connectingEdgeIds es (x :: y :: rest))
      with (match findEdge es x y with
            | Some e' => edge_id e' :: connectingEdgeIds es (y :: rest)
            | None => connectingEdgeIds es (y :: rest)
            end).
    assert (Hxy : findEdge (es ++ [e]) x y = findEdge es x y).
    { unfold findEdge. rewrite find_snoc. destruct (List.find _ es); [done|].
      destruct (String.eqb_spec (edge_target e) y) as [Heq|Hne].
      - exfalso. apply (Hother y); [by repeat constructor|done].
      - by rewrite andb_false_r. }
    rewrite Hxy, IH.
    + by destruct (findEdge es x y).
    + intros z Hz. apply Hother. by right.
    + done.
Qed.

Lemma nodeMessages_snoc_blank (ns : list Node) (node : Node) x :
  chatHistory (node_data node) = [] ->
  nodeMessages (ns ++ [node]) x = nodeMessages ns x.
Proof.
  intros Hblank. unfold nodeMessages, findNode. rewrite find_snoc.
  destruct (List.find _ ns); [done|].
  destruct (String.eqb (node_id node) x); [by rewrite Hblank|done].
Qed.

Lemma incomingMap_bfilter (keep : Edge -> bool) es c :
  (∀ e, e ∈ es -> edge_target e = c -> keep e = true) ->
  incomingMap (List.filter keep es) !! c = incomingMap es !! c.
Proof.
  intros Hkeep. rewrite !incomingMap_lookup. do 2 f_equal.
  induction es as [|e es IH]; [done|]. simpl.
  assert (Hrest : ∀ e', e' ∈ es -> edge_target e' = c -> keep e' = true).
  { intros e' He'. apply Hkeep. by right. }
  destruct (decide (edge_target e = c)) as [Heq|Hne].
  - rewrite (Hkeep e) by (by left || done).
    rewrite !filter_cons_True by done. f_equal. by apply IH.
  - rewrite (filter_cons_False _ e es) by done.
    destruct (keep e); [rewrite filter_cons_False by done|]; by apply IH.
Qed.

Section Create.

Variable addEdge : Edge -> list Edge -> list Edge.
Variable nanoid : string.

(** X13. The path of a node that [createNodeAndEdge] has just made is the
    path of its source followed by the new node, its edge path is the
    source's followed by the new edge, and the messages along it are
    those along the source's path. Here the new id is fresh: no node has
    it and no edge mentions it. *)
Theorem createNodeAndEdge_extends_path
    (st st' : ChatState) (sourceNodeId title : string) (kind : NodeKind)
    (fuel fuel' : nat) (effects : list Effect) (path : list string) :
  addEdgeContract addEdge ->
  sourceNodeId ≠ "" ->
  nanoid ≠ "" ->
  nanoid ∉ ids (nodes st) ->
  (∀ e, e ∈ edges st -> edge_source e ≠ nanoid ∧ edge_target e ≠ nanoid) ->
  createNodeAndEdge addEdge nanoid fuel st sourceNodeId title kind
  = Some (nanoid, st', effects) ->
  getPathNodeIds fuel' st sourceNodeId = Some path ->
  getPathNodeIds (S fuel') st' nanoid = Some (path ++ [nanoid])
  ∧ getPathEdgeIds (S fuel') st' nanoid
    = Some (connectingEdgeIds (edges st) path
            ++ ["e-" +:+ sourceNodeId +:+ "-" +:+ nanoid])
  ∧ getPathToNode (S fuel') st' nanoid = getPathToNode fuel' st sourceNodeId.
Proof.
  intros Hadd Hsource Hnonempty Hfresh Hunused Hcreate Hpath.
  assert (Hne : sourceNodeId ≠ nanoid).
  { intros ->. unfold createNodeAndEdge in Hcreate.
    rewrite (proj2 (findNode_None _ _) Hfresh) in Hcreate.
    injection Hcreate as Hid _ _. by apply Hnonempty. }
  unfold createNodeAndEdge in Hcreate.
  destruct (findNode (nodes st) sourceNodeId) as [sourceNode|];
    [|injection Hcreate as Hid _ _; by destruct Hnonempty].
  destruct (getPathToNode fuel st sourceNodeId) as [pathToSource|]; [|done].
  assert (Hedges : addEdge (newEdge nanoid sourceNodeId) (edges st)
                   = edges st ++ [newEdge nanoid sourceNodeId]).
  { apply Hadd; [done|done|]. intros e' He' [_ Ht].
    by apply (Hunused e' He'). }
  rewrite Hedges in Hcreate. injection Hcreate as <- _.
  assert (Htruthy : ∀ x, x ≠ "" -> truthy (Some x) = true).
  { intros x Hx. simpl. by apply negb_true_iff, String.eqb_neq. }
  assert (Hnew : getPathNodeIds (S fuel')
                   (set_nodes_edges st
                      (nodes st ++ [newNode nanoid sourceNode title kind])
                      (edges st ++ [newEdge nanoid sourceNodeId])) nanoid
                 = Some (path ++ [nanoid])).
  { unfold getPathNodeIds. cbn [edges set_nodes_edges].
    rewrite incomingMap_snoc. cbn [edge_target edge_source newEdge].
    rewrite walkUp_step, lookup_insert_eq by by apply Htruthy.
    rewrite (walkUp_agree (fun c => c ≠ nanoid) _ _ (incomingMap (edges st))).
    - rewrite (walkUp_app _ _ _ [] [nanoid]).
      unfold getPathNodeIds in Hpath. by rewrite Hpath.
    - intros c Hc. by rewrite lookup_insert_ne.
    - intros c p Hc. rewrite lookup_insert_ne by done.
      intros (e & He & <- & _)%incomingMap_Some. by apply (Hunused e He).
    - by intros c [= <-]. }
  assert (Hmembers : ∀ x, x ∈ path -> x ≠ nanoid).
  { unfold getPathNodeIds in Hpath.
    destruct (walkUp_ancestry _ _ _ _ _ (Htruthy _ Hsource) Hpath)
      as (l & Hl & ->). rewrite app_nil_r.
    intros x Hx. destruct (ancestry_members _ _ _ Hl x Hx) as [-> | [k Hk]];
      [done|].
    apply incomingMap_Some in Hk as (e & He & <- & _). by apply (Hunused e He). }
  assert (Hlast : last path = Some sourceNodeId).
  { unfold getPathNodeIds in Hpath.
    destruct (walkUp_ancestry _ _ _ _ _ (Htruthy _ Hsource) Hpath)
      as (l & Hl & ->). rewrite app_nil_r. exact (ancestry_last _ _ _ Hl). }
  split; [exact Hnew|]. split.
  - unfold getPathEdgeIds. rewrite Hnew. cbn [edges set_nodes_edges]. f_equal.
    apply (connectingEdgeIds_snoc (edges st) (newEdge nanoid sourceNodeId));
      [|done|done].
    intros e' He'. by apply (Hunused e' He').
  - unfold getPathToNode. rewrite Hnew, Hpath. cbn [nodes set_nodes_edges].
    f_equal. rewrite map_app, concat_app. simpl.
    rewrite (nodeMessages_snoc_blank _ _ nanoid) by done.
    unfold nodeMessages at 2.
    rewrite (proj2 (findNode_None _ _) Hfresh). simpl. rewrite app_nil_r.
    f_equal. apply map_ext. intros x. by apply nodeMessages_snoc_blank.
Qed.

End Create.

(** X14. [deleteNodeAndDescendants] does not disturb what survives: for
    a node that is neither the deleted node nor below it, the node path,
    the edge path and the messages along the path are the same after the
    deletion as before. *)
Theorem deleteNodeAndDescendants_keeps_paths
    (st st' : ChatState) (nodeId target : string) (fuel fuel' : nat)
    (effects : list Effect) :
  deleteNodeAndDescendants fuel st nodeId = Some (st', effects) ->
  target ≠ nodeId ->
  ¬ descendant (edges st) nodeId target ->
  getPathNodeIds fuel' st' target = getPathNodeIds fuel' st target
  ∧ getPathEdgeIds fuel' st' target = getPathEdgeIds fuel' st target
  ∧ getPathToNode fuel' st' target = getPathToNode fuel' st target.
Proof.
  unfold deleteNodeAndDescendants.
  destruct (String.eqb nodeId "root"); [by intros [= <- _]|].
  destruct (collectGuarded fuel (edges st) [nodeId] [nodeId]) as [removed|] eqn:Hres;
    [|done].
  intros [= <- _] Hne Hnot.
  pose proof (collectGuarded_subtree _ _ _ _ Hres) as Hin.
  assert (Htarget : target ∉ removed).
  { rewrite Hin. by intros [?|?]. }
  assert (Hdown : ∀ e, e ∈ edges st -> edge_target e ∉ removed ->
                       edge_source e ∉ removed).
  { intros e He Ht Hs. apply Ht, Hin. right.
    assert (Hedge : edgeRel (edges st) (edge_source e) (edge_target e))
      by by exists e.
    apply Hin in Hs as [Hs | Hs].
    - rewrite <- Hs. by apply tc_once.
    - by eapply tc_r. }
  assert (Hnodes : getPathNodeIds fuel'
                     (set_nodes_edges st
                        (List.filter (keepNode removed) (nodes st))
                        (List.filter (keepEdge removed) (edges st))) target
                   = getPathNodeIds fuel' st target).
  { unfold getPathNodeIds. cbn [edges set_nodes_edges].
    assert (Hagree : ∀ c, c ∉ removed ->
              incomingMap (List.filter (keepEdge removed) (edges st)) !! c
              = incomingMap (edges st) !! c).
    { intros c Hc. apply incomingMap_bfilter. intros e He Ht.
      apply keepEdge_true. rewrite <- Ht in Hc. split; [by apply Hdown|done]. }
    apply (walkUp_agree (fun c => c ∉ removed)).
    - exact Hagree.
    - intros c p Hc. rewrite Hagree by done.
      intros (e & He & <- & <-)%incomingMap_Some. by apply Hdown.
    - by intros c [= <-]. }
  split; [exact Hnodes|].
  destruct (getPathNodeIds fuel' st target) as [path|] eqn:Hpath.
  - assert (Hmembers : ∀ x, x ∈ path -> x ∉ removed).
    { unfold getPathNodeIds in Hpath.
      destruct (truthy (Some target)) eqn:Htruthy.
      - destruct (walkUp_ancestry _ _ _ _ _ Htruthy Hpath) as (l & Hl & ->).
        rewrite app_nil_r.
        assert (Hup : ∀ c l, ancestry (incomingMap (edges st)) c l ->
                  c ∉ removed -> ∀ x, x ∈ l -> x ∉ removed).
        { clear -Hdown.
          induction 1 as [c Htc Htop | c p l Htc Hlook Htp Hanc IH];
            intros Hc x.
          - by intros ->%list_elem_of_singleton.
          - intros [Hx | ->%list_elem_of_singleton]%elem_of_app; [|done].
            apply IH; [|done].
            apply incomingMap_Some in Hlook as (e & He & <- & <-).
            by apply Hdown. }
        by apply (Hup target).
      - rewrite walkUp_stop in Hpath by done. injection Hpath as <-.
        by intros x Hx%elem_of_nil. }
    unfold getPathEdgeIds, getPathToNode. rewrite Hnodes, Hpath.
    cbn [nodes edges set_nodes_edges]. split; f_equal.
    + apply connectingEdgeIds_ext. intros x y Hx Hy. unfold findEdge.
      apply find_bfilter.
      intros e He [Hs%String.eqb_eq Ht%String.eqb_eq]%andb_true_iff.
      apply keepEdge_true. rewrite Hs, Ht. split; by apply Hmembers.
    + f_equal. apply map_ext_in. intros x Hx%list_elem_of_In.
      unfold nodeMessages, findNode. rewrite find_bfilter; [done|].
      intros n Hn Hid%String.eqb_eq. apply keepNode_true. rewrite Hid.
      by apply Hmembers.
  - unfold getPathEdgeIds, getPathToNode. by rewrite Hnodes, Hpath.
Qed.

End PathsAcrossMutation.

Section MutationExamples.
Import Graph PathResolver Mutator Examples.

Lemma onNodesChange_removes_subtrees_witness :
  length [NodeRemoveChange "root"; NodeRemoveChange "node-A"]
  + length (edges treeExample) ≤ 5
  ∧ ∃ removed st',
      NoDup removed
      ∧ onNodesChange applyRemovals 5 treeExample
          [NodeRemoveChange "root"; NodeRemoveChange "node-A"]
        = Some (st', DeleteThread <$> removed).
Proof.
  split; [simpl; lia|].
  destruct (onNodesChange_removes_subtrees applyRemovals treeExample
              [NodeRemoveChange "root"; NodeRemoveChange "node-A"] 5
              ltac:(simpl; lia))
    as (removed & Hnodup & _ & Hres).
  exists removed. eexists. split; [exact Hnodup|exact Hres].
Defined.

Lemma deleteNodeAndDescendants_releases_threads_witness :
  "node-A" ≠ "root"
  ∧ S (length (edges treeExample)) ≤ 4
  ∧ ∃ st' removed,
      deleteNodeAndDescendants 4 treeExample "node-A"
      = Some (st', (DeleteThread <$> removed) ++ [SaveToStorage])
      ∧ NoDup removed
      ∧ head removed = Some "node-A".
Proof.
  split; [done|]. split; [simpl; lia|].
  destruct (deleteNodeAndDescendants_releases_threads treeExample "node-A" 4
              ltac:(done) ltac:(simpl; lia))
    as (st' & removed & Hres & Hnodup & Hhead & _).
  by exists st', removed.
Defined.

Lemma unknown_id_changes_nothing_witness :
  ("stray" ∉ ids (nodes treeExample))
  ∧ (∀ e, e ∈ edges treeExample ->
          edge_source e ≠ "stray" ∧ edge_target e ≠ "stray")
  ∧ 1 ≤ 1
  ∧ deleteNodeAndDescendants 1 treeExample "stray"
    = Some (treeExample, [DeleteThread "stray"; SaveToStorage])
  ∧ resetNode 1 treeExample "stray" = Some (treeExample, [SaveToStorage]).
Proof.
  assert (Hnode : "stray" ∉ ids (nodes treeExample))
    by (apply (bool_decide_unpack _); by vm_compute).
  assert (Hedge : ∀ e, e ∈ edges treeExample ->
                       edge_source e ≠ "stray" ∧ edge_target e ≠ "stray").
  { intros e He. simpl in He.
    repeat (apply elem_of_cons in He as [-> | He]; [done|]). by inversion He. }
  split; [exact Hnode|]. split; [exact Hedge|]. split; [lia|].
  destruct (unknown_id_changes_nothing treeExample "stray" 1 Hnode Hedge
              ltac:(lia)) as [Hdelete Hreset].
  split; [exact (Hdelete ltac:(done))|exact Hreset].
Defined.

Lemma createNodeAndEdge_keeps_tree_witness :
  treeState treeExample
  ∧ addEdgeContract addEdgeOnce
  ∧ idA ≠ ""
  ∧ (idA ∉ ids (nodes treeExample))
  ∧ "node-C" ∈ ids (nodes treeExample)
  ∧ ∃ st' effects,
      createNodeAndEdge addEdgeOnce idA 2 treeExample "node-C" "Branch" branch
      = Some (idA, st', effects)
      ∧ treeState st'
      ∧ edgeRel (edges st') "node-C" idA
      ∧ ∀ y, ¬ edgeRel (edges st') idA y.
Proof.
  assert (Hfresh : idA ∉ ids (nodes treeExample))
    by (apply (bool_decide_unpack _); by vm_compute).
  assert (Hsource : "node-C" ∈ ids (nodes treeExample))
    by (apply (bool_decide_unpack _); by vm_compute).
  split; [exact treeState_treeExample|]. split; [exact addEdgeOnce_contract|].
  split; [done|]. split; [exact Hfresh|]. split; [exact Hsource|].
  eexists _, _. split; [by vm_compute|].
  destruct (createNodeAndEdge_keeps_tree addEdgeOnce idA treeExample _
              "node-C" "Branch" idA branch 2 _
              treeState_treeExample addEdgeOnce_contract ltac:(done) Hfresh
              eq_refl) as [Htree Hleaf].
  destruct (Hleaf Hsource) as (_ & Hedge & Hchildless).
  split; [exact Htree|]. split; [exact Hedge|exact Hchildless].
Defined.

Lemma deleteNodeAndDescendants_keeps_tree_witness :
  treeState treeExample
  ∧ ∃ st' effects,
      deleteNodeAndDescendants 4 treeExample "node-A" = Some (st', effects)
      ∧ treeState st'
      ∧ ∀ x, x ∈ ids (nodes st') -> x ∈ ids (nodes treeExample).
Proof.
  split; [exact treeState_treeExample|].
  eexists _, _. split; [by vm_compute|].
  exact (deleteNodeAndDescendants_keeps_tree treeExample _ "node-A" 4 _
           treeState_treeExample eq_refl).
Defined.

Lemma resetNode_keeps_tree_witness :
  treeState treeExample
  ∧ ∃ st' effects,
      resetNode 2 treeExample "node-A" = Some (st', effects)
      ∧ treeState st'
      ∧ (∀ x, x ∈ ids (nodes st') -> x ∈ ids (nodes treeExample))
      ∧ ∀ y, ¬ edgeRel (edges st') "node-A" y.
Proof.
  split; [exact treeState_treeExample|].
  eexists _, _. split; [by vm_compute|].
  exact (resetNode_keeps_tree treeExample _ "node-A" 2 _
           treeState_treeExample eq_refl).
Defined.

(** In the example tree the active node is B; deleting its parent A
    leaves B as the active node of a state that no longer holds it. *)
Lemma deleteNodeAndDescendants_keeps_active_witness :
  ∃ st' effects,
    deleteNodeAndDescendants 4 treeExample "node-A" = Some (st', effects)
    ∧ "node-A" ≠ "root"
    ∧ activeNodeId treeExample = Some "node-B"
    ∧ descendant (edges treeExample) "node-A" "node-B"
    ∧ activeNodeId st' = Some "node-B"
    ∧ activePath st' = activePath treeExample
    ∧ ("node-B" ∉ ids (nodes st')).
Proof.
  assert (Hbelow : descendant (edges treeExample) "node-A" "node-B").
  { apply tc_once. exists (arrow "node-A" "node-B").
    split; [|done]. by repeat constructor. }
  eexists _, _. split; [by vm_compute|]. split; [done|]. split; [done|].
  split; [exact Hbelow|].
  destruct (deleteNodeAndDescendants_keeps_active treeExample _ "node-A" 4 _
              eq_refl) as (_ & Hpath & Hdangling).
  destruct (Hdangling "node-B" ltac:(done) eq_refl (or_intror Hbelow))
    as [Hactive Hgone].
  split; [exact Hactive|]. split; [exact Hpath|exact Hgone].
Defined.

Lemma resetNode_twice_witness :
  ∃ st' effects,
    resetNode 2 treeExample "node-A" = Some (st', effects)
    ∧ 1 ≤ 1
    ∧ resetNode 1 st' "node-A" = Some (st', [SaveToStorage]).
Proof.
  eexists _, _. split; [by vm_compute|]. split; [lia|].
  exact (resetNode_twice treeExample _ "node-A" 2 1 _ eq_refl ltac:(lia)).
Defined.

Lemma createNodeAndEdge_extends_path_witness :
  addEdgeContract addEdgeOnce
  ∧ "node-C" ≠ "" ∧ idA ≠ ""
  ∧ (idA ∉ ids (nodes treeExample))
  ∧ (∀ e, e ∈ edges treeExample ->
          edge_source e ≠ idA ∧ edge_target e ≠ idA)
  ∧ getPathNodeIds 2 treeExample "node-C" = Some ["root"; "node-C"]
  ∧ ∃ st' effects,
      createNodeAndEdge addEdgeOnce idA 2 treeExample "node-C" "Branch" branch
      = Some (idA, st', effects)
      ∧ getPathNodeIds 3 st' idA = Some (["root"; "node-C"] ++ [idA])
      ∧ getPathToNode 3 st' idA = getPathToNode 2 treeExample "node-C".
Proof.
  assert (Hfresh : idA ∉ ids (nodes treeExample))
    by (apply (bool_decide_unpack _); by vm_compute).
  assert (Hunused : ∀ e, e ∈ edges treeExample ->
                         edge_source e ≠ idA ∧ edge_target e ≠ idA).
  { intros e He. simpl in He.
    repeat (apply elem_of_cons in He as [-> | He]; [done|]). by inversion He. }
  split; [exact addEdgeOnce_contract|]. split; [done|]. split; [done|].
  split; [exact Hfresh|]. split; [exact Hunused|]. split; [by vm_compute|].
  eexists _, _. split; [by vm_compute|].
  destruct (createNodeAndEdge_extends_path addEdgeOnce idA treeExample _
              "node-C" "Branch" branch 2 2 _ ["root"; "node-C"]
              addEdgeOnce_contract ltac:(done) ltac:(done) Hfresh Hunused
              eq_refl eq_refl) as (Hnodes & _ & Hmessages).
  split; [exact Hnodes|exact Hmessages].
Defined.

Lemma deleteNodeAndDescendants_keeps_paths_witness :
  "node-C" ≠ "node-A"
  ∧ ¬ descendant (edges treeExample) "node-A" "node-C"
  ∧ ∃ st' effects,
      deleteNodeAndDescendants 4 treeExample "node-A" = Some (st', effects)
      ∧ getPathNodeIds 2 st' "node-C" = getPathNodeIds 2 treeExample "node-C"
      ∧ getPathEdgeIds 2 st' "node-C" = getPathEdgeIds 2 treeExample "node-C"
      ∧ getPathToNode 2 st' "node-C" = getPathToNode 2 treeExample "node-C".
Proof.
  assert (Hnot : ¬ descendant (edges treeExample) "node-A" "node-C").
  { assert (Hstep : ∀ x y, edgeRel (edges treeExample) x y ->
              x = "node-A" ∨ x = "node-B" -> y = "node-A" ∨ y = "node-B").
    { intros x y (e & He & <- & <-) Hx. simpl in He.
      repeat (apply elem_of_cons in He as [-> | He];
              [simpl in *; first [by right | by destruct Hx]|]).
      by inversion He. }
    assert (Hinv : ∀ x y, descendant (edges treeExample) x y ->
              x = "node-A" ∨ x = "node-B" -> y = "node-A" ∨ y = "node-B").
    { induction 1 as [x y Hxy | x y z Hxy _ IH]; intros Hx.
      - by apply (Hstep x).
      - apply IH. by apply (Hstep x). }
    intros Hd. by destruct (Hinv _ _ Hd (or_introl eq_refl)). }
  split; [done|]. split; [exact Hnot|].
  eexists _, _. split; [by vm_compute|].
  exact (deleteNodeAndDescendants_keeps_paths treeExample _ "node-A" "node-C"
           4 2 _ eq_refl ltac:(done) Hnot).
Defined.

End MutationExamples.

(** ** Message ledger: streaming, undo and titles *)

Section LedgerComposition.
Import Ledger.

Lemma set_nodes_same (st : ChatState) : set_nodes st (nodes st) = st.
Proof. by destruct st. Qed.

Lemma set_chatHistory_same (node : Node) :
  set_chatHistory node (chatHistory (node_data node)) = node.
Proof. by destruct node as [? ? [] ?]. Qed.

Lemma split_last {A} (l : list A) : l = [] ∨ ∃ l0 x, l = l0 ++ [x].
Proof. destruct l as [|x l] using rev_ind; [by left|right; by exists l, x]. Qed.

Lemma updatedChatHistory_partial_snoc h0 lastMsg message :
  updatedChatHistory (h0 ++ [lastMsg]) message true
  = if bool_decide (msg_role lastMsg = msg_role message)
    then h0 ++ [set_content lastMsg (msg_content message)]
    else h0 ++ [lastMsg; message].
Proof.
  case_bool_decide as Hrole.
  - by apply updatedChatHistory_replace.
  - rewrite updatedChatHistory_append, <- app_assoc; [done|].
    right. right. exists lastMsg. by rewrite last_snoc.
Qed.

Lemma updatedChatHistory_chunks h m1 m2 :
  msg_role m1 = msg_role m2 ->
  updatedChatHistory (updatedChatHistory h m1 true) m2 true
  = updatedChatHistory h (set_content m1 (msg_content m2)) true.
Proof.
  intros Hrole. destruct (split_last h) as [-> | (h0 & lastMsg & ->)].
  - change (updatedChatHistory [] m1 true) with ([] ++ [m1]).
    rewrite updatedChatHistory_partial_snoc, bool_decide_true by done. done.
  - rewrite !updatedChatHistory_partial_snoc. simpl.
    case_bool_decide as Hsame.
    + rewrite updatedChatHistory_partial_snoc. simpl.
      rewrite bool_decide_true by congruence. done.
    + change (h0 ++ [lastMsg; m1]) with (h0 ++ [lastMsg] ++ [m1]).
      rewrite app_assoc, updatedChatHistory_partial_snoc.
      rewrite bool_decide_true by done. by rewrite <- app_assoc.
Qed.

(** A partial message never asks for a title and never saves. *)
Lemma addMessageToNode_partial st nodeId message :
  addMessageToNode st nodeId message true
  = (set_nodes st
       (map (fun node =>
               if String.eqb (node_id node) nodeId
               then set_chatHistory node
                      (updatedChatHistory (chatHistory (node_data node))
                         message true)
               else node) (nodes st)),
     []).
Proof.
  unfold addMessageToNode. rewrite !map_map.
  assert (Hquiet : wantsTitle st message true = false).
  { unfold wantsTitle. simpl. by rewrite andb_false_r. }
  f_equal.
  - f_equal. apply map_ext. intros node. unfold addMessage_node.
    by destruct (String.eqb (node_id node) nodeId).
  - rewrite app_nil_r. induction (nodes st) as [|node ns IH]; [done|].
    simpl. rewrite IH. unfold addMessage_node. rewrite Hquiet.
    by destruct (String.eqb (node_id node) nodeId).
Qed.

(** X15. Streaming: two partial messages of the same role, one after the
    other, leave what one partial message would leave that carries the
    attachments and model id of the first and the content of the second. *)
Theorem addMessageToNode_chunks_compose
    (st : ChatState) (nodeId : string) (first second : ChatMessage) :
  msg_role first = msg_role second ->
  addMessageToNode (addMessageToNode st nodeId first true).1 nodeId second true
  = addMessageToNode st nodeId (set_content first (msg_content second)) true.
Proof.
  intros Hrole. rewrite !addMessageToNode_partial. simpl. f_equal.
  unfold set_nodes. simpl. f_equal. rewrite map_map. apply map_ext.
  intros node. destruct (String.eqb (node_id node) nodeId) eqn:Hid; simpl.
  - rewrite Hid. unfold set_chatHistory at 1. simpl. unfold set_chatHistory.
    f_equal. f_equal. by apply updatedChatHistory_chunks.
  - by rewrite Hid.
Qed.

(** X16. [removeLastMessageFromNode] undoes a message that
    [addMessageToNode] appended: after a message that is not partial the
    removal gives back the state from before. *)
Theorem removeLastMessageFromNode_undoes_append
    (st : ChatState) (nodeId : string) (message : ChatMessage) :
  (removeLastMessageFromNode (addMessageToNode st nodeId message false).1
     nodeId).1 = st.
Proof.
  unfold removeLastMessageFromNode, addMessageToNode. simpl.
  transitivity (set_nodes st (nodes st)); [|apply set_nodes_same].
  unfold set_nodes. simpl. f_equal.
  rewrite !map_map. etransitivity; [|apply map_id]. apply map_ext.
  intros node. unfold addMessage_node.
  destruct (String.eqb (node_id node) nodeId) eqn:Hid; simpl; rewrite Hid;
    [|done].
  unfold updatedChatHistory. simpl. rewrite length_app. simpl.
  replace (length (chatHistory (node_data node)) + 1 - 1)
    with (length (chatHistory (node_data node))) by lia.
  rewrite take_app_length. by destruct node as [? ? [] ?].
Qed.

Lemma mayUpdate_set_content lastMsg content modelId :
  mayUpdate (set_content lastMsg content) modelId = mayUpdate lastMsg modelId.
Proof. done. Qed.

Lemma updateLast_node_twice nodeId first second modelId node :
  updateLast_node nodeId second modelId
    (updateLast_node nodeId first modelId node)
  = updateLast_node nodeId second modelId node.
Proof.
  destruct (decide (node_id node = nodeId)) as [Hid|Hne];
    [|by rewrite (updateLast_node_other _ first _ node Hne)].
  destruct (last (chatHistory (node_data node))) as [lastMsg|] eqn:Hlast;
    [|by rewrite (updateLast_node_empty _ first _ node Hlast)].
  rewrite (updateLast_node_last _ first _ _ _ Hid Hlast).
  rewrite (updateLast_node_last _ second _ node _ Hid Hlast).
  destruct (mayUpdate lastMsg modelId) eqn:Hmay;
    [|by rewrite (updateLast_node_last _ second _ _ _ Hid Hlast), Hmay].
  rewrite (updateLast_node_last _ _ _ _ (set_content lastMsg first)).
  - rewrite mayUpdate_set_content, Hmay. simpl.
    rewrite length_app. simpl.
    replace (length (take (length (chatHistory (node_data node)) - 1)
                       (chatHistory (node_data node))) + 1 - 1)
      with (length (take (length (chatHistory (node_data node)) - 1)
                       (chatHistory (node_data node)))) by lia.
    by rewrite take_app_length.
  - done.
  - simpl. apply last_snoc.
Qed.

(** X17. [updateLastMessageInNode] is last-write-wins: two updates with
    the same model id leave what the second alone would leave. *)
Theorem updateLastMessageInNode_last_write_wins
    (st : ChatState) (nodeId first second : string) (modelId : option string) :
  updateLastMessageInNode
    (updateLastMessageInNode st nodeId first modelId) nodeId second modelId
  = updateLastMessageInNode st nodeId second modelId.
Proof.
  unfold updateLastMessageInNode, set_nodes. simpl. f_equal.
  rewrite map_map. apply map_ext. intros node. apply updateLast_node_twice.
Qed.

(** X18. The two ways of streaming agree: where every node with the
    given id ends in a model message that passes the model-id filter,
    [updateLastMessageInNode] leaves the nodes that a partial model
    message given to [addMessageToNode] leaves. *)
Theorem updateLastMessageInNode_is_partial_add
    (st : ChatState) (nodeId : string) (message : ChatMessage)
    (modelId : option string) :
  msg_role message = model ->
  (∀ node, node ∈ nodes st -> node_id node = nodeId ->
     ∃ lastMsg,
       last (chatHistory (node_data node)) = Some lastMsg
       ∧ msg_role lastMsg = model
       ∧ (modelId = None ∨ modelId = Some "" ∨ modelId = msg_modelId lastMsg)) ->
  updateLastMessageInNode st nodeId (msg_content message) modelId
  = (addMessageToNode st nodeId message true).1.
Proof.
  intros Hrole Hends. rewrite addMessageToNode_partial.
  unfold updateLastMessageInNode, set_nodes. simpl. f_equal.
  apply map_ext_in. intros node Hnode%list_elem_of_In.
  destruct (String.eqb_spec (node_id node) nodeId) as [Hid|Hne];
    [|by apply updateLast_node_other].
  destruct (Hends node Hnode Hid) as (lastMsg & Hlast & Hmodel & Hfilter).
  rewrite (updateLast_node_last _ _ _ _ _ Hid Hlast).
  rewrite (proj2 (mayUpdate_true lastMsg modelId) (conj Hmodel Hfilter)).
  destruct (last_Some_snoc _ _ Hlast) as (h0 & Hsplit & Htake).
  rewrite Htake, Hsplit, updatedChatHistory_replace by congruence. done.
Qed.

(** The title may arrive late: setting a node's title commutes with
    adding a message, so the nodes are the same whether the title lands
    before or after the next message. *)
Theorem setNodeTitle_commutes_with_messages
    (st : ChatState) (titled nodeId newTitle : string) (message : ChatMessage)
    (isPartial : bool) :
  nodes (setNodeTitle (addMessageToNode st nodeId message isPartial).1
           titled newTitle).1
  = nodes (addMessageToNode (setNodeTitle st titled newTitle).1
             nodeId message isPartial).1.
Proof.
  unfold setNodeTitle. rewrite !addMessageToNode_nodes. simpl.
  rewrite !map_map. apply map_ext. intros node. unfold addMessage_node.
  destruct (String.eqb (node_id node) nodeId) eqn:Hid;
    destruct (String.eqb (node_id node) titled) eqn:Htitled;
    simpl; rewrite ?Hid, ?Htitled; done.
Qed.

Lemma append_empty_r s : s +:+ "" = s.
Proof. induction s as [|c s IH]; [done|]. by rewrite append_cons, IH. Qed.

(** The fallback title is the content itself when that has at most 30
    characters, and otherwise its first 30 characters and an ellipsis:
    33 characters, never more. *)
Theorem fallbackTitle_bounded (content : string) :
  JS.length (fallbackTitle content) ≤ 33
  ∧ (JS.length content ≤ 30 -> fallbackTitle content = content)
  ∧ (30 < JS.length content ->
     JS.length (fallbackTitle content) = 33
     ∧ JS.substringTo 30 (fallbackTitle content) = JS.substringTo 30 content).
Proof.
  unfold fallbackTitle.
  destruct (Nat.ltb_spec 30 (JS.length content)) as [Hlong|Hshort].
  - assert (Hlen : JS.length (JS.substringTo 30 content +:+ "...") = 33).
    { rewrite JS_length_app, JS_length_substringTo.
      change (JS.length "...") with 3. lia. }
    split; [lia|]. split; [lia|]. intros _. split; [done|].
    apply JS_substringTo_exact; [|done].
    rewrite JS_length_substringTo. lia.
  - rewrite append_empty_r, JS_substringTo_all by done.
    split; [lia|]. split; [done|lia].
Qed.

End LedgerComposition.

Section LedgerAlongPaths.
Import Graph PathResolver Ledger.

Lemma linked_descendant es l t :
  linked es (l ++ [t]) -> ∀ x, x ∈ l -> descendant es x t.
Proof.
  induction l as [|a l IH]; intros Hlinked x Hx; [by inversion Hx|].
  destruct l as [|b l].
  - apply list_elem_of_singleton in Hx as ->.
    inversion Hlinked as [| |? ? ? Hedge _]; subst. by apply tc_once.
  - inversion Hlinked as [| |? ? ? Hedge Hrest]; subst.
    assert (Hb : descendant es b t) by (apply (IH Hrest); by left).
    apply elem_of_cons in Hx as [-> | Hx].
    + by eapply tc_l.
    + by apply (IH Hrest).
Qed.

Lemma findNode_map (f : Node -> Node) (ns : list Node) x :
  (∀ n, node_id (f n) = node_id n) ->
  findNode (map f ns) x = f <$> findNode ns x.
Proof.
  intros Hid. unfold findNode.
  induction ns as [|n ns IH]; [done|]. simpl. rewrite Hid.
  by destruct (String.eqb (node_id n) x).
Qed.

Lemma path_messages_after_append
    (st : ChatState) (target : string) (message : ChatMessage) (fuel : nat)
    (messages : list ChatMessage) :
  treeState st ->
  target ∈ ids (nodes st) ->
  getPathToNode fuel st target = Some messages ->
  getPathToNode fuel (addMessageToNode st target message false).1 target
  = Some (messages ++ [pathMessage message]).
Proof.
  intros Htree Htarget. unfold getPathToNode, getPathNodeIds.
  cbn [addMessageToNode fst edges set_nodes].
  destruct (walkUp fuel (incomingMap (edges st)) (Some target) [])
    as [path|] eqn:Hpath; [|done].
  intros [= <-]. f_equal.
  destruct (walkUp_ancestry _ _ _ _ _ (tree_truthy st Htree _ Htarget) Hpath)
    as (l & Hl & Heq).
  rewrite app_nil_r in Heq. subst l.
  destruct (tree_ancestry st Htree _ _ Htarget Hl)
    as (_ & Hlast & Hlinked & _).
  destruct (last_Some_snoc _ _ Hlast) as (above & -> & _).
  assert (Habove : ∀ x, x ∈ above -> x ≠ target).
  { intros x Hx ->. apply (ts_acyclic _ Htree target).
    by apply (linked_descendant _ above). }
  set (f := fun node => (addMessage_node st target message false node).1).
  assert (Hnodes : nodes (set_nodes st
                     (map fst (map (addMessage_node st target message false)
                                 (nodes st))))
                   = map f (nodes st)) by (simpl; by rewrite map_map).
  rewrite Hnodes.
  assert (Hid : ∀ n, node_id (f n) = node_id n).
  { intros n. unfold f, addMessage_node.
    by destruct (String.eqb (node_id n) target). }
  rewrite !map_app, !concat_app. simpl. rewrite !app_nil_r, <- app_assoc.
  f_equal.
  - f_equal. apply map_ext_in. intros x Hx%list_elem_of_In.
    unfold nodeMessages. rewrite (findNode_map f) by done.
    destruct (findNode (nodes st) x) as [n|] eqn:Hfind; [|done]. simpl.
    unfold findNode in Hfind. apply find_some in Hfind as [_ Hn%String.eqb_eq].
    unfold f, addMessage_node.
    rewrite (proj2 (String.eqb_neq (node_id n) target)); [done|].
    rewrite Hn. by apply Habove.
  - unfold nodeMessages. rewrite (findNode_map f) by done.
    destruct (findNode_Some _ _ Htarget) as (n & -> & _ & Hn). simpl.
    unfold f, addMessage_node. rewrite (proj2 (String.eqb_eq _ _) Hn).
    simpl. unfold updatedChatHistory. simpl. by rewrite map_app.
Qed.

Lemma treeState_same_ids (st st' : ChatState) :
  treeState st ->
  ids (nodes st') = ids (nodes st) ->
  edges st' = edges st ->
  treeState st'.
Proof.
  intros [] Hids Hedges. split; rewrite ?Hids, ?Hedges; done.
Qed.

(** X19. In a tree state, appending a message to a node appends its
    view to the messages along the path that leads to that node; the
    state stays a tree state, and no node path or edge path changes. *)
Theorem addMessageToNode_extends_path_messages
    (st : ChatState) (target : string) (message : ChatMessage) (fuel : nat)
    (messages : list ChatMessage) :
  treeState st ->
  target ∈ ids (nodes st) ->
  getPathToNode fuel st target = Some messages ->
  getPathToNode fuel (addMessageToNode st target message false).1 target
  = Some (messages ++ [pathMessage message])
  ∧ treeState (addMessageToNode st target message false).1
  ∧ ∀ other fuel',
      getPathNodeIds fuel' (addMessageToNode st target message false).1 other
      = getPathNodeIds fuel' st other
      ∧ getPathEdgeIds fuel' (addMessageToNode st target message false).1 other
        = getPathEdgeIds fuel' st other.
Proof.
  intros Htree Htarget Hpath.
  split; [by apply path_messages_after_append|]. split; [|done].
  apply (treeState_same_ids st); [done| |done].
  rewrite addMessageToNode_nodes. unfold ids. rewrite map_map.
  apply map_ext. intros node. unfold addMessage_node.
  by destruct (String.eqb (node_id node) target).
Qed.

End LedgerAlongPaths.

Section LedgerMoreExamples.
Import Graph PathResolver Ledger Examples.

Lemma addMessageToNode_chunks_compose_witness :
  msg_role partialAnswer = msg_role nextChunk
  ∧ addMessageToNode
      (addMessageToNode streamingState "root" partialAnswer true).1
      "root" nextChunk true
    = addMessageToNode streamingState "root"
        (set_content partialAnswer (msg_content nextChunk)) true.
Proof.
  split; [done|].
  exact (addMessageToNode_chunks_compose streamingState "root"
           partialAnswer nextChunk eq_refl).
Defined.

Lemma updateLastMessageInNode_is_partial_add_witness :
  msg_role nextChunk = model
  ∧ (∀ node, node ∈ nodes streamingState -> node_id node = "root" ->
       ∃ lastMsg,
         last (chatHistory (node_data node)) = Some lastMsg
         ∧ msg_role lastMsg = model
         ∧ (Some "chatManager" = None ∨ Some "chatManager" = Some ""
            ∨ Some "chatManager" = msg_modelId lastMsg))
  ∧ updateLastMessageInNode streamingState "root" (msg_content nextChunk)
      (Some "chatManager")
    = (addMessageToNode streamingState "root" nextChunk true).1.
Proof.
  assert (Hends : ∀ node, node ∈ nodes streamingState -> node_id node = "root" ->
            ∃ lastMsg,
              last (chatHistory (node_data node)) = Some lastMsg
              ∧ msg_role lastMsg = model
              ∧ (Some "chatManager" = None ∨ Some "chatManager" = Some ""
                 ∨ Some "chatManager" = msg_modelId lastMsg)).
  { intros node ->%list_elem_of_singleton _. exists partialAnswer.
    split; [done|]. split; [done|]. by right; right. }
  split; [done|]. split; [exact Hends|].
  exact (updateLastMessageInNode_is_partial_add streamingState "root"
           nextChunk (Some "chatManager") eq_refl Hends).
Defined.

Lemma fallbackTitle_bounded_witness :
  JS.length "Summarise the file" ≤ 30
  ∧ fallbackTitle "Summarise the file" = "Summarise the file"
  ∧ 30 < JS.length "The file describes the protocol in detail"
  ∧ JS.length
      (fallbackTitle "The file describes the protocol in detail") = 33.
Proof.
  split; [simpl; lia|].
  split; [exact (proj1 (proj2 (fallbackTitle_bounded "Summarise the file"))
                   ltac:(simpl; lia))|].
  split; [simpl; lia|].
  exact (proj1 (proj2 (proj2 (fallbackTitle_bounded
                                "The file describes the protocol in detail"))
                  ltac:(simpl; lia))).
Defined.

Lemma addMessageToNode_extends_path_messages_witness :
  treeState treeExample
  ∧ "node-A" ∈ ids (nodes treeExample)
  ∧ getPathToNode 2 treeExample "node-A"
    = Some [pathMessage m1; pathMessage m2; pathMessage m3]
  ∧ getPathToNode 2 (addMessageToNode treeExample "node-A" m4 false).1 "node-A"
    = Some ([pathMessage m1; pathMessage m2; pathMessage m3]
            ++ [pathMessage m4]).
Proof.
  assert (Hin : "node-A" ∈ ids (nodes treeExample))
    by (apply (bool_decide_unpack _); by vm_compute).
  split; [exact treeState_treeExample|]. split; [exact Hin|].
  split; [by vm_compute|].
  exact (proj1 (addMessageToNode_extends_path_messages treeExample "node-A"
                  m4 2 _ treeState_treeExample Hin eq_refl)).
Defined.

End LedgerMoreExamples.

(** ** Parents and children *)

Section ParentsAndChildren.
Import Graph PathResolver Documents.

Lemma connectingEdgeIds_last es path A B e :
  last path = Some A ->
  findEdge es A B = Some e ->
  connectingEdgeIds es (path ++ [B]) = connectingEdgeIds es path ++ [edge_id e].
Proof.
  intros Hlast Hfind. induction path as [|x [|y rest] IH].
  - done.
  - injection Hlast as ->. simpl. by rewrite Hfind.
  - change (connectingEdgeIds es ((x :: y :: rest) ++ [B]))
      with (match findEdge es x y with
            | Some e' => edge_id e' :: connectingEdgeIds es ((y :: rest) ++ [B])
            | None => connectingEdgeIds es ((y :: rest) ++ [B])
            end).
    change (connectingEdgeIds es (x :: y :: rest))
      with (match findEdge es x y with
            | Some e' => edge_id e' :: connectingEdgeIds es (y :: rest)
            | None => connectingEdgeIds es (y :: rest)
            end).
    rewrite IH by done. by destruct (findEdge es x y).
Qed.

Lemma tree_child_path (st : ChatState) (e : Edge) (fuel : nat) (path : list string) :
  treeState st ->
  e ∈ edges st ->
  getPathNodeIds fuel st (edge_source e) = Some path ->
  getPathNodeIds (S fuel) st (edge_target e) = Some (path ++ [edge_target e]).
Proof.
  intros Htree He Hpath. unfold getPathNodeIds in *.
  destruct (ts_closed _ Htree e He) as [_ Htarget].
  rewrite walkUp_step by by apply (tree_truthy st).
  rewrite (tree_incoming_edge st Htree e He).
  rewrite (walkUp_app _ _ _ [] [edge_target e]). by rewrite Hpath.
Qed.

(** X20. In a tree state the path of a child is the path of its parent
    followed by the child: the node path gains the child, the edge path
    gains the edge between the two, and the messages gain those of the
    child. *)
Theorem path_of_child
    (st : ChatState) (e : Edge) (fuel : nat)
    (path : list string) :
  treeState st ->
  e ∈ edges st ->
  getPathNodeIds fuel st (edge_source e) = Some path ->
  getPathNodeIds (S fuel) st (edge_target e) = Some (path ++ [edge_target e])
  ∧ getPathEdgeIds (S fuel) st (edge_target e)
    = Some (connectingEdgeIds (edges st) path ++ [edge_id e])
  ∧ getPathToNode (S fuel) st (edge_target e)
    = Some (concat (map (nodeMessages (nodes st)) path)
            ++ nodeMessages (nodes st) (edge_target e)).
Proof.
  intros Htree He Hpath.
  pose proof (tree_child_path st e fuel path Htree He Hpath) as Hchild.
  split; [exact Hchild|]. unfold getPathEdgeIds, getPathToNode.
  rewrite Hchild. split; f_equal.
  - apply (connectingEdgeIds_last _ _ (edge_source e)).
    + destruct (ts_closed _ Htree e He) as [Hsource _].
      unfold getPathNodeIds in Hpath.
      destruct (walkUp_ancestry _ _ _ _ _ (tree_truthy st Htree _ Hsource) Hpath)
        as (l & Hl & ->).
      rewrite app_nil_r. exact (ancestry_last _ _ _ Hl).
    + by apply tree_findEdge.
  - rewrite map_app, concat_app. simpl. by rewrite app_nil_r.
Qed.

Lemma inheritAttachment_prefix docs att : docs `prefix_of` inheritAttachment docs att.
Proof.
  unfold inheritAttachment. destruct (isDocument att); [|done].
  destruct (alreadyExists docs att); [done|]. by apply prefix_app_r.
Qed.

Lemma inheritMessage_prefix docs msg : docs `prefix_of` inheritMessage docs msg.
Proof.
  unfold inheritMessage. destruct (msg_attachments msg) as [atts|]; [|done].
  revert docs. induction atts as [|att atts IH]; intros docs; [done|]. simpl.
  etransitivity; [apply inheritAttachment_prefix|apply IH].
Qed.

Lemma inheritedDocuments_prefix path more :
  inheritedDocuments path `prefix_of` inheritedDocuments (path ++ more).
Proof.
  unfold inheritedDocuments. rewrite foldl_app.
  generalize (foldl inheritMessage [] path). intros docs. revert docs.
  induction more as [|msg more IH]; intros docs; [done|]. simpl.
  etransitivity; [apply inheritMessage_prefix|apply IH].
Qed.

(** X21. Documents are inherited downwards: whatever a path inherits, a
    longer path inherits first and in the same order; so in a tree state
    the documents that a child inherits begin with those that its parent
    inherits. *)
Theorem child_inherits_parent_documents
    (st : ChatState) (e : Edge) (fuel : nat) (toParent : list ChatMessage) :
  treeState st ->
  e ∈ edges st ->
  getPathToNode fuel st (edge_source e) = Some toParent ->
  ∃ toChild,
    getPathToNode (S fuel) st (edge_target e) = Some toChild
    ∧ toParent `prefix_of` toChild
    ∧ inheritedDocuments toParent `prefix_of` inheritedDocuments toChild.
Proof.
  intros Htree He. unfold getPathToNode at 1.
  destruct (getPathNodeIds fuel st (edge_source e)) as [path|] eqn:Hpath;
    [|done].
  intros [= <-]. unfold getPathToNode.
  rewrite (tree_child_path st e fuel path Htree He Hpath).
  eexists. split; [reflexivity|].
  rewrite map_app, concat_app. simpl. rewrite app_nil_r.
  split; [by apply prefix_app_r|apply inheritedDocuments_prefix].
Qed.

End ParentsAndChildren.

Section ParentsAndChildrenExamples.
Import Graph PathResolver Documents Examples.

Lemma path_of_child_witness :
  treeState treeExample
  ∧ arrow "node-A" "node-B" ∈ edges treeExample
  ∧ getPathNodeIds 2 treeExample "node-A" = Some ["root"; "node-A"]
  ∧ getPathNodeIds 3 treeExample "node-B" = Some (["root"; "node-A"] ++ ["node-B"])
  ∧ getPathEdgeIds 3 treeExample "node-B"
    = Some (connectingEdgeIds (edges treeExample) ["root"; "node-A"]
            ++ ["e-node-A-node-B"]).
Proof.
  assert (He : arrow "node-A" "node-B" ∈ edges treeExample)
    by (by repeat constructor).
  split; [exact treeState_treeExample|]. split; [exact He|].
  split; [by vm_compute|].
  destruct (path_of_child treeExample (arrow "node-A" "node-B") 2
              ["root"; "node-A"] treeState_treeExample He eq_refl)
    as (Hnodes & Hedges & _).
  split; [exact Hnodes|exact Hedges].
Defined.

Lemma child_inherits_parent_documents_witness :
  treeState treeExample
  ∧ arrow "node-A" "node-B" ∈ edges treeExample
  ∧ ∃ toParent toChild,
      getPathToNode 2 treeExample "node-A" = Some toParent
      ∧ getPathToNode 3 treeExample "node-B" = Some toChild
      ∧ inheritedDocuments toParent `prefix_of` inheritedDocuments toChild.
Proof.
  assert (He : arrow "node-A" "node-B" ∈ edges treeExample)
    by (by repeat constructor).
  split; [exact treeState_treeExample|]. split; [exact He|].
  eexists. 
  destruct (child_inherits_parent_documents treeExample
              (arrow "node-A" "node-B") 2 _ treeState_treeExample He eq_refl)
    as (toChild & Hchild & _ & Hdocs).
  exists toChild. split; [reflexivity|]. split; [exact Hchild|exact Hdocs].
Defined.

End ParentsAndChildrenExamples.

(** ** Sending a message: properties *)

Section ConversationProperties.
Import Graph PathResolver Ledger Conversation.

Lemma attachmentsToSend_snoc messages asked :
  msg_role asked = user ->
  attachmentsToSend (messages ++ [pathMessage asked])
  = Some (default [] (msg_attachments asked)).
Proof.
  intros Hrole. unfold attachmentsToSend. rewrite lastMessage_snoc. simpl.
  by rewrite Hrole.
Qed.

(** X22. What the user has just asked is what is sent: in a tree state
    with a chat manager, once a user message has been added to a node,
    [sendMessageToNode] on that node seeds the thread with the messages
    of the path, the new one last, and sends the attachments of that new
    message, an empty list when it has none. *)
Theorem sendMessageToNode_sends_last_attachments
    (st : ChatState) (nodeId text : string) (asked : ChatMessage) (fuel : nat)
    (messages : list ChatMessage) :
  treeState st ->
  nodeId ∈ ids (nodes st) ->
  chatManager st = true ->
  msg_role asked = user ->
  getPathToNode fuel st nodeId = Some messages ->
  sendMessageToNode fuel (addMessageToNode st nodeId asked false).1 nodeId text
  = Some (inr [GetThread nodeId (messages ++ [pathMessage asked]);
               SendMessage nodeId text
                 (Some (default [] (msg_attachments asked)))]).
Proof.
  intros Htree Hin Hmanager Hrole Hpath. unfold sendMessageToNode.
  cbn [addMessageToNode fst chatManager set_nodes]. rewrite Hmanager.
  pose proof (path_messages_after_append st nodeId asked fuel messages
                Htree Hin Hpath) as Hafter.
  cbn [addMessageToNode fst] in Hafter. rewrite Hafter.
  by rewrite attachmentsToSend_snoc.
Qed.

Lemma addMessage_effects_unique st nodeId message ns :
  nodeId ∉ ids ns ->
  concat (map snd (map (addMessage_node st nodeId message false) ns)) = []
  ∧ map fst (map (addMessage_node st nodeId message false) ns) = ns.
Proof.
  induction ns as [|n ns IH]; [done|]. intros Hnot. simpl.
  assert (Hn : node_id n ≠ nodeId) by (intros <-; apply Hnot; by left).
  assert (Hns : nodeId ∉ ids ns) by (intros Hin; apply Hnot; by right).
  destruct (IH Hns) as [-> ->]. unfold addMessage_node.
  by rewrite (proj2 (String.eqb_neq _ _) Hn).
Qed.

(** X23. When the send has ended, the reply is appended to the node as a
    model message; a failure is recorded as a message that begins with
    "Error: " and carries the model id "error". With a chat manager a
    title is requested from the last four messages, after a failure too.
    A response is saved twice, a failure once. Here ids are unique. *)
Theorem sendMessageDone_records_reply
    (st : ChatState) (nodeId : string) (outcome : SendOutcome)
    (before after : list Node) (node : Node) :
  nodes st = before ++ node :: after ->
  node_id node = nodeId ->
  NoDup (ids (nodes st)) ->
  let reply := replyMessage outcome in
  let history := chatHistory (node_data node) ++ [reply] in
  sendMessageDone st nodeId outcome
  = (set_nodes st (before ++ set_chatHistory node history :: after),
     (if chatManager st then [GenerateTitle nodeId (slice_last4 history)] else [])
     ++ SaveToStorage
        :: match outcome with Responded _ => [SaveToStorage] | _ => [] end)
  ∧ msg_role reply = model
  ∧ match outcome with
    | Responded text =>
        msg_content reply = text ∧ msg_modelId reply = Some "chatManager"
    | ThrewError message =>
        msg_content reply = "Error: " +:+ message
        ∧ msg_modelId reply = Some "error"
    | ThrewOther =>
        msg_content reply = "Error: An unexpected error occurred"
        ∧ msg_modelId reply = Some "error"
    end.
Proof.
  intros Hnodes Hid Hnodup reply history.
  split; [|split; [by destruct outcome|by destruct outcome]].
  unfold ids in Hnodup. rewrite Hnodes, map_app in Hnodup. simpl in Hnodup.
  apply NoDup_app in Hnodup as (_ & Hbefore & Hafter%NoDup_cons).
  destruct Hafter as [Hafter _].
  assert (Hnot_before : nodeId ∉ ids before).
  { intros Hin. apply (Hbefore nodeId Hin). rewrite <- Hid. by left. }
  assert (Hnot_after : nodeId ∉ ids after) by by rewrite <- Hid.
  unfold sendMessageDone, addMessageToNode. rewrite Hnodes.
  rewrite !map_app, concat_app. simpl. fold reply.
  destruct (addMessage_effects_unique st nodeId reply before Hnot_before)
    as [-> ->].
  destruct (addMessage_effects_unique st nodeId reply after Hnot_after)
    as [-> ->].
  unfold addMessage_node. rewrite (proj2 (String.eqb_eq _ _) Hid). simpl.
  rewrite app_nil_r. unfold updatedChatHistory. simpl. fold history.
  f_equal.
  unfold wantsTitle. replace (msg_role reply) with model
      by (by destruct outcome).
  rewrite bool_decide_true by done. simpl.
  destruct (chatManager st); simpl; by rewrite <- ?app_assoc.
Qed.

(** X24. A recorded failure stays: a later streaming update that names a
    model id other than "error" does not overwrite it. *)
Theorem error_reply_is_not_overwritten
    (st : ChatState) (nodeId content : string) (outcome : SendOutcome)
    (modelId : string) :
  (∀ text, outcome ≠ Responded text) ->
  modelId ≠ "" ->
  modelId ≠ "error" ->
  updateLastMessageInNode (sendMessageDone st nodeId outcome).1 nodeId content
    (Some modelId)
  = (sendMessageDone st nodeId outcome).1.
Proof.
  intros Hfailed Hnonempty Hother.
  unfold sendMessageDone. cbn [fst].
  set (added := (addMessageToNode st nodeId (replyMessage outcome) false).1).
  transitivity (set_nodes added (nodes added)); [|apply set_nodes_same].
  unfold updateLastMessageInNode. f_equal. unfold added.
  rewrite addMessageToNode_nodes, map_map. apply map_ext.
  intros node. unfold addMessage_node.
  destruct (String.eqb_spec (node_id node) nodeId) as [Hid|Hne]; simpl;
    [|by apply updateLast_node_other].
  unfold updatedChatHistory. simpl.
  rewrite (updateLast_node_last _ _ _ _ (replyMessage outcome));
    [|done|simpl; apply last_snoc].
  destruct (mayUpdate (replyMessage outcome) (Some modelId)) eqn:Hmay; [|done].
  apply mayUpdate_true in Hmay as [_ [Hm | [Hm | Hm]]].
  - done.
  - by injection Hm.
  - destruct outcome; simpl in Hm; [by destruct (Hfailed reply)| |];
      by injection Hm.
Qed.

End ConversationProperties.

Section ConversationExamples.
Import Graph PathResolver Ledger Conversation Examples.

Lemma sendMessageToNode_sends_last_attachments_witness :
  treeState treeExample
  ∧ "node-C" ∈ ids (nodes treeExample)
  ∧ chatManager treeExample = true
  ∧ msg_role question = user
  ∧ getPathToNode 2 treeExample "node-C" = Some [pathMessage m1]
  ∧ sendMessageToNode 2 (addMessageToNode treeExample "node-C" question false).1
      "node-C" "Summarise the file"
    = Some (inr [GetThread "node-C" ([pathMessage m1] ++ [pathMessage question]);
                 SendMessage "node-C" "Summarise the file" (Some [specPdf])]).
Proof.
  assert (Hin : "node-C" ∈ ids (nodes treeExample))
    by (apply (bool_decide_unpack _); by vm_compute).
  split; [exact treeState_treeExample|]. split; [exact Hin|].
  split; [done|]. split; [done|]. split; [by vm_compute|].
  exact (sendMessageToNode_sends_last_attachments treeExample "node-C"
           "Summarise the file" question 2 [pathMessage m1]
           treeState_treeExample Hin eq_refl eq_refl eq_refl).
Defined.

Lemma sendMessageDone_records_reply_witness :
  nodes treeExample = [rootNode; nodeA; nodeB] ++ nodeC :: []
  ∧ node_id nodeC = "node-C"
  ∧ NoDup (ids (nodes treeExample))
  ∧ sendMessageDone treeExample "node-C" (ThrewError "quota")
    = (set_nodes treeExample
         ([rootNode; nodeA; nodeB]
          ++ set_chatHistory nodeC
               (chatHistory (node_data nodeC)
                ++ [replyMessage (ThrewError "quota")]) :: []),
       [GenerateTitle "node-C" [replyMessage (ThrewError "quota")];
        SaveToStorage]).
Proof.
  split; [done|]. split; [done|].
  split; [exact (ts_nodup _ treeState_treeExample)|].
  exact (proj1 (sendMessageDone_records_reply treeExample "node-C"
                  (ThrewError "quota") [rootNode; nodeA; nodeB] [] nodeC
                  eq_refl eq_refl (ts_nodup _ treeState_treeExample))).
Defined.

Lemma error_reply_is_not_overwritten_witness :
  (∀ text, ThrewOther ≠ Responded text)
  ∧ "chatManager" ≠ "" ∧ "chatManager" ≠ "error"
  ∧ updateLastMessageInNode (sendMessageDone treeExample "node-C" ThrewOther).1
      "node-C" "late chunk" (Some "chatManager")
    = (sendMessageDone treeExample "node-C" ThrewOther).1.
Proof.
  split; [done|]. split; [done|]. split; [done|].
  exact (error_reply_is_not_overwritten treeExample "node-C" "late chunk"
           ThrewOther "chatManager" ltac:(done) ltac:(done) ltac:(done)).
Defined.

End ConversationExamples.

(** ** Legacy session tier: compaction and quota *)

Section Compaction.
Import Graph Session.

Lemma truncateContent_length content :
  (Z.of_nat (JS.length (truncateContent content)) ≤ 10014)%Z.
Proof.
  unfold truncateContent.
  destruct (Z.ltb_spec 10000 (Z.of_nat (JS.length content))) as [Hlong|Hshort].
  - rewrite JS_length_app, JS_length_substringTo.
    change (JS.length "...[truncated]") with 14. lia.
  - lia.
Qed.

Lemma truncateContent_twice content :
  truncateContent (truncateContent content) = truncateContent content.
Proof.
  destruct (Z.ltb_spec 10000 (Z.of_nat (JS.length content))) as [Hlong|Hshort].
  - rewrite (truncateContent_long content Hlong).
    rewrite truncateContent_long.
    + rewrite JS_substringTo_exact; [done| |done].
      rewrite JS_length_substringTo. lia.
    + rewrite JS_length_app, JS_length_substringTo.
      change (JS.length "...[truncated]") with 14. lia.
  - by rewrite !(truncateContent_short content Hshort).
Qed.

Lemma bfilter_twice {A} (f : A -> bool) (l : list A) :
  List.filter f (List.filter f l) = List.filter f l.
Proof.
  induction l as [|a l IH]; [done|]. simpl.
  destruct (f a) eqn:Hfa; simpl; [rewrite Hfa; by f_equal|done].
Qed.

Lemma compressMessage_twice msg :
  compressMessage (compressMessage msg) = compressMessage msg.
Proof.
  unfold compressMessage. simpl. rewrite truncateContent_twice. do 2 f_equal.
  destruct (msg_attachments msg); [apply bfilter_twice|done].
Qed.

(** X25. Compacting a snapshot is idempotent and loses no node and no
    message: the compacted snapshot has the same node ids and, node by
    node, as many messages; in it every content has at most 10 014
    characters and every message has an attachment list whose members
    hold fewer than 100 000 characters of data. Characters are UTF-16
    code units, as [length] and [substring] count them. *)
Theorem compressedData_idempotent_bounded (data : SessionData) :
  compressedData (compressedData data) = compressedData data
  ∧ ids (sd_nodes (compressedData data)) = ids (sd_nodes data)
  ∧ (length ∘ chatHistory ∘ node_data) <$> sd_nodes (compressedData data)
    = (length ∘ chatHistory ∘ node_data) <$> sd_nodes data
  ∧ ∀ node msg,
      node ∈ sd_nodes (compressedData data) ->
      msg ∈ chatHistory (node_data node) ->
      (Z.of_nat (JS.length (msg_content msg)) ≤ 10014)%Z
      ∧ ∃ atts, msg_attachments msg = Some atts
                ∧ ∀ att, att ∈ atts ->
                    (Z.of_nat (JS.length (att_data att)) < 100000)%Z.
Proof.
  split; [|split; [|split]].
  - unfold compressedData. simpl. f_equal. rewrite map_map. apply map_ext.
    intros node. unfold compressNode. simpl. do 2 f_equal.
    rewrite map_map. apply map_ext. intros msg. apply compressMessage_twice.
  - unfold ids. simpl. by rewrite map_map.
  - simpl. change (map compressNode (sd_nodes data))
      with (compressNode <$> sd_nodes data).
    rewrite <- list_fmap_compose. apply list_fmap_ext. intros i node _. simpl.
    by rewrite length_map.
  - intros node msg Hnode Hmsg. simpl in Hnode.
    apply list_elem_of_In, in_map_iff in Hnode as (node0 & <- & _).
    simpl in Hmsg.
    apply list_elem_of_In, in_map_iff in Hmsg as (msg0 & <- & _). simpl.
    split; [apply truncateContent_length|].
    eexists. split; [reflexivity|]. intros att Hatt.
    by apply smallAttachments_elem_of in Hatt as [_ Hsmall].
Qed.

Variable stringify : SessionData -> string.
Variable setItem : option string -> string -> SetItemOutcome.

(** X26. A quota error costs the previous entry: when the write that
    [saveSessionData] attempts first hits the quota, the entry is removed
    and the snapshot is tried once more without compaction, so the save
    ends with that serialization stored, or with no entry at all; a
    snapshot that had to be compacted always ends with no entry. *)
Theorem saveSessionData_after_quota (data : SessionData) (entry : option string) :
  let firstWrite :=
    if tooLarge (stringify data) then stringify (compressedData data)
    else stringify data in
  tooLarge firstWrite = false ->
  setItem entry firstWrite = QuotaExceeded ->
  saveSessionData stringify setItem data entry
  = if tooLarge (stringify data) then (false, None)
    else match setItem None (stringify data) with
         | Stored => (true, Some (stringify data))
         | _ => (false, None)
         end.
Proof.
  intros firstWrite Hfits Hquota. unfold firstWrite in *.
  unfold saveSessionData, trySetItem, onSaveError.
  destruct (tooLarge (stringify data)) eqn:Hlarge.
  - by rewrite Hfits, Hquota.
  - by rewrite Hquota.
Qed.

End Compaction.

Section CompactionExamples.
Import Graph Session Examples MoreExamples.

Lemma compressedData_idempotent_bounded_witness :
  question ∈ chatHistory (node_data streamingRoot)
  ∧ compressNode streamingRoot
    ∈ sd_nodes (compressedData (sessionOf streamingState))
  ∧ (Z.of_nat (JS.length (msg_content (compressMessage question)))
     ≤ 10014)%Z.
Proof.
  assert (Hmsg : compressMessage question
                 ∈ chatHistory (node_data (compressNode streamingRoot)))
    by (by left).
  assert (Hnode : compressNode streamingRoot
                  ∈ sd_nodes (compressedData (sessionOf streamingState)))
    by (by left).
  split; [by left|]. split; [exact Hnode|].
  exact (proj1 (proj2 (proj2 (proj2
           (compressedData_idempotent_bounded (sessionOf streamingState))))
           _ _ Hnode Hmsg)).
Defined.

(** Lengths are counted in code units, not in bytes: 8 192 letters of
    two bytes each are within the 10 000 characters and are kept. *)
Example truncateContent_counts_code_units :
  truncateContent (doubled 13 "é") = doubled 13 "é".
Proof.
  apply truncateContent_short. rewrite length_doubled.
  change (JS.length "é") with 1. by vm_compute.
Qed.

Lemma saveSessionData_after_quota_witness :
  tooLarge (coarseStringify emptySession) = false
  ∧ fullUntilCleared (Some "old") (coarseStringify emptySession) = QuotaExceeded
  ∧ saveSessionData coarseStringify fullUntilCleared emptySession (Some "old")
    = (true, Some "{}").
Proof.
  split; [done|]. split; [done|].
  exact (saveSessionData_after_quota coarseStringify fullUntilCleared
           emptySession (Some "old") eq_refl eq_refl).
Defined.

End CompactionExamples.

(** ** Workspaces and restoring: properties *)

Section Restoring.
Import Graph PathResolver Mutator Workspace.

Lemma withRoot_has_root ns : "root" ∈ ids (withRoot ns).
Proof.
  unfold withRoot. destruct (hasRoot ns) eqn:Hroot.
  - by apply hasRoot_true.
  - by left.
Qed.

Lemma withRoot_same ns : "root" ∈ ids ns -> withRoot ns = ns.
Proof. intros Hroot%hasRoot_true. unfold withRoot. by rewrite Hroot. Qed.

Lemma withRoot_cases ns : withRoot ns = ns ∨ withRoot ns = ROOT_NODE :: ns.
Proof. unfold withRoot. destruct (hasRoot ns); [by left|by right]. Qed.

Lemma restoredState_spec fuel st ns es active st' :
  restoredState fuel st ns es active = Some st' ->
  nodes st' = ns ∧ edges st' = es ∧ chatManager st' = chatManager st
  ∧ activeNodeId st' = active
  ∧ (active ≠ Some "" ->
     setActiveNodeId fuel st' active = Some (st', [SaveToStorage])).
Proof.
  unfold restoredState, storedPathEdgeIds, storedPathNodeIds.
  destruct (truthy active) eqn:Htruthy.
  - destruct active as [a|]; [|done].
    destruct (walkUp fuel (incomingMap es) (Some a) []) as [path|] eqn:Hpath;
      [|done].
    intros [= <-]. repeat (split; [done|]). intros _.
    unfold setActiveNodeId. rewrite Htruthy. unfold getPathNodeIds.
    cbn [edges]. by rewrite Hpath.
  - intros [= <-]. repeat (split; [done|]). intros Hnonempty.
    apply truthy_false in Htruthy as [-> | ->]; done.
Qed.

Lemma restoredState_terminates st ns es active :
  acyclic es ->
  ∃ fuel, ∀ fuel', fuel ≤ fuel' ->
    is_Some (restoredState fuel' st ns es active).
Proof.
  intros Hacyclic. unfold restoredState, storedPathEdgeIds, storedPathNodeIds.
  destruct (truthy active) eqn:Htruthy; [|by exists 0].
  destruct active as [a|]; [|done].
  destruct (walkUp_terminates es a (acyclic_Acc_up _ Hacyclic a)) as [fuel Hfuel].
  exists fuel. intros fuel' Hle.
  destruct (Hfuel fuel' [] Hle) as [path ->]. done.
Qed.

(** X27. [loadFromSession] with a stored session: on stored edges
    without a cycle it returns, and whenever it returns, it returns true
    and the state holds a root node, put in front of the stored nodes
    when they had none, the stored edges and the stored active node; the
    active path is the one that [setActiveNodeId] publishes for that node
    on the restored state. The chat manager is kept. *)
Theorem loadFromSession_restores (st : ChatState) (data : SessionData) :
  (acyclic (sd_edges data) ->
   ∃ fuel, ∀ fuel', fuel ≤ fuel' ->
     is_Some (loadFromSession fuel' st (Some data)))
  ∧ ∀ fuel result,
      loadFromSession fuel st (Some data) = Some result ->
      ∃ st',
        result = (true, st')
        ∧ "root" ∈ ids (nodes st')
        ∧ (nodes st' = sd_nodes data ∨ nodes st' = ROOT_NODE :: sd_nodes data)
        ∧ ("root" ∈ ids (sd_nodes data) -> nodes st' = sd_nodes data)
        ∧ edges st' = sd_edges data
        ∧ activeNodeId st' = sd_activeNodeId data
        ∧ chatManager st' = chatManager st
        ∧ (sd_activeNodeId data ≠ Some "" ->
           setActiveNodeId fuel st' (sd_activeNodeId data)
           = Some (st', [SaveToStorage])).
Proof.
  split.
  - intros Hacyclic.
    destruct (restoredState_terminates st (withRoot (sd_nodes data))
                (sd_edges data) (sd_activeNodeId data) Hacyclic)
      as [fuel Hfuel].
    exists fuel. intros fuel' Hle. unfold loadFromSession.
    by destruct (Hfuel fuel' Hle) as [st' ->].
  - intros fuel result. unfold loadFromSession.
    destruct (restoredState fuel st _ _ _) as [st'|] eqn:Hrestored; [|done].
    intros [= <-]. exists st'. split; [done|].
    destruct (restoredState_spec _ _ _ _ _ _ Hrestored)
      as (Hnodes & Hedges & Hmanager & Hactive & Hpath).
    rewrite Hnodes.
    split; [apply withRoot_has_root|]. split; [apply withRoot_cases|].
    split; [apply withRoot_same|]. done.
Qed.

(** X28. [loadFromStorage] restores a workspace snapshot in the same
    way, and returns true exactly when the snapshot has its metadata:
    for a snapshot without metadata the state is replaced all the same
    and false is returned. Without a snapshot it returns false and
    changes nothing. *)
Theorem loadFromStorage_restores (st : ChatState) (data : WorkspaceData) :
  (∀ fuel, loadFromStorage fuel st None = Some (false, st))
  ∧ (acyclic (wd_edges data) ->
     ∃ fuel, ∀ fuel', fuel ≤ fuel' ->
       is_Some (loadFromStorage fuel' st (Some data)))
  ∧ ∀ fuel result,
      loadFromStorage fuel st (Some data) = Some result ->
      ∃ st',
        result = (bool_decide (wd_metadata data ≠ None), st')
        ∧ "root" ∈ ids (nodes st')
        ∧ (nodes st' = wd_nodes data ∨ nodes st' = ROOT_NODE :: wd_nodes data)
        ∧ ("root" ∈ ids (wd_nodes data) -> nodes st' = wd_nodes data)
        ∧ edges st' = wd_edges data
        ∧ activeNodeId st' = wd_activeNodeId data
        ∧ chatManager st' = chatManager st
        ∧ (wd_activeNodeId data ≠ Some "" ->
           setActiveNodeId fuel st' (wd_activeNodeId data)
           = Some (st', [SaveToStorage])).
Proof.
  split; [done|]. split.
  - intros Hacyclic.
    destruct (restoredState_terminates st (withRoot (wd_nodes data))
                (wd_edges data) (wd_activeNodeId data) Hacyclic)
      as [fuel Hfuel].
    exists fuel. intros fuel' Hle. unfold loadFromStorage.
    by destruct (Hfuel fuel' Hle) as [st' ->].
  - intros fuel result. unfold loadFromStorage.
    destruct (restoredState fuel st _ _ _) as [st'|] eqn:Hrestored; [|done].
    intros [= <-]. exists st'. split; [by destruct (wd_metadata data)|].
    destruct (restoredState_spec _ _ _ _ _ _ Hrestored)
      as (Hnodes & Hedges & Hmanager & Hactive & Hpath).
    rewrite Hnodes.
    split; [apply withRoot_has_root|]. split; [apply withRoot_cases|].
    split; [apply withRoot_same|]. done.
Qed.

Lemma treeState_same_graph (st st' : ChatState) :
  treeState st -> nodes st' = nodes st -> edges st' = edges st -> treeState st'.
Proof.
  intros [] Hnodes Hedges. split; rewrite ?Hnodes, ?Hedges; done.
Qed.

Section RoundTrip.

Variable stringify : SessionData -> string.
Variable setItem : option string -> string -> SetItemOutcome.
Variable parse : string -> option StoredSession.

Lemma loadSessionData_readBack data :
  parse (stringify data) = Some (Stored.readBack data) ->
  stringify data ≠ "" ->
  loadSessionData parse (Some (stringify data)) = Some data.
Proof.
  intros Hparse Hnonempty. unfold loadSessionData. simpl.
  rewrite (proj2 (String.eqb_neq _ _) Hnonempty). simpl.
  rewrite Hparse. simpl. by destruct data.
Qed.

(** X29. A session survives the round trip: when a tree state is saved
    with [saveToSession], the serialization is under the ceiling and the
    write succeeds, then [loadSessionData] reads the snapshot back and
    [loadFromSession] restores, into whatever state the store is in, the
    same nodes, edges and active node, again a tree state. Here
    [JSON.parse] reads the serialization back field by field. *)
Theorem session_round_trip (st other : ChatState) (now : Z) (entry : option string) :
  parse (stringify (sessionData st now))
  = Some (Stored.readBack (sessionData st now)) ->
  stringify (sessionData st now) ≠ "" ->
  treeState st ->
  Session.tooLarge (stringify (sessionData st now)) = false ->
  setItem entry (stringify (sessionData st now)) = Stored ->
  loadSessionData parse (saveToSession stringify setItem st now entry)
  = Some (sessionData st now)
  ∧ ∃ fuel, ∀ fuel', fuel ≤ fuel' ->
      ∃ st',
        loadFromSession fuel' other
          (loadSessionData parse (saveToSession stringify setItem st now entry))
        = Some (true, st')
        ∧ nodes st' = nodes st
        ∧ edges st' = edges st
        ∧ activeNodeId st' = activeNodeId st
        ∧ chatManager st' = chatManager other
        ∧ treeState st'.
Proof.
  intros Hparse Hnonempty Htree Hfits Hstored.
  assert (Hsaved : saveToSession stringify setItem st now entry
                   = Some (stringify (sessionData st now))).
  { unfold saveToSession, Session.saveSessionData, Session.trySetItem.
    by rewrite Hfits, Hstored. }
  rewrite Hsaved, (loadSessionData_readBack _ Hparse Hnonempty).
  split; [done|].
  destruct (restoredState_terminates other
              (withRoot (sd_nodes (sessionData st now)))
              (sd_edges (sessionData st now))
              (sd_activeNodeId (sessionData st now)) (ts_acyclic _ Htree))
    as [fuel Hfuel].
  exists fuel. intros fuel' Hle. unfold loadFromSession.
  destruct (Hfuel fuel' Hle) as [st' Hrestored]. rewrite Hrestored.
  exists st'. split; [done|].
  destruct (restoredState_spec _ _ _ _ _ _ Hrestored)
    as (Hnodes & Hedges & Hmanager & Hactive & _).
  simpl in Hnodes, Hedges, Hactive.
  rewrite (withRoot_same _ (ts_root _ Htree)) in Hnodes.
  repeat (split; [done|]). by apply (treeState_same_graph st).
Qed.

End RoundTrip.

(** What a call of [switchWorkspace] that installs stored data with a
    non-empty active id has done, when it returns. *)
Lemma switchWorkspace_result
    (STORAGE_VERSION : string) (fuel : nat) (st : ChatState)
    (currentWorkspaceId workspaceId : string) (name : option string)
    (timestamp createdAt lastModified : Z) (data : WorkspaceData)
    (active : string) result :
  currentWorkspaceId ≠ workspaceId ->
  wd_activeNodeId data = Some active ->
  active ≠ "" ->
  switchWorkspace STORAGE_VERSION fuel st currentWorkspaceId workspaceId
    name timestamp createdAt lastModified (Some data)
  = Some result ->
  ∃ st',
    result
    = (true, st',
       [SaveWorkspaceData currentWorkspaceId
          (workspaceData STORAGE_VERSION st name timestamp createdAt
             lastModified);
        SetActiveWorkspace workspaceId])
    ∧ nodes st' = withRoot (wd_nodes data)
    ∧ edges st' = wd_edges data
    ∧ chatManager st' = chatManager st
    ∧ activeNodeId st' = Some active
    ∧ getPathNodeIds fuel st active = Some (nodeIds (activePath st'))
    ∧ getPathEdgeIds fuel st active = Some (edgeIds (activePath st'))
    ∧ ((∀ e, e ∈ edges st -> edge_target e ≠ active) ->
       activePath st' = {| nodeIds := [active]; edgeIds := [] |}).
Proof.
  intros Hne Hactive Hnonempty. unfold switchWorkspace.
  rewrite (proj2 (String.eqb_neq _ _) Hne), Hactive.
  assert (Htruthy : truthy (Some active) = true)
    by (simpl; by apply negb_true_iff, String.eqb_neq).
  rewrite Htruthy.
  destruct (getPathNodeIds fuel st active) as [path|] eqn:Hpath; [|done].
  unfold getPathEdgeIds. rewrite Hpath. intros [= <-].
  eexists. split; [reflexivity|]. simpl.
  repeat (split; [done|]). intros Horphan.
  unfold getPathNodeIds in Hpath. destruct fuel as [|fuel].
  - by rewrite walkUp_no_fuel in Hpath.
  - rewrite walkUp_step in Hpath by done.
    rewrite (proj2 (incomingMap_None _ _) Horphan) in Hpath.
    rewrite walkUp_stop in Hpath by done. by injection Hpath as <-.
Qed.

(** X30. [switchWorkspace]: for the id of the active workspace nothing
    happens. Otherwise the state that is left is saved under the id of
    the active workspace and the new id is made active. Without data
    for the new workspace the store starts afresh with root active. With
    data, the stored nodes, with a root in front if they had none, and
    the stored edges are installed; an absent or empty stored active id
    makes root active. For any other stored active id the call returns
    whenever the edges of the state that is left have no cycle, and the
    active path is what [getPathNodeIds] and [getPathEdgeIds] give on
    that state, so it follows the edges of the old workspace: for an id
    that no old edge leads to, it is that id alone. *)
Theorem switchWorkspace_path_from_old_edges
    (STORAGE_VERSION : string) (st : ChatState)
    (currentWorkspaceId workspaceId : string) (name : option string)
    (timestamp createdAt lastModified : Z) :
  let saved :=
    [SaveWorkspaceData currentWorkspaceId
       (workspaceData STORAGE_VERSION st name timestamp createdAt lastModified);
     SetActiveWorkspace workspaceId] in
  let rootActive := fun (ns : list Node) (es : list Edge) =>
    {| nodes := ns; edges := es; chatManager := chatManager st;
       activeNodeId := Some "root";
       activePath := {| nodeIds := ["root"]; edgeIds := [] |} |} in
  (∀ fuel data,
     switchWorkspace STORAGE_VERSION fuel st workspaceId workspaceId name
       timestamp createdAt lastModified data
     = Some (true, st, []))
  ∧ (currentWorkspaceId ≠ workspaceId ->
     ∀ fuel,
       switchWorkspace STORAGE_VERSION fuel st currentWorkspaceId workspaceId
         name timestamp createdAt lastModified None
       = Some (true, rootActive [ROOT_NODE] [], saved))
  ∧ (∀ data,
       currentWorkspaceId ≠ workspaceId ->
       wd_activeNodeId data = None ∨ wd_activeNodeId data = Some "" ->
       ∀ fuel,
         switchWorkspace STORAGE_VERSION fuel st currentWorkspaceId workspaceId
           name timestamp createdAt lastModified (Some data)
         = Some (true, rootActive (withRoot (wd_nodes data)) (wd_edges data),
                 saved))
  ∧ (∀ data active,
       currentWorkspaceId ≠ workspaceId ->
       wd_activeNodeId data = Some active ->
       active ≠ "" ->
       acyclic (edges st) ->
       ∃ fuel, ∀ fuel', fuel ≤ fuel' ->
         ∃ st',
           switchWorkspace STORAGE_VERSION fuel' st currentWorkspaceId
             workspaceId name timestamp createdAt lastModified (Some data)
           = Some (true, st', saved)
           ∧ "root" ∈ ids (nodes st')
           ∧ (nodes st' = wd_nodes data ∨ nodes st' = ROOT_NODE :: wd_nodes data)
           ∧ edges st' = wd_edges data
           ∧ chatManager st' = chatManager st
           ∧ activeNodeId st' = Some active
           ∧ getPathNodeIds fuel' st active = Some (nodeIds (activePath st'))
           ∧ getPathEdgeIds fuel' st active = Some (edgeIds (activePath st'))
           ∧ ((∀ e, e ∈ edges st -> edge_target e ≠ active) ->
              activePath st' = {| nodeIds := [active]; edgeIds := [] |})).
Proof.
  intros saved rootActive. split; [|split; [|split]].
  - intros fuel data. unfold switchWorkspace. by rewrite String.eqb_refl.
  - intros Hne fuel. unfold switchWorkspace.
    by rewrite (proj2 (String.eqb_neq _ _) Hne).
  - intros data Hne Hfalsy fuel. unfold switchWorkspace.
    by rewrite (proj2 (String.eqb_neq _ _) Hne),
         (proj2 (truthy_false _) Hfalsy).
  - intros data active Hne Hactive Hnonempty Hacyclic.
    destruct (walkUp_terminates (edges st) active
                (acyclic_Acc_up _ Hacyclic active)) as [fuel Hfuel].
    exists fuel. intros fuel' Hle.
    destruct (Hfuel fuel' [] Hle) as [path Hpath].
    assert (Hreturns : is_Some
              (switchWorkspace STORAGE_VERSION fuel' st currentWorkspaceId
                 workspaceId name timestamp createdAt lastModified (Some data))).
    { unfold switchWorkspace, getPathEdgeIds, getPathNodeIds.
      rewrite (proj2 (String.eqb_neq _ _) Hne), Hactive, Hpath.
      by destruct (truthy (Some active)). }
    destruct Hreturns as [result Hres].
    destruct (switchWorkspace_result _ _ _ _ _ _ _ _ _ _ _ _
                Hne Hactive Hnonempty Hres)
      as (st' & -> & Hnodes & Hedges & Hmanager & Hid & Hpn & Hpe & Horphan).
    exists st'. split; [done|]. rewrite Hnodes.
    split; [apply withRoot_has_root|]. split; [apply withRoot_cases|]. done.
Qed.

Lemma foldl_sum {A} (f : A -> nat) (l : list A) (start : nat) :
  foldl (fun sum a => sum + f a) start l = start + sum_list (f <$> l).
Proof.
  revert start. induction l as [|a l IH]; intros start; [simpl; lia|].
  rewrite fmap_cons. cbn [foldl sum_list]. rewrite IH. unfold id. lia.
Qed.

Lemma totalMessages_app ns1 ns2 :
  totalMessages (ns1 ++ ns2) = totalMessages ns1 + totalMessages ns2.
Proof.
  unfold totalMessages. rewrite foldl_app.
  rewrite (foldl_sum _ ns2 (foldl _ 0 ns1)), (foldl_sum _ ns2 0). lia.
Qed.

Lemma totalAttachments_app ns1 ns2 :
  totalAttachments (ns1 ++ ns2) = totalAttachments ns1 + totalAttachments ns2.
Proof.
  unfold totalAttachments. rewrite foldl_app.
  rewrite (foldl_sum _ ns2 (foldl _ 0 ns1)), (foldl_sum _ ns2 0). lia.
Qed.

(** The totals in the metadata of a snapshot follow the ledger:
    a message that is appended adds one to the message total and the
    number of its attachments to the attachment total, once for each
    node that has the id; a message added to an id that names no node
    changes neither. *)
Theorem snapshot_totals_after_append
    (st : ChatState) (nodeId : string) (message : ChatMessage) :
  let st' := (Ledger.addMessageToNode st nodeId message false).1 in
  totalMessages (nodes st')
  = totalMessages (nodes st) + Stored.occurrences (nodes st) nodeId
  ∧ totalAttachments (nodes st')
    = totalAttachments (nodes st)
      + Stored.occurrences (nodes st) nodeId
        * length (default [] (msg_attachments message))
  ∧ (nodeId ∉ ids (nodes st) -> st' = st).
Proof.
  intros st'. unfold st'. rewrite addMessageToNode_nodes.
  unfold Stored.occurrences.
  assert (Hsum : ∀ ns,
    totalMessages
      (map (fun node => (Ledger.addMessage_node st nodeId message false node).1) ns)
    = totalMessages ns + length (filter (fun node => node_id node = nodeId) ns)
    ∧ totalAttachments
        (map (fun node => (Ledger.addMessage_node st nodeId message false node).1) ns)
      = totalAttachments ns
        + length (filter (fun node => node_id node = nodeId) ns)
          * length (default [] (msg_attachments message))).
  { induction ns as [|n ns [IHm IHa]]; [done|].
    change (n :: ns) with ([n] ++ ns). rewrite map_app.
    rewrite !totalMessages_app, !totalAttachments_app, IHm, IHa.
    rewrite filter_app, length_app. simpl map.
    unfold Ledger.addMessage_node.
    destruct (String.eqb_spec (node_id n) nodeId) as [Hid|Hne].
    - rewrite (filter_cons_True _ n []) by done. rewrite filter_nil.
      unfold totalMessages, totalAttachments, nodeAttachments. simpl.
      unfold Ledger.updatedChatHistory. simpl.
      rewrite length_app, foldl_app. simpl. lia.
    - rewrite (filter_cons_False _ n []) by done. rewrite filter_nil.
      simpl. lia. }
  split; [apply Hsum|]. split; [apply Hsum|].
  intros Hnot. unfold Ledger.addMessageToNode. simpl.
  transitivity (set_nodes st (nodes st)); [|apply set_nodes_same].
  f_equal. rewrite map_map. etransitivity; [|apply map_id].
  apply map_ext_in. intros n Hn%list_elem_of_In.
  unfold Ledger.addMessage_node.
  destruct (String.eqb_spec (node_id n) nodeId) as [Hid|Hne]; [|done].
  exfalso. apply Hnot. rewrite <- Hid. by apply list_elem_of_fmap_2.
Qed.

End Restoring.

Section RestoringExamples.
Import Graph PathResolver Mutator Workspace Examples MoreExamples.

Lemma loadFromSession_restores_witness :
  acyclic (sd_edges (sessionOf treeExample))
  ∧ (∃ fuel, ∀ fuel', fuel ≤ fuel' ->
       is_Some (loadFromSession fuel' initial_state
                  (Some (sessionOf treeExample))))
  ∧ ∃ st',
      loadFromSession 2 initial_state (Some storedRootless) = Some (true, st')
      ∧ "root" ∈ ids (nodes st')
      ∧ edges st' = sd_edges storedRootless
      ∧ (sd_activeNodeId storedRootless ≠ Some "" ->
         setActiveNodeId 2 st' (sd_activeNodeId storedRootless)
         = Some (st', [SaveToStorage])).
Proof.
  split; [exact acyclic_treeExample|].
  split.
  - exact (proj1 (loadFromSession_restores initial_state (sessionOf treeExample))
             acyclic_treeExample).
  - destruct (proj2 (loadFromSession_restores initial_state storedRootless)
                2 _ eq_refl)
      as (st' & Hresult & Hroot & _ & _ & Hedges & _ & _ & Hpath).
    exists st'. split; [by rewrite <- Hresult|]. done.
Defined.

(** Stored edges with a cycle through the active node: the load never
    returns, whatever the fuel. *)
Lemma loadFromSession_cycle_diverges fuel (st : ChatState) :
  loadFromSession fuel st
    (Some {| sd_nodes := nodes cycleExample; sd_edges := edges cycleExample;
             sd_activeNodeId := Some "node-A";
             sd_timestamp := 1790000000000; sd_version := "1.0.0" |})
  = None.
Proof.
  unfold loadFromSession, restoredState, storedPathEdgeIds, storedPathNodeIds.
  cbn [sd_edges sd_activeNodeId].
  pose proof (getPathNodeIds_cycle_diverges fuel) as Hloop.
  unfold getPathNodeIds in Hloop. by rewrite Hloop.
Qed.

Lemma loadFromStorage_restores_witness :
  acyclic (wd_edges storedTreeBare)
  ∧ (∃ fuel, ∀ fuel', fuel ≤ fuel' ->
       is_Some (loadFromStorage fuel' initial_state (Some storedTreeBare)))
  ∧ ∃ st',
      loadFromStorage 3 initial_state (Some storedTreeBare) = Some (false, st')
      ∧ nodes st' = nodes treeExample
      ∧ edges st' = edges treeExample
      ∧ activeNodeId st' = Some "node-B".
Proof.
  split; [exact acyclic_treeExample|].
  destruct (loadFromStorage_restores initial_state storedTreeBare)
    as (_ & Hreturns & Hresult).
  split; [exact (Hreturns acyclic_treeExample)|].
  destruct (Hresult 3 _ eq_refl)
    as (st' & Heq & _ & _ & Hnodes & Hedges & Hactive & _).
  injection Heq as Hst.
  exists st'. split; [rewrite <- Hst; reflexivity|].
  split; [apply Hnodes, (ts_root _ treeState_treeExample)|]. done.
Defined.

Lemma session_round_trip_witness :
  tinyParse (tinyStringify (sessionData initial_state 1790000000000))
  = Some (Stored.readBack (sessionData initial_state 1790000000000))
  ∧ tinyStringify (sessionData initial_state 1790000000000) ≠ ""
  ∧ treeState initial_state
  ∧ Session.tooLarge (tinyStringify (sessionData initial_state 1790000000000))
    = false
  ∧ roomyStorage None (tinyStringify (sessionData initial_state 1790000000000))
    = Stored
  ∧ loadSessionData tinyParse
      (saveToSession tinyStringify roomyStorage initial_state 1790000000000 None)
    = Some (sessionData initial_state 1790000000000).
Proof.
  split; [done|]. split; [done|]. split; [exact treeState_initial|].
  split; [done|]. split; [done|].
  exact (proj1 (session_round_trip tinyStringify roomyStorage tinyParse
                  initial_state treeExample 1790000000000 None
                  eq_refl ltac:(done) treeState_initial eq_refl eq_refl)).
Defined.

(** Switching from a fresh store to the stored example tree, whose
    active node is B: the nodes and edges of the tree are installed, and
    the active path is B alone, since the fresh store had no edges;
    [loadFromStorage] on the same snapshot publishes root, A, B. *)
Lemma switchWorkspace_path_from_old_edges_witness :
  "ws-1" ≠ "ws-2"
  ∧ wd_activeNodeId storedTree = Some "node-B"
  ∧ "node-B" ≠ ""
  ∧ acyclic (edges initial_state)
  ∧ (∀ e, e ∈ edges initial_state -> edge_target e ≠ "node-B")
  ∧ (∃ fuel, ∀ fuel', fuel ≤ fuel' ->
       ∃ st' calls,
         switchWorkspace "2.0.0" fuel' initial_state "ws-1" "ws-2"
           (Some "Scratch") 1790000000000 1790000000000 1790000000000
           (Some storedTree)
         = Some (true, st', calls)
         ∧ edges st' = edges treeExample
         ∧ activeNodeId st' = Some "node-B"
         ∧ activePath st' = {| nodeIds := ["node-B"]; edgeIds := [] |})
  ∧ ∃ st',
      loadFromStorage 3 initial_state (Some storedTree) = Some (true, st')
      ∧ activePath st'
        = {| nodeIds := ["root"; "node-A"; "node-B"];
             edgeIds := ["e-root-node-A"; "e-node-A-node-B"] |}.
Proof.
  assert (Horphan : ∀ e, e ∈ edges initial_state -> edge_target e ≠ "node-B")
    by (intros e He; by inversion He).
  split; [done|]. split; [done|]. split; [done|].
  split; [exact acyclic_nil|]. split; [exact Horphan|].
  split.
  - destruct (proj2 (proj2 (proj2 (switchWorkspace_path_from_old_edges "2.0.0"
                initial_state "ws-1" "ws-2" (Some "Scratch")
                1790000000000 1790000000000 1790000000000)))
                storedTree "node-B" ltac:(done) eq_refl ltac:(done) acyclic_nil)
      as [fuel Hfuel].
    exists fuel. intros fuel' Hle.
    destruct (Hfuel fuel' Hle)
      as (st' & Hresult & _ & _ & Hedges & _ & Hactive & _ & _ & Hpath).
    exists st'. eexists. split; [exact Hresult|].
    split; [exact Hedges|]. split; [exact Hactive|exact (Hpath Horphan)].
  - eexists. split; reflexivity.
Defined.

(** When the state that is left has a cycle through the stored active
    id, the switch never returns, whatever the fuel. *)
Lemma switchWorkspace_cycle_diverges fuel :
  switchWorkspace "2.0.0" fuel cycleExample "ws-1" "ws-2" (Some "Scratch")
    1790000000000 1790000000000 1790000000000
    (Some {| wd_name := "Research"; wd_nodes := [ROOT_NODE]; wd_edges := [];
             wd_activeNodeId := Some "node-A";
             wd_timestamp := 1790000000000; wd_version := "2.0.0";
             wd_metadata := None |})
  = None.
Proof.
  unfold switchWorkspace. simpl String.eqb. cbv iota.
  cbn [wd_activeNodeId]. simpl truthy. cbv iota.
  by rewrite getPathNodeIds_cycle_diverges.
Qed.

Lemma snapshot_totals_after_append_witness :
  ("stray" ∉ ids (nodes treeExample))
  ∧ (Ledger.addMessageToNode treeExample "stray" question false).1 = treeExample
  ∧ totalMessages
      (nodes (Ledger.addMessageToNode treeExample "node-C" question false).1)
    = totalMessages (nodes treeExample)
      + Stored.occurrences (nodes treeExample) "node-C".
Proof.
  assert (Hstray : "stray" ∉ ids (nodes treeExample))
    by (apply (bool_decide_unpack _); by vm_compute).
  split; [exact Hstray|].
  split.
  - exact (proj2 (proj2 (snapshot_totals_after_append treeExample "stray"
                           question)) Hstray).
  - exact (proj1 (snapshot_totals_after_append treeExample "node-C" question)).
Defined.

End RestoringExamples.
